(** * WebDB: a promise wrapper over IndexedDB

    A shallow embedding of the [WebDB] class of [src/db.ts] and of its
    second copy in the repository (called [part_000] below), together with
    a model of the part of the IndexedDB engine the class talks to.

    The class is glue code: what it does is call the engine, assign event
    handlers on the objects the engine hands out, and settle promises from
    those handlers.  The embedding therefore keeps
    - the objects of the engine (open request, connection, transactions,
      requests) in an explicit heap, with their handler slots,
    - the promises in a table of settlement states,
    - a log of every call made to the engine and of every hook invoked,
    and runs the methods in a state-and-exception monad over that heap.
    Engine events are delivered by [dispatch]. *)

From Stdlib Require Import ZArith String List Bool Lia Sorted.
From stdpp Require Import base option list gmap strings fin_maps.

Local Open Scope string_scope.
Local Open Scope list_scope.
Local Open Scope Z_scope.

(** ** Values *)

(** [IDBValidKey]: numbers and strings (dates, buffers and arrays are left
    out of the model). *)
Inductive IDBValidKey :=
| KNumber (n : Z)
| KString (s : string).

#[global] Instance IDBValidKey_eq_dec : EqDecision IDBValidKey.
Proof. solve_decision. Defined.

#[global] Instance IDBValidKey_countable : Countable IDBValidKey.
Proof.
  refine (inj_countable'
            (λ k, match k with KNumber n => inl n | KString s => inr s end)
            (λ x, match x with inl n => KNumber n | inr s => KString s end) _).
  intros []; reflexivity.
Defined.

(** The engine orders numbers before strings. *)
Definition key_leb (a b : IDBValidKey) : bool :=
  match a, b with
  | KNumber x, KNumber y => Z.leb x y
  | KNumber _, KString _ => true
  | KString _, KNumber _ => false
  | KString x, KString y => String.leb x y
  end.

Definition key_eqb (a b : IDBValidKey) : bool := bool_decide (a = b).

(** A stored record: an object whose fields hold keys. *)
Definition JsObject := list (string * IDBValidKey).

Fixpoint field (kp : string) (o : JsObject) : option IDBValidKey :=
  match o with
  | [] => None
  | (f, v) :: o' => if String.eqb f kp then Some v else field kp o'
  end.

Definition set_field (kp : string) (v : IDBValidKey) (o : JsObject) : JsObject :=
  (kp, v) :: filter (λ fv, negb (String.eqb (fst fv) kp) = true) o.

Record IDBKeyRange := {
  lower : option IDBValidKey;
  upper : option IDBValidKey;
  lowerOpen : bool;
  upperOpen : bool
}.

(** [IDBValidKey | IDBKeyRange] *)
Inductive Query :=
| QKey (k : IDBValidKey)
| QRange (r : IDBKeyRange).

Definition in_range (r : IDBKeyRange) (k : IDBValidKey) : bool :=
  match lower r with
  | None => true
  | Some l => if lowerOpen r then key_leb l k && negb (key_eqb l k) else key_leb l k
  end
  &&
  match upper r with
  | None => true
  | Some u => if upperOpen r then key_leb k u && negb (key_eqb k u) else key_leb k u
  end.

Definition matches (q : option Query) (k : IDBValidKey) : bool :=
  match q with
  | None => true
  | Some (QKey k') => key_eqb k' k
  | Some (QRange r) => in_range r k
  end.

(** What a promise can be settled with, and what a request can hold. *)
Inductive JsValue :=
| VUndefined
| VNull
| VBool (b : bool)
| VKey (k : IDBValidKey)
| VObject (o : JsObject)
| VArray (os : list JsObject)
| VError (message : string)          (* new Error(message) *)
| VTypeError                          (* property access on undefined *)
| VDOMException (name : string)      (* an error object of the engine *)
| VTransaction (t : nat).            (* a reference to an IDBTransaction *)

(** ** The schema declaration ([@types/src/db.d.ts]) *)

Record IDBIndexParameters := {
  unique : option bool;
  multiEntry : option bool
}.

Record WebDBObjectStoreIndex := {
  index_name : string;
  index_keyPath : string;
  index_options : option IDBIndexParameters
}.

Record StoreOptions := {
  keyPath : option string;
  autoIncrement : option bool
}.

Record StoreConfigs := {
  recreate : option bool;
  indexes : option (list WebDBObjectStoreIndex)
}.

Record WebDBObjectStore := {
  store_name : string;
  options : option StoreOptions;
  configs : option StoreConfigs
}.

Record WebDBSetupOptions := {
  objectStores : option (list WebDBObjectStore)
}.

(** The hooks are caller code; the model keeps which ones were supplied and
    logs every invocation with its arguments. *)
Record Handlers := {
  onBlocked : bool;
  onVersionChange : bool;
  onError : bool
}.

(** ** The engine's objects *)

Record IDBIndex := {
  ix_keyPath : string;
  ix_unique : bool;
  ix_multiEntry : bool
}.

Record IDBObjectStore := {
  os_keyPath : option string;
  os_autoIncrement : bool;
  os_indexes : gmap string IDBIndex;
  os_generator : Z;
  os_records : gmap IDBValidKey JsObject
}.

(** What the engine has stored under the database's name.  Version 0 is a
    database that has never been opened. *)
Record Database := {
  stored_version : Z;
  stores : gmap string IDBObjectStore
}.

Inductive Mode := readonly | readwrite.

(** [string | Iterable<string>] and [string | string[]] *)
Inductive StoreNames :=
| Single (s : string)
| Several (l : list string).

Definition names_of (n : StoreNames) : list string :=
  match n with Single s => [s] | Several l => l end.

(** What a handler assigned by the class does when it fires: the closures in
    the source all have the shape [() => resolve(e)] or [() => reject(e)],
    where [e] is a constant or reads a field of the request or transaction
    at the time the event fires. *)
Inductive ValueSource :=
| Const (v : JsValue)
| RequestResult (r : nat)        (* request.result *)
| RequestError (r : nat)         (* request.error *)
| TransactionError (t : nat).    (* transaction.error *)

Inductive Action :=
| Resolve (p : nat) (v : ValueSource)
| Reject (p : nat) (v : ValueSource).

Inductive RequestOp :=
| OpGet (store : string) (index : option string) (query : Query)
| OpGetAll (store : string) (index : option string) (query : option Query)
| OpAdd (store : string) (value : JsObject) (key : option IDBValidKey)
| OpPut (store : string) (value : JsObject) (key : option IDBValidKey)
| OpDelete (store : string) (query : Query)
| OpClear (store : string).

Record IDBRequest := {
  rq_transaction : nat;
  rq_op : RequestOp;
  rq_result : JsValue;
  rq_error : option string;
  rq_onsuccess : option Action;
  rq_onerror : option Action
}.

Record IDBTransaction := {
  tx_scope : list string;
  tx_mode : Mode;
  tx_error : option string;
  tx_queue : list nat;             (* the requests placed against it, oldest first *)
  tx_finished : bool;
  tx_oncomplete : option Action;
  tx_onerror : option Action
}.

(** The connection object ([IDBDatabase]). *)
Record IDBDatabase := {
  closed : bool;
  onversionchange : bool           (* the closure of [handleSuccess] is assigned *)
}.

(** The open request.  Each slot can only ever hold the one closure the
    class assigns to it, so a slot is a flag. *)
Record IDBOpenDBRequest := {
  result : option nat;             (* the connection, once there is one *)
  error : option string;
  onupgradeneeded : bool;
  onsuccess : bool;
  onblocked : bool;
  onerror : bool
}.

(** ** The handle: the fields of [class WebDB] *)

Record WebDB := {
  name : string;
  version : Z;
  setup : option WebDBSetupOptions;
  handlers : option Handlers;
  databaseRequest : option IDBOpenDBRequest;
  db : option nat                  (* IDBDatabase | undefined *)
}.

(** ** The log of calls that leave the class *)

Inductive EngineCall :=
| CallOpen (name : string) (version : Z)
| CallDeleteObjectStore (name : string)
| CallCreateObjectStore (name : string) (options : option StoreOptions)
| CallCreateIndex (store : string) (name : string) (keyPath : string)
    (options : option IDBIndexParameters)
| CallTransaction (names : StoreNames) (mode : Mode) (t : nat)
| CallRequest (op : RequestOp) (t : nat) (r : nat)
| HookOnBlocked (oldVersion : Z) (newVersion : option Z)
| HookOnVersionChange (oldVersion : Z) (newVersion : option Z)
| HookOnError (e : option string).

(** ** The world *)

Inductive PromiseState :=
| Pending
| Fulfilled (v : JsValue)
| Rejected (v : JsValue).

(** [next_id] names the next object the engine hands out and
    [next_promise] the next promise. *)
Record World := {
  window_indexedDB : bool;
  this : WebDB;
  database : Database;
  connections : gmap nat IDBDatabase;
  transactions : gmap nat IDBTransaction;
  requests : gmap nat IDBRequest;
  promises : gmap nat PromiseState;
  next_id : nat;
  next_promise : nat;
  log : list EngineCall
}.

Definition with_this (x : WebDB) (w : World) : World :=
  {| window_indexedDB := window_indexedDB w;
     this := x;
     database := database w;
     connections := connections w;
     transactions := transactions w;
     requests := requests w;
     promises := promises w;
     next_id := next_id w;
     next_promise := next_promise w;
     log := log w |}.

Definition with_database (x : Database) (w : World) : World :=
  {| window_indexedDB := window_indexedDB w;
     this := this w;
     database := x;
     connections := connections w;
     transactions := transactions w;
     requests := requests w;
     promises := promises w;
     next_id := next_id w;
     next_promise := next_promise w;
     log := log w |}.

Definition with_connections (x : gmap nat IDBDatabase) (w : World) : World :=
  {| window_indexedDB := window_indexedDB w;
     this := this w;
     database := database w;
     connections := x;
     transactions := transactions w;
     requests := requests w;
     promises := promises w;
     next_id := next_id w;
     next_promise := next_promise w;
     log := log w |}.

Definition with_transactions (x : gmap nat IDBTransaction) (w : World) : World :=
  {| window_indexedDB := window_indexedDB w;
     this := this w;
     database := database w;
     connections := connections w;
     transactions := x;
     requests := requests w;
     promises := promises w;
     next_id := next_id w;
     next_promise := next_promise w;
     log := log w |}.

Definition with_requests (x : gmap nat IDBRequest) (w : World) : World :=
  {| window_indexedDB := window_indexedDB w;
     this := this w;
     database := database w;
     connections := connections w;
     transactions := transactions w;
     requests := x;
     promises := promises w;
     next_id := next_id w;
     next_promise := next_promise w;
     log := log w |}.

Definition with_promises (x : gmap nat PromiseState) (w : World) : World :=
  {| window_indexedDB := window_indexedDB w;
     this := this w;
     database := database w;
     connections := connections w;
     transactions := transactions w;
     requests := requests w;
     promises := x;
     next_id := next_id w;
     next_promise := next_promise w;
     log := log w |}.

Definition with_next_id (x : nat) (w : World) : World :=
  {| window_indexedDB := window_indexedDB w;
     this := this w;
     database := database w;
     connections := connections w;
     transactions := transactions w;
     requests := requests w;
     promises := promises w;
     next_id := x;
     next_promise := next_promise w;
     log := log w |}.

Definition with_next_promise (x : nat) (w : World) : World :=
  {| window_indexedDB := window_indexedDB w;
     this := this w;
     database := database w;
     connections := connections w;
     transactions := transactions w;
     requests := requests w;
     promises := promises w;
     next_id := next_id w;
     next_promise := x;
     log := log w |}.

Definition with_log (x : list EngineCall) (w : World) : World :=
  {| window_indexedDB := window_indexedDB w;
     this := this w;
     database := database w;
     connections := connections w;
     transactions := transactions w;
     requests := requests w;
     promises := promises w;
     next_id := next_id w;
     next_promise := next_promise w;
     log := x |}.

Definition with_stores (s : gmap string IDBObjectStore) (w : World) : World :=
  with_database {| stored_version := stored_version (database w); stores := s |} w.

(** ** The monad: state, exceptions, and a computation parked at an [await] *)

Inductive Completion (A : Type) :=
| Normal (a : A)
| Throw (e : JsValue)
| Suspended.
Arguments Normal {A} a.
Arguments Throw {A} e.
Arguments Suspended {A}.

Definition Js (A : Type) : Type := World → World * Completion A.

Definition ret {A} (a : A) : Js A := λ w, (w, Normal a).

Definition bind {A B} (m : Js A) (k : A → Js B) : Js B :=
  λ w, match m w with
       | (w', Normal a) => k a w'
       | (w', Throw e) => (w', Throw e)
       | (w', Suspended) => (w', Suspended)
       end.

Definition throw {A} (e : JsValue) : Js A := λ w, (w, Throw e).

Notation "'let!' x ':=' m 'in' k" := (bind m (λ x, k))
  (at level 10, x name, m at level 100, k at level 200).
Notation "m '>>' k" := (bind m (λ _, k))
  (at level 90, right associativity).

Definition gets {A} (f : World → A) : Js A := λ w, (w, Normal (f w)).
Definition modify (f : World → World) : Js unit := λ w, (f w, Normal tt).

(** [for (const x of l) body] and [l.forEach(body)]: an exception leaves
    the loop. *)
Fixpoint for_of {A} (l : list A) (body : A → Js unit) : Js unit :=
  match l with
  | [] => ret tt
  | x :: l' => body x >> for_of l' body
  end.

Definition fresh_id : Js nat :=
  λ w, (with_next_id (S (next_id w)) w, Normal (next_id w)).

Definition fresh_promise : Js nat :=
  λ w, (with_next_promise (S (next_promise w)) w, Normal (next_promise w)).

Definition record (c : EngineCall) : Js unit :=
  modify (λ w, with_log (log w ++ [c]) w).

(** JavaScript truthiness of the optional values the class tests. *)
Definition truthy_bool (b : option bool) : bool := default false b.
Definition truthy_string (s : option string) : bool :=
  match s with Some s => negb (String.eqb s "") | None => false end.

(** ** The engine: schema calls, available while an upgrade runs *)

Definition DOMException {A} (name : string) : Js A := throw (VDOMException name).

(** [db.objectStoreNames.contains(name)] *)
Definition objectStoreNames_contains (n : string) : Js bool :=
  gets (λ w, bool_decide (is_Some (stores (database w) !! n))).

(** [db.deleteObjectStore(name)] *)
Definition deleteObjectStore (n : string) : Js unit :=
  let! present := objectStoreNames_contains n in
  if present
  then record (CallDeleteObjectStore n) >>
       modify (λ w, with_stores (base.delete n (stores (database w))) w)
  else DOMException "NotFoundError".

Definition new_store (o : option StoreOptions) : IDBObjectStore :=
  {| os_keyPath := o ≫= keyPath;
     os_autoIncrement := truthy_bool (o ≫= autoIncrement);
     os_indexes := ∅;
     os_generator := 1;
     os_records := ∅ |}.

(** [db.createObjectStore(name, options)]; the result stands for the store
    object, which the class only uses to create indexes on it. *)
Definition createObjectStore (n : string) (o : option StoreOptions) : Js string :=
  let! present := objectStoreNames_contains n in
  if present
  then DOMException "ConstraintError"
  else record (CallCreateObjectStore n o) >>
       modify (λ w, with_stores (<[n := new_store o]> (stores (database w))) w) >>
       ret n.

Definition new_index (kp : string) (o : option IDBIndexParameters) : IDBIndex :=
  {| ix_keyPath := kp;
     ix_unique := truthy_bool (o ≫= unique);
     ix_multiEntry := truthy_bool (o ≫= multiEntry) |}.

Definition add_index (i : string) (x : IDBIndex) (s : IDBObjectStore) : IDBObjectStore :=
  {| os_keyPath := os_keyPath s;
     os_autoIncrement := os_autoIncrement s;
     os_indexes := <[i := x]> (os_indexes s);
     os_generator := os_generator s;
     os_records := os_records s |}.

(** [store.createIndex(name, keyPath, options)] *)
Definition createIndex (store : string) (i : string) (kp : string)
    (o : option IDBIndexParameters) : Js unit :=
  let! s := gets (λ w, stores (database w) !! store) in
  match s with
  | None => DOMException "InvalidStateError"
  | Some s =>
      match os_indexes s !! i with
      | Some _ => DOMException "ConstraintError"
      | None =>
          record (CallCreateIndex store i kp o) >>
          modify (λ w, with_stores
                         (<[store := add_index i (new_index kp o) s]> (stores (database w))) w)
      end
  end.

(** ** The engine: opening *)

Definition new_request : IDBOpenDBRequest :=
  {| result := None; error := None; onupgradeneeded := false;
     onsuccess := false; onblocked := false; onerror := false |}.

(** ["indexedDB" in window] *)
Definition indexedDB_in_window : Js bool := gets window_indexedDB.

(** [indexedDB.open(name, version)]: the engine refuses a version below 1
    on the spot; otherwise it hands out a request and answers later. *)
Definition indexedDB_open (n : string) (v : Z) : Js IDBOpenDBRequest :=
  if Z.ltb v 1 then throw VTypeError
  else record (CallOpen n v) >> ret new_request.

(** ** The class: construction and the four continuations *)

Definition set_this (h : WebDB) : Js unit := modify (with_this h).

Definition set_db (c : option nat) : Js unit :=
  modify (λ w, with_this
    {| name := name (this w); version := version (this w); setup := setup (this w);
       handlers := handlers (this w); databaseRequest := databaseRequest (this w);
       db := c |} w).

Definition set_databaseRequest (r : option IDBOpenDBRequest) : Js unit :=
  modify (λ w, with_this
    {| name := name (this w); version := version (this w); setup := setup (this w);
       handlers := handlers (this w); databaseRequest := r;
       db := db (this w) |} w).

(** Reading a property of [this.databaseRequest] or of [this.db] when the
    field holds nothing is a TypeError. *)
Definition the_databaseRequest : Js IDBOpenDBRequest :=
  let! r := gets (λ w, databaseRequest (this w)) in
  match r with Some r => ret r | None => throw VTypeError end.

Definition the_db : Js nat :=
  let! c := gets (λ w, db (this w)) in
  match c with Some c => ret c | None => throw VTypeError end.

Definition update_databaseRequest (f : IDBOpenDBRequest → IDBOpenDBRequest) : Js unit :=
  let! r := the_databaseRequest in
  set_databaseRequest (Some (f r)).

(** The body of the loop of [handleUpgradeNeeded], for one descriptor. *)
Definition upgrade_store (d : WebDBObjectStore) : Js unit :=
  let n := store_name d in
  (if truthy_bool (configs d ≫= recreate)
   then the_db >>
        let! present := objectStoreNames_contains n in
        if present then the_db >> deleteObjectStore n else ret tt
   else ret tt) >>
  the_db >>
  let! present := objectStoreNames_contains n in
  if negb present then
    the_db >>
    let! store := createObjectStore n (options d) in
    match configs d ≫= indexes with
    | Some ixs =>
        for_of ixs (λ idx,
          createIndex store (index_name idx) (index_keyPath idx) (index_options idx))
    | None => ret tt
    end
  else ret tt.

(** The closure assigned to [onupgradeneeded]. *)
Definition on_upgradeneeded : Js unit :=
  let! r := the_databaseRequest in
  set_db (result r) >>
  let! s := gets (λ w, setup (this w)) in
  match s ≫= objectStores with
  | Some l => for_of l upgrade_store
  | None => ret tt
  end.

Definition handleUpgradeNeeded : Js unit :=
  update_databaseRequest (λ r,
    {| result := result r; error := error r; onupgradeneeded := true;
       onsuccess := onsuccess r; onblocked := onblocked r; onerror := onerror r |}).

(** The closure assigned to [onsuccess]. *)
Definition on_success : Js unit :=
  let! r := the_databaseRequest in
  set_db (result r) >>
  let! h := gets (λ w, handlers (this w)) in
  if default false (onVersionChange <$> h) then
    let! c := the_db in
    modify (λ w, with_connections
      (alter (λ x, {| closed := closed x; onversionchange := true |}) c (connections w)) w)
  else ret tt.

Definition handleSuccess : Js unit :=
  update_databaseRequest (λ r,
    {| result := result r; error := error r; onupgradeneeded := onupgradeneeded r;
       onsuccess := true; onblocked := onblocked r; onerror := onerror r |}).

(** The closure assigned to [db.onversionchange]. *)
Definition on_versionchange (oldVersion : Z) (newVersion : option Z) : Js unit :=
  let! c := gets (λ w, db (this w)) in
  let! h := gets (λ w, handlers (this w)) in
  match c, h with
  | Some _, Some h =>
      if onVersionChange h then record (HookOnVersionChange oldVersion newVersion)
      else ret tt
  | _, _ => ret tt
  end.

(** The closure assigned to [onblocked]. *)
Definition on_blocked (oldVersion : Z) (newVersion : option Z) : Js unit :=
  let! h := gets (λ w, handlers (this w)) in
  if default false (onBlocked <$> h)
  then record (HookOnBlocked oldVersion newVersion)
  else ret tt.

Definition handleBlocked : Js unit :=
  let! h := gets (λ w, handlers (this w)) in
  if default false (onBlocked <$> h) then
    update_databaseRequest (λ r,
      {| result := result r; error := error r; onupgradeneeded := onupgradeneeded r;
         onsuccess := onsuccess r; onblocked := true; onerror := onerror r |})
  else ret tt.

(** The closure assigned to [onerror]. *)
Definition on_error : Js unit :=
  let! h := gets (λ w, handlers (this w)) in
  if default false (onError <$> h) then
    let! r := the_databaseRequest in
    record (HookOnError (error r))
  else ret tt.

Definition handleError : Js unit :=
  let! h := gets (λ w, handlers (this w)) in
  if default false (onError <$> h) then
    update_databaseRequest (λ r,
      {| result := result r; error := error r; onupgradeneeded := onupgradeneeded r;
         onsuccess := onsuccess r; onblocked := onblocked r; onerror := true |})
  else ret tt.

(** [new WebDB(name, version, setup, handlers)].  The parameter properties
    and the initialiser of [db] run before the body. *)
Definition constructor (n : string) (v : Z) (s : option WebDBSetupOptions)
    (h : option Handlers) : Js unit :=
  set_this {| name := n; version := v; setup := s; handlers := h;
              databaseRequest := None; db := None |} >>
  let! supported := indexedDB_in_window in
  if negb supported then throw (VError "No support for indexedDB!")
  else
    let! r := indexedDB_open n v in
    set_databaseRequest (Some r) >>
    handleUpgradeNeeded >>
    handleSuccess >>
    handleBlocked >>
    handleError.

(** ** Promises *)

(** A promise settles once: [resolve] and [reject] on a settled promise do
    nothing. *)
Definition settle (p : nat) (s : PromiseState) (w : World) : World :=
  match promises w !! p with
  | Some Pending => with_promises (<[p := s]> (promises w)) w
  | _ => w
  end.

Definition resolve (p : nat) (v : JsValue) : Js unit := modify (settle p (Fulfilled v)).
Definition reject (p : nat) (v : JsValue) : Js unit := modify (settle p (Rejected v)).

Definition new_pending : Js nat :=
  let! p := fresh_promise in
  modify (λ w, with_promises (<[p := Pending]> (promises w)) w) >>
  ret p.

(** [new Promise(executor)]: the executor runs at once; what it returns is
    dropped, and only an exception it throws on the spot rejects the
    promise. *)
Definition new_Promise (executor : nat → Js unit) : Js nat :=
  let! p := new_pending in
  λ w, match executor p w with
       | (w', Normal _) => (w', Normal p)
       | (w', Throw e) => (settle p (Rejected e) w', Normal p)
       | (w', Suspended) => (w', Suspended)
       end.

(** Calling an [async] function whose body ends without returning a
    promise: the call itself never throws; the body's exception rejects the
    promise of the call. *)
Definition async (body : Js JsValue) : Js nat :=
  let! p := new_pending in
  λ w, match body w with
       | (w', Normal v) => (settle p (Fulfilled v) w', Normal p)
       | (w', Throw e) => (settle p (Rejected e) w', Normal p)
       | (w', Suspended) => (w', Normal p)
       end.

(** Calling an [async] function whose body returns a promise [q]: the
    promise of the call adopts [q], that is, settles as [q] does; the model
    identifies the two. *)
Definition async_returning_promise (body : Js nat) : Js nat :=
  λ w, match body w with
       | (w', Normal q) => (w', Normal q)
       | (w', Throw e) => (let! p := new_pending in reject p e >> ret p) w'
       | (w', Suspended) => new_pending w'
       end.

(** [await p].  The continuation of a settled promise runs before the
    engine can deliver any event, so the model runs it in place; a pending
    promise parks the computation. *)
Definition await (p : nat) : Js JsValue :=
  let! s := gets (λ w, promises w !! p) in
  match s with
  | Some (Fulfilled v) => ret v
  | Some (Rejected e) => throw e
  | _ => λ w, (w, Suspended)
  end.

Definition as_transaction (v : JsValue) : Js nat :=
  match v with VTransaction t => ret t | _ => throw VTypeError end.

(** ** The engine: transactions and requests *)

Definition new_transaction (names : StoreNames) (mode : Mode) : IDBTransaction :=
  {| tx_scope := names_of names; tx_mode := mode; tx_error := None; tx_queue := [];
     tx_finished := false; tx_oncomplete := None; tx_onerror := None |}.

(** [db.transaction(storeNames, mode)] *)
Definition IDBDatabase_transaction (c : nat) (names : StoreNames) (mode : Mode) : Js nat :=
  let! conn := gets (λ w, connections w !! c) in
  let! ss := gets (λ w, stores (database w)) in
  if negb (default false (negb ∘ closed <$> conn)) then DOMException "InvalidStateError"
  else if negb (forallb (λ n, bool_decide (is_Some (ss !! n))) (names_of names))
  then DOMException "NotFoundError"
  else if bool_decide (names_of names = []) then DOMException "InvalidAccessError"
  else
    let! t := fresh_id in
    modify (λ w, with_transactions (<[t := new_transaction names mode]> (transactions w)) w) >>
    record (CallTransaction names mode t) >>
    ret t.

(** [transaction.objectStore(name)]: the store object is the pair of the
    transaction and the name. *)
Definition IDBTransaction_objectStore (t : nat) (n : string) : Js (nat * string) :=
  let! tx := gets (λ w, transactions w !! t) in
  match tx with
  | None => DOMException "InvalidStateError"
  | Some tx =>
      if tx_finished tx then DOMException "InvalidStateError"
      else if bool_decide (n ∈ tx_scope tx) then ret (t, n)
      else DOMException "NotFoundError"
  end.

(** [objectStore.index(name)] *)
Definition IDBObjectStore_index (os : nat * string) (i : string) : Js (nat * string * string) :=
  let! s := gets (λ w, stores (database w) !! os.2) in
  match s ≫= (λ s, os_indexes s !! i) with
  | Some _ => ret (os, i)
  | None => DOMException "NotFoundError"
  end.

Definition new_IDBRequest (t : nat) (op : RequestOp) : IDBRequest :=
  {| rq_transaction := t; rq_op := op; rq_result := VUndefined; rq_error := None;
     rq_onsuccess := None; rq_onerror := None |}.

Definition enqueue (r : nat) (tx : IDBTransaction) : IDBTransaction :=
  {| tx_scope := tx_scope tx; tx_mode := tx_mode tx; tx_error := tx_error tx;
     tx_queue := tx_queue tx ++ [r]; tx_finished := tx_finished tx;
     tx_oncomplete := tx_oncomplete tx; tx_onerror := tx_onerror tx |}.

(** Placing a request against a transaction: the engine hands out the
    request object and carries the operation out later. *)
Definition place (t : nat) (op : RequestOp) : Js nat :=
  let! tx := gets (λ w, transactions w !! t) in
  if negb (default false (negb ∘ tx_finished <$> tx))
  then DOMException "TransactionInactiveError"
  else
    let! r := fresh_id in
    modify (λ w, with_requests (<[r := new_IDBRequest t op]> (requests w)) w) >>
    modify (λ w, with_transactions (alter (enqueue r) t (transactions w)) w) >>
    record (CallRequest op t r) >>
    ret r.

(** Whether [add]/[put] can tell which key the record goes under: with a
    key path the key lives in the record (an explicit one is refused),
    without one it is the explicit key; a generator fills the gap. *)
Definition key_available (s : IDBObjectStore) (value : JsObject)
    (key : option IDBValidKey) : bool :=
  match os_keyPath s, key with
  | Some _, Some _ => false
  | Some kp, None => bool_decide (is_Some (field kp value)) || os_autoIncrement s
  | None, Some _ => true
  | None, None => os_autoIncrement s
  end.

Definition writable (t : nat) : Js unit :=
  let! tx := gets (λ w, transactions w !! t) in
  match tx_mode <$> tx with
  | Some readwrite => ret tt
  | _ => DOMException "ReadOnlyError"
  end.

Definition check_key (store : string) (value : JsObject) (key : option IDBValidKey) : Js unit :=
  let! s := gets (λ w, stores (database w) !! store) in
  if default false ((λ s, key_available s value key) <$> s) then ret tt
  else DOMException "DataError".

(** [objectStore.add(value, key)] and [objectStore.put(value, key)] *)
Definition IDBObjectStore_add (os : nat * string) (value : JsObject)
    (key : option IDBValidKey) : Js nat :=
  writable os.1 >> check_key os.2 value key >> place os.1 (OpAdd os.2 value key).

Definition IDBObjectStore_put (os : nat * string) (value : JsObject)
    (key : option IDBValidKey) : Js nat :=
  writable os.1 >> check_key os.2 value key >> place os.1 (OpPut os.2 value key).

(** [objectStore.delete(query)] and [objectStore.clear()] *)
Definition IDBObjectStore_delete (os : nat * string) (q : Query) : Js nat :=
  writable os.1 >> place os.1 (OpDelete os.2 q).

Definition IDBObjectStore_clear (os : nat * string) : Js nat :=
  writable os.1 >> place os.1 (OpClear os.2).

(** [objectStore.get(query)], [index.get(query)] and their [getAll] *)
Definition IDBObjectStore_get (os : nat * string) (q : Query) : Js nat :=
  place os.1 (OpGet os.2 None q).

Definition IDBIndex_get (ix : nat * string * string) (q : Query) : Js nat :=
  place ix.1.1 (OpGet ix.1.2 (Some ix.2) q).

Definition IDBObjectStore_getAll (os : nat * string) (q : option Query) : Js nat :=
  place os.1 (OpGetAll os.2 None q).

Definition IDBIndex_getAll (ix : nat * string * string) (q : option Query) : Js nat :=
  place ix.1.1 (OpGetAll ix.1.2 (Some ix.2) q).

(** Assigning the handler properties. *)
Definition set_onsuccess (r : nat) (a : Action) : Js unit :=
  modify (λ w, with_requests (alter (λ x,
    {| rq_transaction := rq_transaction x; rq_op := rq_op x; rq_result := rq_result x;
       rq_error := rq_error x; rq_onsuccess := Some a; rq_onerror := rq_onerror x |})
    r (requests w)) w).

Definition set_onerror (r : nat) (a : Action) : Js unit :=
  modify (λ w, with_requests (alter (λ x,
    {| rq_transaction := rq_transaction x; rq_op := rq_op x; rq_result := rq_result x;
       rq_error := rq_error x; rq_onsuccess := rq_onsuccess x; rq_onerror := Some a |})
    r (requests w)) w).

Definition set_oncomplete (t : nat) (a : Action) : Js unit :=
  modify (λ w, with_transactions (alter (λ x,
    {| tx_scope := tx_scope x; tx_mode := tx_mode x; tx_error := tx_error x;
       tx_queue := tx_queue x; tx_finished := tx_finished x;
       tx_oncomplete := Some a; tx_onerror := tx_onerror x |})
    t (transactions w)) w).

Definition set_tx_onerror (t : nat) (a : Action) : Js unit :=
  modify (λ w, with_transactions (alter (λ x,
    {| tx_scope := tx_scope x; tx_mode := tx_mode x; tx_error := tx_error x;
       tx_queue := tx_queue x; tx_finished := tx_finished x;
       tx_oncomplete := tx_oncomplete x; tx_onerror := Some a |})
    t (transactions w)) w).

(** ** The class: the operation methods *)

(** The two copies of the class in the repository.  They differ in the
    value the failure handlers reject with, and in [clear]. *)
Inductive Source := db_ts | part_000.

Definition transaction (storeNames : StoreNames) (mode : option Mode) : Js nat :=
  let mode := default readonly mode in
  new_Promise (λ p,
    let! c := gets (λ w, db (this w)) in
    let! transaction :=
      match c with
      | Some c => let! t := IDBDatabase_transaction c storeNames mode in ret (Some t)
      | None => ret None
      end in
    match transaction with
    | Some t => resolve p (VTransaction t)
    | None => reject p (VError "Couldn't resolve the transaction")
    end).

(** [await this.transaction(storeNames, mode)] *)
Definition await_transaction (storeNames : StoreNames) (mode : option Mode) : Js nat :=
  let! p := transaction storeNames mode in
  let! v := await p in
  as_transaction v.

Definition get (src : Source) (store : string) (query : Query)
    (index : option string) : Js nat :=
  async_returning_promise (
    let! transaction := await_transaction (Single store) None in
    let! objectStore := IDBTransaction_objectStore transaction store in
    let! idx :=
      if truthy_string index
      then let! i := IDBObjectStore_index objectStore (default "" index) in ret (Some i)
      else ret None in
    new_Promise (λ p,
      let! request :=
        match idx with
        | Some idx => IDBIndex_get idx query
        | None => IDBObjectStore_get objectStore query
        end in
      set_onsuccess request (Resolve p (RequestResult request)) >>
      set_onerror request
        (Reject p match src with
                  | db_ts => Const VUndefined
                  | part_000 => RequestError request
                  end))).

Definition getAll (src : Source) (store : string) (query : option Query)
    (index : option string) : Js nat :=
  async_returning_promise (
    let! transaction := await_transaction (Single store) None in
    let! objectStore := IDBTransaction_objectStore transaction store in
    let! idx :=
      if truthy_string index
      then let! i := IDBObjectStore_index objectStore (default "" index) in ret (Some i)
      else ret None in
    new_Promise (λ p,
      let! request :=
        match idx with
        | Some idx => IDBIndex_getAll idx query
        | None => IDBObjectStore_getAll objectStore query
        end in
      set_onsuccess request (Resolve p (RequestResult request)) >>
      set_onerror request
        (Reject p match src with
                  | db_ts => Const VUndefined
                  | part_000 => RequestError request
                  end))).

(** [add], [put], [delete] and the [clear] of [part_000] hand an [async]
    executor to [new Promise]: the executor's own promise is dropped. *)
Definition add (src : Source) (store : string) (data : JsObject)
    (key : option IDBValidKey) : Js nat :=
  async_returning_promise (
    new_Promise (λ p,
      let! _ := async (
        let! transaction := await_transaction (Single store) (Some readwrite) in
        let! objectStore := IDBTransaction_objectStore transaction store in
        let! k := IDBObjectStore_add objectStore data key in
        set_oncomplete transaction (Resolve p (RequestResult k)) >>
        set_tx_onerror transaction
          (Reject p match src with
                    | db_ts => Const (VBool false)
                    | part_000 => TransactionError transaction
                    end) >>
        ret VUndefined) in
      ret tt)).

Definition put (src : Source) (store : string) (data : JsObject)
    (key : option IDBValidKey) : Js nat :=
  async_returning_promise (
    new_Promise (λ p,
      let! _ := async (
        let! transaction := await_transaction (Single store) (Some readwrite) in
        let! objectStore := IDBTransaction_objectStore transaction store in
        let! k := IDBObjectStore_put objectStore data key in
        set_oncomplete transaction (Resolve p (RequestResult k)) >>
        set_tx_onerror transaction
          (Reject p match src with
                    | db_ts => Const (VBool false)
                    | part_000 => TransactionError transaction
                    end) >>
        ret VUndefined) in
      ret tt)).

(** The statements both copies of [clear] share: one [clear()] per name. *)
Definition clear_stores (transaction : nat) (storeNames : StoreNames) : Js unit :=
  match storeNames with
  | Several l =>
      for_of l (λ n,
        let! objectStore := IDBTransaction_objectStore transaction n in
        let! _ := IDBObjectStore_clear objectStore in
        ret tt)
  | Single s =>
      let! objectStore := IDBTransaction_objectStore transaction s in
      let! _ := IDBObjectStore_clear objectStore in
      ret tt
  end.

Definition clear (src : Source) (storeNames : StoreNames) : Js nat :=
  match src with
  | db_ts =>
      async (
        let! transaction := await_transaction storeNames (Some readwrite) in
        clear_stores transaction storeNames >>
        ret VUndefined)
  | part_000 =>
      async_returning_promise (
        new_Promise (λ p,
          let! _ := async (
            let! transaction := await_transaction storeNames (Some readwrite) in
            clear_stores transaction storeNames >>
            set_oncomplete transaction (Resolve p (Const (VBool true))) >>
            set_tx_onerror transaction (Reject p (TransactionError transaction)) >>
            ret VUndefined) in
          ret tt))
  end.

Definition delete (src : Source) (store : string) (query : Query) : Js nat :=
  async_returning_promise (
    new_Promise (λ p,
      let! _ := async (
        let! transaction := await_transaction (Single store) (Some readwrite) in
        let! objectStore := IDBTransaction_objectStore transaction store in
        let! request := IDBObjectStore_delete objectStore query in
        set_onsuccess request (Resolve p (Const (VBool true))) >>
        set_onerror request
          (Reject p match src with
                    | db_ts => Const (VBool false)
                    | part_000 => RequestError request
                    end) >>
        ret VUndefined) in
      ret tt)).

(** The operation methods as data, to quantify over them. *)
Inductive Operation :=
| Transaction (storeNames : StoreNames) (mode : option Mode)
| Get (store : string) (query : Query) (index : option string)
| GetAll (store : string) (query : option Query) (index : option string)
| Add (store : string) (data : JsObject) (key : option IDBValidKey)
| Put (store : string) (data : JsObject) (key : option IDBValidKey)
| Delete (store : string) (query : Query)
| Clear (storeNames : StoreNames).

Definition invoke (src : Source) (o : Operation) : Js nat :=
  match o with
  | Transaction n m => transaction n m
  | Get s q i => get src s q i
  | GetAll s q i => getAll src s q i
  | Add s d k => add src s d k
  | Put s d k => put src s d k
  | Delete s q => delete src s q
  | Clear n => clear src n
  end.

(** ** Events *)

(** What the engine can deliver.  A request's error event fires at the
    request and bubbles to its transaction; the engine aborts the
    transaction only after that, so [transaction.error] is still unset
    while the handlers run. *)
Inductive Event :=
| ev_success (r : nat) (v : JsValue)           (* request r: success, result v *)
| ev_error (r : nat) (e : string)              (* request r: error e *)
| ev_complete (t : nat)                        (* transaction t has committed *)
| ev_abort (t : nat) (e : option string)       (* transaction t was aborted *)
| ev_upgradeneeded                             (* open request: upgradeneeded *)
| ev_open_success                              (* open request: success *)
| ev_blocked (oldVersion : Z) (newVersion : option Z)
| ev_open_error (e : option string)
| ev_versionchange (c : nat) (oldVersion : Z) (newVersion : option Z).

Definition eval (v : ValueSource) (w : World) : JsValue :=
  match v with
  | Const v => v
  | RequestResult r => default VUndefined (rq_result <$> requests w !! r)
  | RequestError r => default VNull (VDOMException <$> (requests w !! r ≫= rq_error))
  | TransactionError t => default VNull (VDOMException <$> (transactions w !! t ≫= tx_error))
  end.

Definition run (a : option Action) (w : World) : World :=
  match a with
  | Some (Resolve p v) => settle p (Fulfilled (eval v w)) w
  | Some (Reject p v) => settle p (Rejected (eval v w)) w
  | None => w
  end.

Definition set_result (r : nat) (v : JsValue) (w : World) : World :=
  with_requests (alter (λ x,
    {| rq_transaction := rq_transaction x; rq_op := rq_op x; rq_result := v;
       rq_error := rq_error x; rq_onsuccess := rq_onsuccess x;
       rq_onerror := rq_onerror x |}) r (requests w)) w.

Definition set_error (r : nat) (e : string) (w : World) : World :=
  with_requests (alter (λ x,
    {| rq_transaction := rq_transaction x; rq_op := rq_op x; rq_result := rq_result x;
       rq_error := Some e; rq_onsuccess := rq_onsuccess x;
       rq_onerror := rq_onerror x |}) r (requests w)) w.

Definition finish (t : nat) (e : option string) (w : World) : World :=
  with_transactions (alter (λ x,
    {| tx_scope := tx_scope x; tx_mode := tx_mode x; tx_error := e;
       tx_queue := tx_queue x; tx_finished := true;
       tx_oncomplete := tx_oncomplete x; tx_onerror := tx_onerror x |})
    t (transactions w)) w.

(** The engine makes a connection and puts it in [request.result]. *)
Definition connect (r : IDBOpenDBRequest) (w : World) : World :=
  match result r with
  | Some _ => w
  | None =>
      let c := next_id w in
      fst (set_databaseRequest (Some
             {| result := Some c; error := error r; onupgradeneeded := onupgradeneeded r;
                onsuccess := onsuccess r; onblocked := onblocked r; onerror := onerror r |})
             (with_connections (<[c := {| closed := false; onversionchange := false |}]>
                                  (connections w))
                (with_next_id (S c) w)))
  end.

(** An upgrade whose handler threw is aborted: the stores are put back, the
    connection is closed and the request carries an AbortError. *)
Definition abort_upgrade (before : gmap string IDBObjectStore) (w : World) : World :=
  match databaseRequest (this w) with
  | None => w
  | Some r =>
      let w := with_stores before w in
      let w := with_connections
                 (from_option (λ c, alter (λ x, {| closed := true;
                                                   onversionchange := onversionchange x |}) c
                                      (connections w))
                    (connections w) (result r)) w in
      fst (set_databaseRequest (Some
             {| result := None; error := Some "AbortError";
                onupgradeneeded := onupgradeneeded r; onsuccess := onsuccess r;
                onblocked := onblocked r; onerror := onerror r |}) w)
  end.

Definition dispatch (ev : Event) (w : World) : World :=
  match ev with
  | ev_success r v =>
      let w := set_result r v w in
      run (requests w !! r ≫= rq_onsuccess) w
  | ev_error r e =>
      let w := set_error r e w in
      let w := run (requests w !! r ≫= rq_onerror) w in
      run ((requests w !! r ≫= (λ x, transactions w !! rq_transaction x)) ≫= tx_onerror) w
  | ev_complete t =>
      let w := finish t None w in
      run (transactions w !! t ≫= tx_oncomplete) w
  | ev_abort t e => finish t e w
  | ev_upgradeneeded =>
      match databaseRequest (this w) with
      | None => w
      | Some r =>
          let w1 := connect r w in
          if onupgradeneeded r then
            match on_upgradeneeded w1 with
            | (w2, Throw _) => abort_upgrade (stores (database w)) w2
            | (w2, _) => w2
            end
          else w1
      end
  | ev_open_success =>
      match databaseRequest (this w) with
      | None => w
      | Some r =>
          let w1 := connect r w in
          if onsuccess r then fst (on_success w1) else w1
      end
  | ev_blocked o n =>
      match databaseRequest (this w) with
      | None => w
      | Some r => if onblocked r then fst (on_blocked o n w) else w
      end
  | ev_open_error e =>
      match databaseRequest (this w) with
      | None => w
      | Some r =>
          let w1 := fst (set_databaseRequest (Some
                      {| result := result r; error := e;
                         onupgradeneeded := onupgradeneeded r; onsuccess := onsuccess r;
                         onblocked := onblocked r; onerror := onerror r |}) w) in
          if onerror r then fst (on_error w1) else w1
      end
  | ev_versionchange c o n =>
      if default false (onversionchange <$> connections w !! c)
      then fst (on_versionchange o n w)
      else w
  end.

Definition deliver (evs : list Event) (w : World) : World :=
  foldl (λ w ev, dispatch ev w) w evs.

(** The settlement of a promise, as a caller observes it. *)
Definition state (p : nat) (w : World) : PromiseState :=
  default Pending (promises w !! p).

(** ** The engine answering *)

(** The handshake after [indexedDB.open]: an upgrade when the requested
    version is above the stored one, then success; an error when it is
    below. *)
Definition set_stored_version (v : Z) (w : World) : World :=
  with_database {| stored_version := v; stores := stores (database w) |} w.

Definition engine_open (w : World) : World :=
  match databaseRequest (this w) with
  | None => w
  | Some _ =>
      let v := version (this w) in
      let s := stored_version (database w) in
      if Z.ltb v s then dispatch (ev_open_error (Some "VersionError")) w
      else if Z.ltb s v then
        let w1 := dispatch ev_upgradeneeded w in
        match databaseRequest (this w1) ≫= error with
        | Some e => dispatch (ev_open_error (Some e)) w1
        | None => dispatch ev_open_success (set_stored_version v w1)
        end
      else dispatch ev_open_success w
  end.

Fixpoint insert_sorted {A} (leb : A → A → bool) (x : A) (l : list A) : list A :=
  match l with
  | [] => [x]
  | y :: l' => if leb x y then x :: l else y :: insert_sorted leb x l'
  end.

Definition sorted_by {A} (leb : A → A → bool) (l : list A) : list A :=
  foldr (insert_sorted leb) [] l.

(** The records a read sees, in the order of the store's keys or of the
    index's keys (ties by primary key). *)
Definition entries (s : IDBObjectStore) (index : option string)
    : list (IDBValidKey * (IDBValidKey * JsObject)) :=
  let rows := map_to_list (os_records s) in
  match index with
  | None => sorted_by (λ a b, key_leb a.1 b.1) (map (λ kv, (kv.1, kv)) rows)
  | Some i =>
      match os_indexes s !! i with
      | None => []
      | Some ix =>
          sorted_by (λ a b, if key_eqb a.1 b.1 then key_leb a.2.1 b.2.1 else key_leb a.1 b.1)
            (omap (λ kv, (λ k, (k, kv)) <$> field (ix_keyPath ix) kv.2) rows)
      end
  end.

Definition read (s : IDBObjectStore) (index : option string) (q : option Query)
    : list JsObject :=
  map (λ e, e.2.2) (filter (λ e, matches q e.1 = true) (entries s index)).

Definition with_records (rs : gmap IDBValidKey JsObject) (g : Z) (s : IDBObjectStore)
    : IDBObjectStore :=
  {| os_keyPath := os_keyPath s; os_autoIncrement := os_autoIncrement s;
     os_indexes := os_indexes s; os_generator := g; os_records := rs |}.

(** The generator moves past an explicit numeric key. *)
Definition bump (s : IDBObjectStore) (k : IDBValidKey) : Z :=
  match k with
  | KNumber n => if os_autoIncrement s && Z.leb (os_generator s) n then n + 1
                 else os_generator s
  | KString _ => os_generator s
  end.

(** Storing a record: [add] refuses a key that is taken, [put] replaces. *)
Definition store_record (overwrite : bool) (s : IDBObjectStore) (value : JsObject)
    (key : option IDBValidKey) : IDBObjectStore * JsValue + string :=
  let '(k, value, g) :=
    match os_keyPath s with
    | Some kp =>
        match field kp value with
        | Some k => (k, value, bump s k)
        | None => (KNumber (os_generator s),
                   set_field kp (KNumber (os_generator s)) value, os_generator s + 1)
        end
    | None =>
        match key with
        | Some k => (k, value, bump s k)
        | None => (KNumber (os_generator s), value, os_generator s + 1)
        end
    end in
  if negb overwrite && bool_decide (is_Some (os_records s !! k))
  then inr "ConstraintError"
  else inl (with_records (<[k := value]> (os_records s)) g s, VKey k).

(** Carrying out one request on the stores. *)
Definition execute (op : RequestOp) (ss : gmap string IDBObjectStore)
    : gmap string IDBObjectStore * JsValue + string :=
  let on_store (n : string) (f : IDBObjectStore → IDBObjectStore * JsValue + string) :=
    match ss !! n with
    | None => inr "InvalidStateError"
    | Some s =>
        match f s with
        | inl (s', v) => inl (<[n := s']> ss, v)
        | inr e => inr e
        end
    end in
  match op with
  | OpGet n i q =>
      on_store n (λ s, inl (s, match read s i (Some q) with
                               | o :: _ => VObject o
                               | [] => VUndefined
                               end))
  | OpGetAll n i q => on_store n (λ s, inl (s, VArray (read s i q)))
  | OpAdd n v k => on_store n (λ s, store_record false s v k)
  | OpPut n v k => on_store n (λ s, store_record true s v k)
  | OpDelete n q =>
      on_store n (λ s,
        inl (with_records (filter (λ kv, matches (Some q) kv.1 = false) (os_records s))
               (os_generator s) s, VUndefined))
  | OpClear n => on_store n (λ s, inl (with_records ∅ (os_generator s) s, VUndefined))
  end.

(** The engine carrying out a transaction's requests in order.  A failed
    request fires its error event, then the transaction is aborted and its
    changes are undone; otherwise the transaction commits. *)
Fixpoint process (rs : list nat) (before : gmap string IDBObjectStore) (t : nat)
    (w : World) : World :=
  match rs with
  | [] => dispatch (ev_complete t) w
  | r :: rs' =>
      match requests w !! r with
      | None => process rs' before t w
      | Some rq =>
          match execute (rq_op rq) (stores (database w)) with
          | inl (ss, v) => process rs' before t (dispatch (ev_success r v) (with_stores ss w))
          | inr e =>
              dispatch (ev_abort t (Some e)) (with_stores before (dispatch (ev_error r e) w))
          end
      end
  end.

Definition engine_run (t : nat) (w : World) : World :=
  match transactions w !! t with
  | None => w
  | Some tx =>
      if tx_finished tx then w
      else process (tx_queue tx) (stores (database w)) t w
  end.

(** A page that has just loaded, over whatever the engine has stored. *)
Definition page (supported : bool) (d : Database) : World :=
  {| window_indexedDB := supported;
     this := {| name := ""; version := 0; setup := None; handlers := None;
                databaseRequest := None; db := None |};
     database := d; connections := ∅; transactions := ∅; requests := ∅;
     promises := ∅; next_id := 0; next_promise := 0; log := [] |}.

Definition no_database : Database := {| stored_version := 0; stores := ∅ |}.

(** Running a method to the end of the current task. *)
Definition call {A} (m : Js A) (w : World) : World := fst (m w).
Definition returned {A} (m : Js A) (w : World) : Completion A := snd (m w).

(** ** Vocabulary for the statements *)

(** What a descriptor declares. *)
Definition declared_indexes (d : WebDBObjectStore) : list WebDBObjectStoreIndex :=
  default [] (configs d ≫= indexes).



(** The store the engine holds after [createObjectStore] with the
    descriptor's options and one [createIndex] per declared index. *)
Definition with_declared_indexes (ixs : list WebDBObjectStoreIndex) (s : IDBObjectStore)
    : IDBObjectStore :=
  foldl (λ s idx, add_index (index_name idx)
                    (new_index (index_keyPath idx) (index_options idx)) s) s ixs.

Definition declared_store (d : WebDBObjectStore) : IDBObjectStore :=
  with_declared_indexes (declared_indexes d) (new_store (options d)).



Definition has_store (n : string) (w : World) : bool :=
  bool_decide (is_Some (stores (database w) !! n)).










(** The promise a handler settles. *)
Definition action_promise (a : Action) : nat :=
  match a with Resolve p _ => p | Reject p _ => p end.

Definition handler_below (n : nat) (a : option Action) : Prop :=
  ∀ x, a = Some x → (action_promise x < n)%nat.

(** In a world that arose from running the class, handlers only mention
    promises that exist. *)
Definition well_formed (w : World) : Prop :=
  map_Forall (λ _ rq, handler_below (next_promise w) (rq_onsuccess rq)
                      ∧ handler_below (next_promise w) (rq_onerror rq)
                      ∧ (rq_transaction rq < next_id w)%nat) (requests w)
  ∧ map_Forall (λ _ tx, handler_below (next_promise w) (tx_oncomplete tx)
                        ∧ handler_below (next_promise w) (tx_onerror tx)) (transactions w).

(** The world once a promise has been created, and once [this.transaction]
    has handed out a transaction (its own promise is fulfilled with it). *)
Definition with_pending (w : World) : World :=
  with_promises (<[next_promise w := Pending]> (promises w))
    (with_next_promise (S (next_promise w)) w).

Definition acquired (names : StoreNames) (mode : Mode) (w : World) : World :=
  with_promises (<[next_promise w := Fulfilled (VTransaction (next_id w))]> (promises w))
    (with_next_promise (S (next_promise w))
       (with_log (log w ++ [CallTransaction names mode (next_id w)])
          (with_transactions (<[next_id w := new_transaction names mode]> (transactions w))
             (with_next_id (S (next_id w)) w)))).

(** The error [transaction] rejects with when no connection is attached. *)
Definition unresolved : JsValue := VError "Couldn't resolve the transaction".

(** The methods that await the transaction inside an [async] executor
    handed to [new Promise]. *)
Definition awaits_in_executor (src : Source) (o : Operation) : bool :=
  match o with
  | Add _ _ _ | Put _ _ _ | Delete _ _ => true
  | Clear _ => match src with part_000 => true | db_ts => false end
  | Transaction _ _ | Get _ _ _ | GetAll _ _ _ => false
  end.

(** The index a read goes through: an absent or empty name means none. *)
Definition index_used (index : option string) : option string :=
  if truthy_string index then index else None.

(** All the named stores exist. *)
Definition stores_exist (names : list string) (w : World) : bool :=
  forallb (λ n, bool_decide (is_Some (stores (database w) !! n))) names.

(** An open connection is attached to the handle. *)
Definition attached (w : World) : Prop :=
  ∃ c conn, db (this w) = Some c ∧ connections w !! c = Some conn ∧ closed conn = false.

(** Frames: a computation preserves a relation between the world it starts
    in and the world it leaves, however it completes. *)
Definition preserves {A} (R : World → World → Prop) (m : Js A) : Prop :=
  ∀ w, R w (fst (m w)).

(** The handle and the connection objects are the same. *)
Definition same_handle (w w' : World) : Prop :=
  this w' = this w ∧ connections w' = connections w.

(** The requests, transactions and promises are the same. *)
Definition same_heap (w w' : World) : Prop :=
  requests w' = requests w ∧ transactions w' = transactions w
  ∧ promises w' = promises w ∧ next_promise w' = next_promise w.

(** The events of requests and transactions, as opposed to those of the
    open handshake and of the connection. *)
Definition request_event (ev : Event) : bool :=
  match ev with
  | ev_success _ _ | ev_error _ _ | ev_complete _ | ev_abort _ _ => true
  | _ => false
  end.

(** How a handler settles the promise it mentions. *)
Definition settles (a : Action) (s : PromiseState) : Prop :=
  match a with
  | Resolve _ v => ∃ w, s = Fulfilled (eval v w)
  | Reject _ v => ∃ w, s = Rejected (eval v w)
  end.

(** The handlers an event runs, in the order it runs them. *)
Definition fired (ev : Event) (w : World) : list Action :=
  match ev with
  | ev_success r _ => option_list (requests w !! r ≫= rq_onsuccess)
  | ev_error r _ =>
      option_list (requests w !! r ≫= rq_onerror)
      ++ option_list ((requests w !! r ≫= (λ x, transactions w !! rq_transaction x))
                        ≫= tx_onerror)
  | ev_complete t => option_list (transactions w !! t ≫= tx_oncomplete)
  | _ => []
  end.

(** Which handler sits in which slot, and which transaction a request
    belongs to: what event delivery never changes. *)
Definition wiring (w : World)
    : gmap nat (nat * option Action * option Action)
      * gmap nat (option Action * option Action) :=
  ((λ rq, (rq_transaction rq, rq_onsuccess rq, rq_onerror rq)) <$> requests w,
   (λ tx, (tx_oncomplete tx, tx_onerror tx)) <$> transactions w).

(** The value the failure handler of [add], [put] and [clear] rejects with
    when a request's error event reaches the transaction: [false] in
    [db.ts]; in [part_000], [transaction.error], which the engine has not
    set yet at that point. *)
Definition transaction_failure (src : Source) : JsValue :=
  match src with db_ts => VBool false | part_000 => VNull end.


(** The value the failure handler of [get], [getAll] and [delete] rejects
    with when the request fires its error event with the error [e]. *)
Definition request_failure (src : Source) (sentinel : JsValue) (e : string) : JsValue :=
  match src with db_ts => sentinel | part_000 => VDOMException e end.

(** Why [this.transaction] cannot hand out a transaction, if it cannot:
    no connection attached, a closed connection, a store that does not
    exist, or no store named. *)
Definition acquire_error (names : StoreNames) (w : World) : option JsValue :=
  match db (this w) with
  | None => Some unresolved
  | Some c =>
      if negb (default false (negb ∘ closed <$> connections w !! c))
      then Some (VDOMException "InvalidStateError")
      else if negb (stores_exist (names_of names) w)
      then Some (VDOMException "NotFoundError")
      else if bool_decide (names_of names = [])
      then Some (VDOMException "InvalidAccessError")
      else None
  end.

(** The world once [this.transaction] has failed with [e]: its promise is
    rejected with [e]. *)
Definition refused (e : JsValue) (w : World) : World :=
  with_promises (<[next_promise w := Rejected e]> (promises w))
    (with_next_promise (S (next_promise w)) w).

(** The world once the engine has accepted a request against [t]. *)
Definition place_world (t : nat) (op : RequestOp) (w : World) : World :=
  with_log (log w ++ [CallRequest op t (next_id w)])
    (with_transactions (alter (enqueue (next_id w)) t (transactions w))
       (with_requests (<[next_id w := new_IDBRequest t op]> (requests w))
          (with_next_id (S (next_id w)) w))).

Definition placed (t : nat) (ops : list RequestOp) (w : World) : World :=
  foldl (λ w op, place_world t op w) w ops.

(** Two worlds in which the engine has been asked the same things: the
    same calls in the same order, the same requests, the same queues on the
    same transactions, over the same stored data. *)
Definition same_clears (w1 w2 : World) : Prop :=
  log w1 = log w2
  ∧ requests w1 = requests w2
  ∧ (λ tx, (tx_scope tx, tx_mode tx, tx_queue tx, tx_finished tx)) <$> transactions w1
    = (λ tx, (tx_scope tx, tx_mode tx, tx_queue tx, tx_finished tx)) <$> transactions w2
  ∧ database w1 = database w2
  ∧ this w1 = this w2
  ∧ connections w1 = connections w2.

(** What carrying out the requests [rs] in order leaves in the stores: a
    failed request puts back the stores as they were [before]. *)
Fixpoint stores_after (rs : list nat) (ops : nat → option RequestOp)
    (before ss : gmap string IDBObjectStore) : gmap string IDBObjectStore :=
  match rs with
  | [] => ss
  | r :: rs' =>
      match ops r with
      | None => stores_after rs' ops before ss
      | Some op =>
          match execute op ss with
          | inl (ss', _) => stores_after rs' ops before ss'
          | inr _ => before
          end
      end
  end.

(** Everything in a world but its promises. *)
Definition engine_view (w : World) :=
  (log w, requests w, transactions w, database w, this w, connections w, next_id w).

(** The handlers the [clear] of [part_000] puts on its transaction. *)
Definition clear_wired (p t : nat) (w : World) : World :=
  fst (set_tx_onerror t (Reject p (TransactionError t))
         (fst (set_oncomplete t (Resolve p (Const (VBool true))) w))).

(** The stores an operation asks its transaction for. *)
Definition operation_stores (o : Operation) : StoreNames :=
  match o with
  | Transaction n _ | Clear n => n
  | Get s _ _ | GetAll s _ _ | Add s _ _ | Put s _ _ | Delete s _ => Single s
  end.

(** What [get] makes of the records a read finds: the first one, or
    [undefined]. *)
Definition first_found (l : list JsObject) : JsValue :=
  match l with o :: _ => VObject o | [] => VUndefined end.

(** The contract of a read method [m] that places the request [op]: the
    promise it returns is pending until the request fires [success], which
    fulfils it with the request's result; it is fulfilled only after a
    success event of the request and rejected only after an error event of
    it.  Run against the engine, the promise is fulfilled with [v] and the
    stored data is as before. *)
Definition read_contract (m : Js nat) (store : string) (op : RequestOp) (v : JsValue)
    (w : World) : Prop :=
  ∃ p t k,
    returned m w = Normal p
    ∧ log (call m w) = log w ++ [CallTransaction (Single store) readonly t;
                                 CallRequest op t k]
    ∧ state p (call m w) = Pending
    ∧ (∀ r, state p (dispatch (ev_success k r) (call m w)) = Fulfilled r)
    ∧ (∀ evs r, state p (deliver evs (call m w)) = Fulfilled r → ∃ r', ev_success k r' ∈ evs)
    ∧ (∀ evs r, state p (deliver evs (call m w)) = Rejected r → ∃ e, ev_error k e ∈ evs)
    ∧ state p (engine_run t (call m w)) = Fulfilled v
    ∧ database (engine_run t (call m w)) = database w.

(** A method call followed by the engine carrying out the transaction the
    call made: the transaction is the first object the engine hands out
    during the call. *)
Definition carried_out (m : Js nat) (w : World) : World :=
  engine_run (next_id w) (call m w).

(** The state the promise of the call is in after that. *)
Definition outcome (m : Js nat) (w : World) : option PromiseState :=
  match returned m w with
  | Normal p => Some (state p (carried_out m w))
  | _ => None
  end.

(** A store once cleared: no records; key path, auto-increment flag,
    indexes and key generator as they were. *)
Definition emptied (s : IDBObjectStore) : IDBObjectStore :=
  with_records ∅ (os_generator s) s.

Definition cleared (names : list string) (ss : gmap string IDBObjectStore)
    : gmap string IDBObjectStore :=
  foldl (λ ss n, alter emptied n ss) ss names.

(** ** Sample inputs *)

Definition items : WebDBObjectStore :=
  {| store_name := "items";
     options := Some {| keyPath := Some "id"; autoIncrement := Some true |};
     configs := Some {| recreate := None;
                        indexes := Some [ {| index_name := "byColor";
                                             index_keyPath := "color";
                                             index_options := None |} ] |} |}.

Definition shop : WebDBSetupOptions := {| objectStores := Some [items] |}.

(** A handle that has just been constructed: the engine has not answered. *)
Definition constructed : World :=
  call (constructor "shop" 1 (Some shop) None) (page true no_database).

(** The same handle once the handshake is over. *)
Definition opened : World := engine_open constructed.


(** The shop after one red item was added and the engine committed. *)
Definition red_item : JsObject := [("color", KString "red")].

Definition stocked : World := carried_out (add db_ts "items" red_item None) opened.

Definition stocked_items : IDBObjectStore :=
  with_records {[ KNumber 1 := [("id", KNumber 1); ("color", KString "red")] ]} 2
    (declared_store items).



(** ** Reasoning about runs *)

Ltac js_unfold :=
  cbv [add put delete get getAll clear clear_stores transaction await_transaction invoke
       async async_returning_promise new_Promise new_pending await as_transaction
       resolve reject fresh_id fresh_promise record DOMException
       IDBDatabase_transaction IDBTransaction_objectStore IDBObjectStore_index
       IDBObjectStore_add IDBObjectStore_put IDBObjectStore_delete IDBObjectStore_clear
       IDBObjectStore_get IDBIndex_get IDBObjectStore_getAll IDBIndex_getAll
       place writable check_key set_onsuccess set_onerror set_oncomplete set_tx_onerror
       constructor indexedDB_in_window indexedDB_open set_this set_db set_databaseRequest
       the_databaseRequest the_db update_databaseRequest
       handleUpgradeNeeded handleSuccess handleBlocked handleError
       on_upgradeneeded on_success on_blocked on_error on_versionchange
       upgrade_store objectStoreNames_contains deleteObjectStore createObjectStore
       createIndex
       bind ret throw gets modify call returned].

Ltac js_lookup :=
  repeat first
    [ rewrite lookup_insert_eq
    | rewrite lookup_alter_eq
    | rewrite lookup_insert_ne by lia
    | rewrite lookup_alter_ne by lia ].

Ltac js_simpl := repeat (progress (cbn; unfold settle; cbn; js_lookup)).

Lemma world_eta (w : World) :
  {| window_indexedDB := window_indexedDB w; this := this w; database := database w;
     connections := connections w; transactions := transactions w;
     requests := requests w; promises := promises w; next_id := next_id w;
     next_promise := next_promise w; log := log w |} = w.
Proof. destruct w; reflexivity. Qed.

Lemma database_eta (d : Database) :
  {| stored_version := stored_version d; stores := stores d |} = d.
Proof. destruct d; reflexivity. Qed.

(** *** Construction *)

(** C8.  When ["indexedDB" in window] is false the constructor throws on
    the spot: it completes with the exception [Error("No support for
    indexedDB!")], no call to the engine is made, the handle holds no open
    request (so no handler is wired anywhere) and no connection. *)
Theorem constructor_without_indexedDB (w : World) (n : string) (v : Z)
    (s : option WebDBSetupOptions) (h : option Handlers) :
  window_indexedDB w = false →
  returned (constructor n v s h) w = Throw (VError "No support for indexedDB!")
  ∧ log (call (constructor n v s h) w) = log w
  ∧ databaseRequest (this (call (constructor n v s h) w)) = None
  ∧ db (this (call (constructor n v s h) w)) = None.
Proof.
  intros Hw. js_unfold. cbn. rewrite Hw. cbn. auto.
Qed.

Lemma constructor_without_indexedDB_witness :
  window_indexedDB (page false no_database) = false
  ∧ returned (constructor "shop" 1 (Some shop) None) (page false no_database)
    = Throw (VError "No support for indexedDB!").
Proof.
  split; [reflexivity|].
  apply (constructor_without_indexedDB (page false no_database) "shop" 1 (Some shop) None).
  reflexivity.
Defined.

(** With support and a version of at least 1, construction opens the
    database and wires the two unconditional continuations. *)
Lemma constructor_with_indexedDB (w : World) (n : string) (v : Z)
    (s : option WebDBSetupOptions) (h : option Handlers) :
  window_indexedDB w = true → (1 ≤ v)%Z →
  returned (constructor n v s h) w = Normal tt
  ∧ log (call (constructor n v s h) w) = log w ++ [CallOpen n v]
  ∧ ∃ r, databaseRequest (this (call (constructor n v s h) w)) = Some r
         ∧ onupgradeneeded r = true ∧ onsuccess r = true
         ∧ onblocked r = default false (onBlocked <$> h)
         ∧ onerror r = default false (onError <$> h)
         ∧ result r = None.
Proof.
  intros Hw Hv. js_unfold. cbn. rewrite Hw. cbn.
  destruct (Z.ltb_spec v 1) as [?|_]; [lia|]. cbn.
  destruct h as [[b ? e]|]; cbn; [destruct b, e|]; cbn; eauto 10.
Qed.

(** *** The upgrade step *)

Lemma bind_run {A B} (m : Js A) (k : A → Js B) (w w' : World) (a : A) :
  m w = (w', Normal a) → bind m k w = k a w'.
Proof. intros H. unfold bind. rewrite H. reflexivity. Qed.

Lemma bind_throw {A B} (m : Js A) (k : A → Js B) (w w' : World) (e : JsValue) :
  m w = (w', Throw e) → bind m k w = (w', Throw e).
Proof. intros H. unfold bind. rewrite H. reflexivity. Qed.



Lemma has_store_insert (w : World) (n : string) (s : IDBObjectStore) (l : list EngineCall)
    (m : gmap string IDBObjectStore) :
  has_store n (with_log l (with_stores (<[n := s]> m) w)) = true.
Proof. unfold has_store. cbn. rewrite lookup_insert_eq. apply bool_decide_eq_true. eauto. Qed.
















(** *** The upgrade step as a function of the stores *)

















(** *** Frames *)

Section Frames.
Context (R : World → World → Prop).
Context (R_refl : ∀ w, R w w).
Context (R_trans : ∀ w1 w2 w3, R w1 w2 → R w2 w3 → R w1 w3).

Lemma preserves_ret {A} (a : A) : preserves R (ret a).
Proof. intros w. apply R_refl. Qed.

Lemma preserves_throw {A} (e : JsValue) : preserves R (@throw A e).
Proof. intros w. apply R_refl. Qed.

Lemma preserves_gets {A} (f : World → A) : preserves R (gets f).
Proof. intros w. apply R_refl. Qed.

Lemma preserves_suspend {A} : preserves R (λ w, (w, @Suspended A)).
Proof. intros w. apply R_refl. Qed.

Lemma preserves_modify (f : World → World) : (∀ w, R w (f w)) → preserves R (modify f).
Proof. intros Hf w. apply Hf. Qed.

Lemma preserves_bind {A B} (m : Js A) (k : A → Js B) :
  preserves R m → (∀ a, preserves R (k a)) → preserves R (bind m k).
Proof.
  intros Hm Hk w. unfold bind. specialize (Hm w).
  destruct (m w) as [w' [a| |]]; cbn in *; [|assumption..].
  eapply R_trans; [exact Hm|apply Hk].
Qed.

Lemma preserves_for_of {A} (l : list A) (body : A → Js unit) :
  (∀ x, preserves R (body x)) → preserves R (for_of l body).
Proof.
  intros Hbody. induction l as [|x l IH]; cbn [for_of].
  - apply preserves_ret.
  - apply preserves_bind; [apply Hbody|intros _; exact IH].
Qed.

(** The promise combinators, given that settling and allocating a promise
    are in the relation. *)
Context (R_settle : ∀ p s w, R w (settle p s w)).
Context (R_pending : preserves R new_pending).

Lemma preserves_new_Promise (executor : nat → Js unit) :
  (∀ p, preserves R (executor p)) → preserves R (new_Promise executor).
Proof.
  intros He. unfold new_Promise. apply preserves_bind; [exact R_pending|].
  intros p w. specialize (He p w).
  destruct (executor p w) as [w' [[]| |]]; cbn in *; try assumption.
  eapply R_trans; [exact He|apply R_settle].
Qed.

Lemma preserves_async (body : Js JsValue) :
  preserves R body → preserves R (async body).
Proof.
  intros Hb. unfold async. apply preserves_bind; [exact R_pending|].
  intros p w. specialize (Hb w).
  destruct (body w) as [w' [v| |]]; cbn in *; try assumption;
    (eapply R_trans; [exact Hb|apply R_settle]).
Qed.

Lemma preserves_async_returning_promise (body : Js nat) :
  preserves R body → preserves R (async_returning_promise body).
Proof.
  intros Hb w. unfold async_returning_promise. specialize (Hb w).
  destruct (body w) as [w' [q|e|]]; cbn in *; try assumption.
  - eapply R_trans; [exact Hb|].
    apply (preserves_bind new_pending (λ p, reject p e >> ret p)); [exact R_pending|].
    intros p. apply preserves_bind; [|intros; apply preserves_ret].
    apply preserves_modify. intros; apply R_settle.
  - eapply R_trans; [exact Hb|apply R_pending].
Qed.

Lemma preserves_await (p : nat) : preserves R (await p).
Proof.
  unfold await. apply preserves_bind; [apply preserves_gets|].
  intros [[]|]; first [apply preserves_ret | apply preserves_throw | apply preserves_suspend].
Qed.
End Frames.

Ltac frame_step :=
  lazymatch goal with
  | |- preserves _ (ret _) => apply preserves_ret; assumption
  | |- preserves _ (throw _) => apply preserves_throw; assumption
  | |- preserves _ (gets _) => apply preserves_gets; assumption
  | |- preserves _ (await _) => apply preserves_await; assumption
  | |- preserves _ (for_of _ _) => apply preserves_for_of; [assumption..|]
  | |- preserves _ (new_Promise _) => apply preserves_new_Promise; [assumption..|]
  | |- preserves _ (async _) => apply preserves_async; [assumption..|]
  | |- preserves _ (async_returning_promise _) =>
      apply preserves_async_returning_promise; [assumption..|]
  | |- preserves _ (modify _) => apply preserves_modify
  | |- preserves _ (bind _ _) => apply preserves_bind; [assumption..| |]
  | |- preserves _ (match ?x with _ => _ end) => destruct x
  | |- preserves _ new_pending => assumption
  | |- preserves _ fresh_id => assumption
  | |- ∀ _, _ => intro
  end.

Ltac frame_unfold :=
  cbv [invoke add put delete get getAll clear clear_stores transaction await_transaction
       as_transaction resolve reject record DOMException
       IDBDatabase_transaction IDBTransaction_objectStore IDBObjectStore_index
       IDBObjectStore_add IDBObjectStore_put IDBObjectStore_delete IDBObjectStore_clear
       IDBObjectStore_get IDBIndex_get IDBObjectStore_getAll IDBIndex_getAll
       place writable check_key set_onsuccess set_onerror set_oncomplete set_tx_onerror
       set_this set_db set_databaseRequest the_databaseRequest the_db
       update_databaseRequest on_upgradeneeded on_success on_blocked on_error
       on_versionchange upgrade_store objectStoreNames_contains deleteObjectStore
       createObjectStore createIndex].

Lemma same_handle_refl (w : World) : same_handle w w.
Proof. done. Qed.

Lemma same_handle_trans (w1 w2 w3 : World) :
  same_handle w1 w2 → same_handle w2 w3 → same_handle w1 w3.
Proof. intros [? ?] [? ?]. split; congruence. Qed.

Lemma same_handle_settle (p : nat) (s : PromiseState) (w : World) :
  same_handle w (settle p s w).
Proof. unfold settle. destruct (promises w !! p) as [[]|]; done. Qed.

Lemma same_handle_pending : preserves same_handle new_pending.
Proof. intros w. done. Qed.

Lemma same_handle_fresh_id : preserves same_handle fresh_id.
Proof. intros w. done. Qed.

(** No operation method touches the handle or a connection object. *)
Lemma invoke_same_handle (src : Source) (o : Operation) :
  preserves same_handle (invoke src o).
Proof.
  pose proof same_handle_refl. pose proof same_handle_trans.
  pose proof same_handle_settle. pose proof same_handle_pending.
  pose proof same_handle_fresh_id.
  destruct o, src; frame_unfold;
    repeat frame_step; done.
Qed.

Lemma run_same_handle (a : option Action) (w : World) : same_handle w (run a w).
Proof. destruct a as [[]|]; cbn; [apply same_handle_settle..|done]. Qed.

Lemma request_event_same_handle (ev : Event) (w : World) :
  request_event ev = true → same_handle w (dispatch ev w).
Proof.
  destruct ev; try discriminate; intros _; cbn [dispatch].
  - eapply same_handle_trans; [|apply run_same_handle]. done.
  - eapply same_handle_trans; [|apply run_same_handle].
    eapply same_handle_trans; [|apply run_same_handle]. done.
  - eapply same_handle_trans; [|apply run_same_handle]. done.
  - done.
Qed.

Lemma request_events_same_handle (evs : list Event) :
  ∀ w, forallb request_event evs = true → same_handle w (deliver evs w).
Proof.
  induction evs as [|ev evs IH]; intros w Hevs; [done|].
  cbn in Hevs. apply andb_true_iff in Hevs as [Hev Hevs].
  eapply same_handle_trans; [apply (request_event_same_handle ev w Hev)|].
  apply IH, Hevs.
Qed.

(** Of all events, only the two of the open handshake whose continuations
    assign [this.db] can change that field. *)
Lemma db_assigned_by_handshake (ev : Event) (w : World) :
  db (this (dispatch ev w)) ≠ db (this w) →
  ev = ev_upgradeneeded ∨ ev = ev_open_success.
Proof.
  intros Hne. destruct ev; auto; exfalso; apply Hne.
  - apply f_equal, (request_event_same_handle (ev_success r v) w); done.
  - apply f_equal, (request_event_same_handle (ev_error r e) w); done.
  - apply f_equal, (request_event_same_handle (ev_complete t) w); done.
  - reflexivity.
  - cbn. destruct (databaseRequest (this w)) as [r|]; [|done].
    destruct (onblocked r); [|done].
    unfold on_blocked, bind, gets, record, modify.
    destruct (default false (onBlocked <$> handlers (this w))); done.
  - cbn. destruct (databaseRequest (this w)) as [r|]; [|done].
    destruct (onerror r); [|done].
    js_unfold. cbn.
    destruct (default false (onError <$> handlers (this w))); done.
  - cbn. destruct (default false (onversionchange <$> connections w !! c)); [|done].
    unfold on_versionchange, bind, gets, record, modify. cbn.
    repeat case_match; done.
Qed.

(** C9.  No operation method changes a field of the handle ([name],
    [version], [setup], [handlers], [databaseRequest], [db]) or a connection
    object, however it completes; the events of requests and transactions,
    which settle the promises, do not either; and of all events only
    [upgradeneeded] and [success] of the open request, whose continuations
    assign [this.db], can change that field. *)
Theorem operations_leave_handle (src : Source) (o : Operation) (w : World) :
  same_handle w (call (invoke src o) w)
  ∧ (∀ evs, forallb request_event evs = true →
            same_handle w (deliver evs (call (invoke src o) w)))
  ∧ (∀ ev w0, db (this (dispatch ev w0)) ≠ db (this w0) →
              ev = ev_upgradeneeded ∨ ev = ev_open_success).
Proof.
  split; [apply invoke_same_handle|].
  split; [|intros ev w0; apply db_assigned_by_handshake].
  intros evs Hevs. eapply same_handle_trans; [apply invoke_same_handle|].
  apply request_events_same_handle, Hevs.
Qed.

(** *** Settlement *)

Lemma same_heap_refl (w : World) : same_heap w w.
Proof. done. Qed.

Lemma same_heap_trans (w1 w2 w3 : World) :
  same_heap w1 w2 → same_heap w2 w3 → same_heap w1 w3.
Proof. intros (? & ? & ? & ?) (? & ? & ? & ?). repeat split; congruence. Qed.

(** The continuations of the open handshake work on the handle, the
    connection and the schema only. *)
Lemma handshake_same_heap :
  preserves same_heap on_upgradeneeded ∧ preserves same_heap on_success
  ∧ preserves same_heap on_error
  ∧ (∀ o n, preserves same_heap (on_blocked o n))
  ∧ (∀ o n, preserves same_heap (on_versionchange o n)).
Proof.
  pose proof same_heap_refl. pose proof same_heap_trans.
  split; [|split; [|split; [|split]]]; intros; frame_unfold; repeat frame_step; done.
Qed.

Lemma handshake_event_same_heap (ev : Event) (w : World) :
  request_event ev = false → same_heap w (dispatch ev w).
Proof.
  destruct handshake_same_heap as (Hup & Hsucc & Herr & Hbl & Hvc).
  assert (Hconnect : ∀ r w0, same_heap w0 (connect r w0)).
  { intros r w0. unfold connect. destruct (result r); done. }
  assert (Habort : ∀ ss w0, same_heap w0 (abort_upgrade ss w0)).
  { intros ss w0. unfold abort_upgrade. destruct (databaseRequest (this w0)); done. }
  destruct ev; try discriminate; intros _; cbn [dispatch].
  - destruct (databaseRequest (this w)) as [r|]; [|done].
    destruct (onupgradeneeded r); [|apply Hconnect].
    specialize (Hup (connect r w)).
    destruct (on_upgradeneeded (connect r w)) as [w2 [[]| |]]; cbn in Hup;
      eauto using same_heap_trans.
  - destruct (databaseRequest (this w)) as [r|]; [|done].
    destruct (onsuccess r); [|apply Hconnect].
    eapply same_heap_trans; [apply Hconnect|apply Hsucc].
  - destruct (databaseRequest (this w)) as [r|]; [|done].
    destruct (onblocked r); [apply Hbl|done].
  - destruct (databaseRequest (this w)) as [r|]; [|done].
    destruct (onerror r); [|done].
    eapply same_heap_trans; [|apply Herr]. done.
  - destruct (default false (onversionchange <$> connections w !! c)); [apply Hvc|done].
Qed.

Lemma fmap_alter_same {A B} (g : A → B) (f : A → A) (i : nat) (m : gmap nat A) :
  (∀ x, g (f x) = g x) → g <$> alter f i m = g <$> m.
Proof.
  intros Hg. apply map_eq. intros j. rewrite !lookup_fmap.
  destruct (decide (i = j)) as [->|Hne].
  - rewrite lookup_alter_eq. destruct (m !! j); cbn; [f_equal; apply Hg|done].
  - rewrite lookup_alter_ne by exact Hne. reflexivity.
Qed.

Lemma run_wiring (a : option Action) (w : World) : wiring (run a w) = wiring w.
Proof.
  destruct a as [[p v|p v]|]; cbn; unfold settle;
    try destruct (promises w !! p) as [[]|]; reflexivity.
Qed.

(** Delivering an event leaves the wiring as it is. *)
Lemma dispatch_wiring (ev : Event) (w : World) : wiring (dispatch ev w) = wiring w.
Proof.
  destruct (request_event ev) eqn:Hev.
  - destruct ev; try discriminate; cbn [dispatch]; rewrite ?run_wiring;
      unfold wiring, set_result, set_error, finish; cbn;
      rewrite fmap_alter_same by done; reflexivity.
  - destruct (handshake_event_same_heap ev w Hev) as (Hr & Ht & _ & _).
    unfold wiring. rewrite Hr, Ht. reflexivity.
Qed.

Lemma deliver_wiring (evs : list Event) : ∀ w, wiring (deliver evs w) = wiring w.
Proof.
  induction evs as [|ev evs IH]; intros w; [reflexivity|].
  cbn. unfold deliver in IH. rewrite IH. apply dispatch_wiring.
Qed.

Lemma fired_wiring (ev : Event) (w1 w2 : World) :
  wiring w1 = wiring w2 → fired ev w1 = fired ev w2.
Proof.
  unfold wiring. intros [= Hr Ht].
  assert (Hr' : ∀ r, (λ rq, (rq_transaction rq, rq_onsuccess rq, rq_onerror rq))
                       <$> requests w1 !! r
                     = (λ rq, (rq_transaction rq, rq_onsuccess rq, rq_onerror rq))
                       <$> requests w2 !! r).
  { intros r. rewrite <- !lookup_fmap, Hr. reflexivity. }
  assert (Ht' : ∀ t, (λ tx, (tx_oncomplete tx, tx_onerror tx)) <$> transactions w1 !! t
                     = (λ tx, (tx_oncomplete tx, tx_onerror tx)) <$> transactions w2 !! t).
  { intros t. rewrite <- !lookup_fmap, Ht. reflexivity. }
  destruct ev; cbn; try reflexivity.
  - specialize (Hr' r).
    destruct (requests w1 !! r), (requests w2 !! r); cbn in *; congruence.
  - specialize (Hr' r).
    destruct (requests w1 !! r) as [x1|], (requests w2 !! r) as [x2|]; cbn in *;
      try congruence.
    injection Hr' as Hx Hs He. rewrite He, Hx. specialize (Ht' (rq_transaction x2)).
    destruct (transactions w1 !! rq_transaction x2),
             (transactions w2 !! rq_transaction x2); cbn in *; congruence.
  - specialize (Ht' t).
    destruct (transactions w1 !! t), (transactions w2 !! t); cbn in *; congruence.
Qed.

Lemma settle_state (p q : nat) (s : PromiseState) (w : World) :
  state p (settle q s w) = state p w
  ∨ (q = p ∧ state p w = Pending ∧ state p (settle q s w) = s).
Proof.
  unfold settle, state.
  destruct (promises w !! q) as [[]|] eqn:Hq; auto.
  destruct (decide (q = p)) as [->|Hne].
  - right. cbn. rewrite Hq, lookup_insert_eq. done.
  - left. cbn. rewrite lookup_insert_ne by exact Hne. reflexivity.
Qed.

Lemma run_state (p : nat) (a : option Action) (w : World) :
  state p (run a w) = state p w
  ∨ (state p w = Pending
     ∧ ∃ x, a = Some x ∧ action_promise x = p ∧ settles x (state p (run a w))).
Proof.
  destruct a as [[q v|q v]|]; cbn; auto.
  - destruct (settle_state p q (Fulfilled (eval v w)) w) as [?|(-> & ? & H)]; auto.
    right. split; [assumption|]. eexists. split; [reflexivity|]. cbn. eauto.
  - destruct (settle_state p q (Rejected (eval v w)) w) as [?|(-> & ? & H)]; auto.
    right. split; [assumption|]. eexists. split; [reflexivity|]. cbn. eauto.
Qed.

Lemma run_heap (a : option Action) (w : World) :
  requests (run a w) = requests w ∧ transactions (run a w) = transactions w.
Proof.
  destruct a as [[p v|p v]|]; cbn; unfold settle;
    try destruct (promises w !! p) as [[]|]; done.
Qed.

(** An event changes the state of a promise only by running a handler that
    mentions it, and only if the promise is pending. *)
Lemma dispatch_state (p : nat) (ev : Event) (w : World) :
  state p (dispatch ev w) = state p w
  ∨ (state p w = Pending
     ∧ ∃ a, a ∈ fired ev w ∧ action_promise a = p ∧ settles a (state p (dispatch ev w))).
Proof.
  destruct (request_event ev) eqn:Hev.
  2:{ left. destruct (handshake_event_same_heap ev w Hev) as (_ & _ & Hp & _).
      unfold state. rewrite Hp. reflexivity. }
  destruct ev; try discriminate; cbn [dispatch].
  - set (w1 := set_result r v w).
    assert (Hf : fired (ev_success r v) w1 = fired (ev_success r v) w).
    { apply fired_wiring. unfold wiring, w1, set_result. cbn.
      rewrite fmap_alter_same by done. reflexivity. }
    destruct (run_state p (requests w1 !! r ≫= rq_onsuccess) w1)
      as [H|(Hpend & x & Hx & Hp & Hs)]; [left; exact H|right].
    split; [exact Hpend|]. exists x. split; [|done].
    rewrite <- Hf. unfold fired. rewrite Hx. left.
  - set (w1 := set_error r e w).
    assert (Hf : fired (ev_error r e) w1 = fired (ev_error r e) w).
    { apply fired_wiring. unfold wiring, w1, set_error. cbn.
      rewrite fmap_alter_same by done. reflexivity. }
    pose proof (run_heap (requests w1 !! r ≫= rq_onerror) w1) as [Hr2 Ht2].
    pose proof (run_state p (requests w1 !! r ≫= rq_onerror) w1) as Hst1.
    remember (run (requests w1 !! r ≫= rq_onerror) w1) as w2 eqn:Hw2.
    pose proof (run_state p ((requests w2 !! r ≫= (λ x, transactions w2 !! rq_transaction x))
                               ≫= tx_onerror) w2) as Hst2.
    destruct Hst2 as [H2|(Hpend2 & x2 & Hx2 & Hp2 & Hs2)];
      destruct Hst1 as [H1|(Hpend1 & x1 & Hx1 & Hp1 & Hs1)].
    + left. rewrite H2, H1. reflexivity.
    + right. split; [exact Hpend1|]. exists x1. rewrite H2. split; [|done].
      rewrite <- Hf. unfold fired. rewrite Hx1. apply elem_of_app. left. left.
    + right. split; [change (state p w1 = Pending); rewrite <- H1; exact Hpend2|].
      exists x2. split; [|done].
      rewrite <- Hf. unfold fired. rewrite <- Hr2, <- Ht2, Hx2. apply elem_of_app. right. left.
    + exfalso. destruct x1; cbn in Hs1; destruct Hs1 as [? Hs1]; congruence.
  - set (w1 := finish t None w).
    assert (Hf : fired (ev_complete t) w1 = fired (ev_complete t) w).
    { apply fired_wiring. unfold wiring, w1, finish. cbn.
      rewrite fmap_alter_same by done. reflexivity. }
    destruct (run_state p (transactions w1 !! t ≫= tx_oncomplete) w1)
      as [H|(Hpend & x & Hx & Hp & Hs)]; [left; exact H|right].
    split; [exact Hpend|]. exists x. split; [|done].
    rewrite <- Hf. unfold fired. rewrite Hx. left.
  - left. reflexivity.
Qed.

(** A settled promise stays as it is. *)
Lemma deliver_settled (p : nat) (evs : list Event) :
  ∀ w, state p w ≠ Pending → state p (deliver evs w) = state p w.
Proof.
  induction evs as [|ev evs IH]; intros w Hs; [reflexivity|].
  cbn. unfold deliver in IH.
  destruct (dispatch_state p ev w) as [H|[H _]]; [|contradiction].
  rewrite IH; rewrite H; done.
Qed.

(** Whatever state a pending promise is later found in, a delivered event
    ran a handler that mentions the promise and settles that way. *)
Lemma settled_by (p : nat) (evs : list Event) :
  ∀ w, state p w = Pending →
       state p (deliver evs w) ≠ Pending →
       ∃ ev a, ev ∈ evs ∧ a ∈ fired ev w ∧ action_promise a = p
               ∧ settles a (state p (deliver evs w)).
Proof.
  induction evs as [|ev evs IH]; intros w Hp Hs; [contradiction|].
  change (deliver (ev :: evs) w) with (deliver evs (dispatch ev w)) in *.
  destruct (dispatch_state p ev w) as [H|(_ & a & Ha & Hpa & Hsa)].
  - destruct (IH (dispatch ev w)) as (ev' & a & Hev' & Ha & Hpa & Hsa);
      [congruence|exact Hs|].
    exists ev', a. split; [right; exact Hev'|]. split; [|done].
    rewrite <- (fired_wiring ev' _ _ (dispatch_wiring ev w)). exact Ha.
  - exists ev, a. split; [left|]. split; [exact Ha|]. split; [exact Hpa|].
    rewrite deliver_settled; [exact Hsa|].
    destruct a; cbn in Hsa; destruct Hsa as [? ->]; discriminate.
Qed.

(** Where a fired handler comes from. *)
Lemma fired_origin (ev : Event) (w : World) (a : Action) :
  a ∈ fired ev w →
  (∃ r v rq, ev = ev_success r v ∧ requests w !! r = Some rq ∧ rq_onsuccess rq = Some a)
  ∨ (∃ r e rq, ev = ev_error r e ∧ requests w !! r = Some rq
               ∧ (rq_onerror rq = Some a
                  ∨ ∃ tx, transactions w !! rq_transaction rq = Some tx
                          ∧ tx_onerror tx = Some a))
  ∨ (∃ t tx, ev = ev_complete t ∧ transactions w !! t = Some tx
             ∧ tx_oncomplete tx = Some a).
Proof.
  destruct ev; cbn; try (intros H; inversion H; fail).
  - destruct (requests w !! r) as [rq|] eqn:Hrq; cbn; [|intros H; inversion H].
    destruct (rq_onsuccess rq) eqn:Hs; cbn; [|intros H; inversion H].
    intros ->%list_elem_of_singleton. left. eauto 10.
  - destruct (requests w !! r) as [rq|] eqn:Hrq; cbn; [|intros H; inversion H].
    intros [H|H]%elem_of_app; right; left; exists r, e, rq; (split; [done|split; [done|]]).
    + left. destruct (rq_onerror rq); cbn in H; [|inversion H].
      apply list_elem_of_singleton in H as ->. reflexivity.
    + right. destruct (transactions w !! rq_transaction rq) as [tx|]; cbn in H;
        [|inversion H].
      exists tx. split; [done|]. destruct (tx_onerror tx); cbn in H; [|inversion H].
      apply list_elem_of_singleton in H as ->. reflexivity.
  - destruct (transactions w !! t) as [tx|] eqn:Htx; cbn; [|intros H; inversion H].
    destruct (tx_oncomplete tx) eqn:Hs; cbn; [|intros H; inversion H].
    intros ->%list_elem_of_singleton. right. right. eauto 10.
Qed.

(** *** Running the promise combinators *)

Ltac js_run tac := repeat (progress (cbn; unfold settle; cbn; js_lookup; tac)).

Lemma bind_run_eq {A B} (m : Js A) (k : A → Js B) (w w' : World) (a : A)
    (r : World * Completion B) :
  m w = (w', Normal a) → k a w' = r → bind m k w = r.
Proof. intros H <-. apply bind_run, H. Qed.

Lemma new_Promise_run (executor : nat → Js unit) (w w1 : World) :
  executor (next_promise w) (with_pending w) = (w1, Normal tt) →
  new_Promise executor w = (w1, Normal (next_promise w)).
Proof.
  intros H. unfold new_Promise, new_pending, fresh_promise, bind, modify, ret. cbn.
  fold (with_pending w). rewrite H. reflexivity.
Qed.

Lemma new_Promise_throw (executor : nat → Js unit) (w w1 : World) (e : JsValue) :
  executor (next_promise w) (with_pending w) = (w1, Throw e) →
  new_Promise executor w
  = (settle (next_promise w) (Rejected e) w1, Normal (next_promise w)).
Proof.
  intros H. unfold new_Promise, new_pending, fresh_promise, bind, modify, ret. cbn.
  fold (with_pending w). rewrite H. reflexivity.
Qed.

Lemma async_run (body : Js JsValue) (w w1 : World) (v : JsValue) :
  body (with_pending w) = (w1, Normal v) →
  async body w = (settle (next_promise w) (Fulfilled v) w1, Normal (next_promise w)).
Proof.
  intros H. unfold async, new_pending, fresh_promise, bind, modify, ret. cbn.
  fold (with_pending w). rewrite H. reflexivity.
Qed.

Lemma async_throw (body : Js JsValue) (w w1 : World) (e : JsValue) :
  body (with_pending w) = (w1, Throw e) →
  async body w = (settle (next_promise w) (Rejected e) w1, Normal (next_promise w)).
Proof.
  intros H. unfold async, new_pending, fresh_promise, bind, modify, ret. cbn.
  fold (with_pending w). rewrite H. reflexivity.
Qed.

Lemma async_returning_promise_run (body : Js nat) (w w1 : World) (q : nat) :
  body w = (w1, Normal q) → async_returning_promise body w = (w1, Normal q).
Proof. intros H. unfold async_returning_promise. rewrite H. reflexivity. Qed.

Lemma async_returning_promise_throw (body : Js nat) (w w1 : World) (e : JsValue) :
  body w = (w1, Throw e) →
  async_returning_promise body w
  = (settle (next_promise w1) (Rejected e) (with_pending w1), Normal (next_promise w1)).
Proof. intros H. unfold async_returning_promise. rewrite H. reflexivity. Qed.

(** [await this.transaction(...)] with an open connection and stores that
    exist. *)
Lemma await_transaction_run (w : World) (names : StoreNames) (mode : option Mode)
    (c : nat) (conn : IDBDatabase) :
  db (this w) = Some c →
  connections w !! c = Some conn →
  closed conn = false →
  stores_exist (names_of names) w = true →
  names_of names ≠ [] →
  await_transaction names mode w
  = (acquired names (default readonly mode) w, Normal (next_id w)).
Proof.
  unfold stores_exist. intros Hdb Hconn Hclosed Hs Hne.
  js_unfold. js_run ltac:(rewrite ?Hdb, ?Hconn, ?Hclosed, ?Hs).
  rewrite bool_decide_false by exact Hne.
  js_run ltac:(rewrite ?Hdb, ?Hconn, ?Hclosed, ?Hs).
  unfold acquired. rewrite insert_insert_eq. reflexivity.
Qed.

(** [await this.transaction(...)] with no connection attached. *)
Lemma await_transaction_unattached (w : World) (names : StoreNames) (mode : option Mode) :
  db (this w) = None →
  await_transaction names mode w
  = (with_promises (<[next_promise w := Rejected unresolved]> (promises w))
       (with_next_promise (S (next_promise w)) w), Throw unresolved).
Proof.
  intros Hdb. js_unfold. js_run ltac:(rewrite ?Hdb).
  rewrite insert_insert_eq. reflexivity.
Qed.

(** *** What the single-request methods leave behind *)

(** With an open connection attached and the store in place, [add] returns
    a pending promise and leaves one read-write transaction carrying one
    request; the handlers sit on the transaction. *)
Lemma add_run (src : Source) (w : World) (store : string) (data : JsObject)
    (key : option IDBValidKey) (c : nat) (conn : IDBDatabase) (s : IDBObjectStore) :
  db (this w) = Some c →
  connections w !! c = Some conn →
  closed conn = false →
  stores (database w) !! store = Some s →
  key_available s data key = true →
  let p := next_promise w in
  let t := next_id w in
  let k := S (next_id w) in
  ∃ W, add src store data key w = (W, Normal p)
       ∧ promises W !! p = Some Pending
       ∧ transactions W
         = <[t := {| tx_scope := [store]; tx_mode := readwrite; tx_error := None;
                     tx_queue := [k]; tx_finished := false;
                     tx_oncomplete := Some (Resolve p (RequestResult k));
                     tx_onerror := Some (Reject p match src with
                                                  | db_ts => Const (VBool false)
                                                  | part_000 => TransactionError t
                                                  end) |}]> (transactions w)
       ∧ requests W = <[k := new_IDBRequest t (OpAdd store data key)]> (requests w)
       ∧ log W = log w ++ [CallTransaction (Single store) readwrite t;
                           CallRequest (OpAdd store data key) t k]
       ∧ database W = database w ∧ this W = this w ∧ connections W = connections w.
Proof.
  intros Hdb Hconn Hclosed Hs Hkey p t k. eexists. split.
  { unfold add. apply async_returning_promise_run, new_Promise_run.
    eapply bind_run_eq; [apply async_run|reflexivity].
    eapply bind_run_eq.
    { apply (await_transaction_run _ _ _ c conn); try done.
      unfold stores_exist. cbn. rewrite Hs. reflexivity. }
    cbv [IDBTransaction_objectStore IDBObjectStore_add writable check_key place
         set_oncomplete set_tx_onerror bind gets modify ret record fresh_id
         DOMException throw].
    js_run ltac:(rewrite ?Hs, ?Hkey).
    rewrite bool_decide_true by set_solver.
    js_run ltac:(rewrite ?Hs, ?Hkey).
    reflexivity. }
  subst p t k. js_simpl. rewrite ?alter_insert_eq, <- ?app_assoc. js_simpl.
  repeat split; reflexivity.
Qed.

Lemma put_run (src : Source) (w : World) (store : string) (data : JsObject)
    (key : option IDBValidKey) (c : nat) (conn : IDBDatabase) (s : IDBObjectStore) :
  db (this w) = Some c →
  connections w !! c = Some conn →
  closed conn = false →
  stores (database w) !! store = Some s →
  key_available s data key = true →
  let p := next_promise w in
  let t := next_id w in
  let k := S (next_id w) in
  ∃ W, put src store data key w = (W, Normal p)
       ∧ promises W !! p = Some Pending
       ∧ transactions W
         = <[t := {| tx_scope := [store]; tx_mode := readwrite; tx_error := None;
                     tx_queue := [k]; tx_finished := false;
                     tx_oncomplete := Some (Resolve p (RequestResult k));
                     tx_onerror := Some (Reject p match src with
                                                  | db_ts => Const (VBool false)
                                                  | part_000 => TransactionError t
                                                  end) |}]> (transactions w)
       ∧ requests W = <[k := new_IDBRequest t (OpPut store data key)]> (requests w)
       ∧ log W = log w ++ [CallTransaction (Single store) readwrite t;
                           CallRequest (OpPut store data key) t k]
       ∧ database W = database w ∧ this W = this w ∧ connections W = connections w.
Proof.
  intros Hdb Hconn Hclosed Hs Hkey p t k. eexists. split.
  { unfold put. apply async_returning_promise_run, new_Promise_run.
    eapply bind_run_eq; [apply async_run|reflexivity].
    eapply bind_run_eq.
    { apply (await_transaction_run _ _ _ c conn); try done.
      unfold stores_exist. cbn. rewrite Hs. reflexivity. }
    cbv [IDBTransaction_objectStore IDBObjectStore_put writable check_key place
         set_oncomplete set_tx_onerror bind gets modify ret record fresh_id
         DOMException throw].
    js_run ltac:(rewrite ?Hs, ?Hkey).
    rewrite bool_decide_true by set_solver.
    js_run ltac:(rewrite ?Hs, ?Hkey).
    reflexivity. }
  subst p t k. js_simpl. rewrite ?alter_insert_eq, <- ?app_assoc. js_simpl.
  repeat split; reflexivity.
Qed.

(** [delete] puts its handlers on the request. *)
Lemma delete_run (src : Source) (w : World) (store : string) (query : Query)
    (c : nat) (conn : IDBDatabase) (s : IDBObjectStore) :
  db (this w) = Some c →
  connections w !! c = Some conn →
  closed conn = false →
  stores (database w) !! store = Some s →
  let p := next_promise w in
  let t := next_id w in
  let k := S (next_id w) in
  ∃ W, delete src store query w = (W, Normal p)
       ∧ promises W !! p = Some Pending
       ∧ transactions W
         = <[t := {| tx_scope := [store]; tx_mode := readwrite; tx_error := None;
                     tx_queue := [k]; tx_finished := false;
                     tx_oncomplete := None; tx_onerror := None |}]> (transactions w)
       ∧ requests W
         = <[k := {| rq_transaction := t; rq_op := OpDelete store query;
                     rq_result := VUndefined; rq_error := None;
                     rq_onsuccess := Some (Resolve p (Const (VBool true)));
                     rq_onerror := Some (Reject p match src with
                                                  | db_ts => Const (VBool false)
                                                  | part_000 => RequestError k
                                                  end) |}]> (requests w)
       ∧ log W = log w ++ [CallTransaction (Single store) readwrite t;
                           CallRequest (OpDelete store query) t k]
       ∧ database W = database w ∧ this W = this w ∧ connections W = connections w.
Proof.
  intros Hdb Hconn Hclosed Hs p t k. eexists. split.
  { unfold delete. apply async_returning_promise_run, new_Promise_run.
    eapply bind_run_eq; [apply async_run|reflexivity].
    eapply bind_run_eq.
    { apply (await_transaction_run _ _ _ c conn); try done.
      unfold stores_exist. cbn. rewrite Hs. reflexivity. }
    cbv [IDBTransaction_objectStore IDBObjectStore_delete writable place
         set_onsuccess set_onerror bind gets modify ret record fresh_id
         DOMException throw].
    js_run idtac.
    rewrite bool_decide_true by set_solver.
    js_run idtac.
    reflexivity. }
  subst p t k. js_simpl. rewrite ?alter_insert_eq, <- ?app_assoc. js_simpl.
  repeat split; reflexivity.
Qed.

Lemma objectStore_acquired (names : StoreNames) (mode : Mode) (w : World) (n : string) :
  n ∈ names_of names →
  IDBTransaction_objectStore (next_id w) n (acquired names mode w)
  = (acquired names mode w, Normal (next_id w, n)).
Proof.
  intros Hn. cbv [IDBTransaction_objectStore bind gets]. js_simpl.
  rewrite bool_decide_true by exact Hn. reflexivity.
Qed.

Lemma index_run (w : World) (os : nat * string) (i : string) (s : IDBObjectStore) :
  stores (database w) !! os.2 = Some s →
  is_Some (os_indexes s !! i) →
  IDBObjectStore_index os i w = (w, Normal (os, i)).
Proof.
  intros Hs [ix Hix]. cbv [IDBObjectStore_index bind gets]. rewrite Hs. cbn.
  rewrite Hix. reflexivity.
Qed.

Lemma index_missing (w : World) (os : nat * string) (i : string) (s : IDBObjectStore) :
  stores (database w) !! os.2 = Some s →
  os_indexes s !! i = None →
  IDBObjectStore_index os i w = (w, Throw (VDOMException "NotFoundError")).
Proof.
  intros Hs Hix. cbv [IDBObjectStore_index bind gets]. rewrite Hs. cbn.
  rewrite Hix. reflexivity.
Qed.

(** The index step of [get] and [getAll]. *)
Lemma index_step (w : World) (os : nat * string) (index : option string)
    (s : IDBObjectStore) :
  stores (database w) !! os.2 = Some s →
  (truthy_string index = true → is_Some (os_indexes s !! default "" index)) →
  (if truthy_string index
   then let! i := IDBObjectStore_index os (default "" index) in ret (Some i)
   else ret None) w
  = (w, Normal (if truthy_string index then Some (os, default "" index) else None)).
Proof.
  intros Hs Hix. destruct (truthy_string index); [|reflexivity].
  eapply bind_run_eq; [apply (index_run w os _ s Hs), Hix; reflexivity|reflexivity].
Qed.

Lemma index_used_default (index : option string) :
  (if truthy_string index then Some (default "" index) else None) = index_used index.
Proof.
  unfold index_used. destruct index as [i|]; [|reflexivity].
  cbn. destruct (negb (String.eqb i "")); reflexivity.
Qed.

Lemma get_request (os : nat * string) (b : bool) (i : string) (q : Query) :
  match (if b then Some (os, i) else None) with
  | Some idx => IDBIndex_get idx q
  | None => IDBObjectStore_get os q
  end = place os.1 (OpGet os.2 (if b then Some i else None) q).
Proof. destruct b; reflexivity. Qed.

Lemma getAll_request (os : nat * string) (b : bool) (i : string) (q : option Query) :
  match (if b then Some (os, i) else None) with
  | Some idx => IDBIndex_getAll idx q
  | None => IDBObjectStore_getAll os q
  end = place os.1 (OpGetAll os.2 (if b then Some i else None) q).
Proof. destruct b; reflexivity. Qed.

Lemma get_run (src : Source) (w : World) (store : string) (query : Query)
    (index : option string) (c : nat) (conn : IDBDatabase) (s : IDBObjectStore) :
  db (this w) = Some c →
  connections w !! c = Some conn →
  closed conn = false →
  stores (database w) !! store = Some s →
  (truthy_string index = true → is_Some (os_indexes s !! default "" index)) →
  let p := S (next_promise w) in
  let t := next_id w in
  let k := S (next_id w) in
  ∃ W, get src store query index w = (W, Normal p)
       ∧ promises W !! p = Some Pending
       ∧ transactions W
         = <[t := {| tx_scope := [store]; tx_mode := readonly; tx_error := None;
                     tx_queue := [k]; tx_finished := false;
                     tx_oncomplete := None; tx_onerror := None |}]> (transactions w)
       ∧ requests W
         = <[k := {| rq_transaction := t; rq_op := OpGet store (index_used index) query;
                     rq_result := VUndefined; rq_error := None;
                     rq_onsuccess := Some (Resolve p (RequestResult k));
                     rq_onerror := Some (Reject p match src with
                                                  | db_ts => Const VUndefined
                                                  | part_000 => RequestError k
                                                  end) |}]> (requests w)
       ∧ log W = log w ++ [CallTransaction (Single store) readonly t;
                           CallRequest (OpGet store (index_used index) query) t k]
       ∧ database W = database w ∧ this W = this w ∧ connections W = connections w.
Proof.
  intros Hdb Hconn Hclosed Hs Hix p t k. eexists. split.
  { unfold get. apply async_returning_promise_run.
    eapply bind_run_eq.
    { apply (await_transaction_run _ _ _ c conn); try done.
      unfold stores_exist. cbn. rewrite Hs. reflexivity. }
    eapply bind_run_eq; [apply objectStore_acquired; cbn; left|].
    eapply bind_run_eq; [apply (index_step _ _ _ s); [exact Hs|exact Hix]|].
    apply new_Promise_run. rewrite get_request, index_used_default.
    cbv [place set_onsuccess set_onerror
         bind gets modify ret record fresh_id DOMException throw].
    js_run idtac. reflexivity. }
  subst p t k. js_simpl. rewrite ?alter_insert_eq, <- ?app_assoc. js_simpl.
  repeat split; reflexivity.
Qed.

Lemma getAll_run (src : Source) (w : World) (store : string) (query : option Query)
    (index : option string) (c : nat) (conn : IDBDatabase) (s : IDBObjectStore) :
  db (this w) = Some c →
  connections w !! c = Some conn →
  closed conn = false →
  stores (database w) !! store = Some s →
  (truthy_string index = true → is_Some (os_indexes s !! default "" index)) →
  let p := S (next_promise w) in
  let t := next_id w in
  let k := S (next_id w) in
  ∃ W, getAll src store query index w = (W, Normal p)
       ∧ promises W !! p = Some Pending
       ∧ transactions W
         = <[t := {| tx_scope := [store]; tx_mode := readonly; tx_error := None;
                     tx_queue := [k]; tx_finished := false;
                     tx_oncomplete := None; tx_onerror := None |}]> (transactions w)
       ∧ requests W
         = <[k := {| rq_transaction := t;
                     rq_op := OpGetAll store (index_used index) query;
                     rq_result := VUndefined; rq_error := None;
                     rq_onsuccess := Some (Resolve p (RequestResult k));
                     rq_onerror := Some (Reject p match src with
                                                  | db_ts => Const VUndefined
                                                  | part_000 => RequestError k
                                                  end) |}]> (requests w)
       ∧ log W = log w ++ [CallTransaction (Single store) readonly t;
                           CallRequest (OpGetAll store (index_used index) query) t k]
       ∧ database W = database w ∧ this W = this w ∧ connections W = connections w.
Proof.
  intros Hdb Hconn Hclosed Hs Hix p t k. eexists. split.
  { unfold getAll. apply async_returning_promise_run.
    eapply bind_run_eq.
    { apply (await_transaction_run _ _ _ c conn); try done.
      unfold stores_exist. cbn. rewrite Hs. reflexivity. }
    eapply bind_run_eq; [apply objectStore_acquired; cbn; left|].
    eapply bind_run_eq; [apply (index_step _ _ _ s); [exact Hs|exact Hix]|].
    apply new_Promise_run. rewrite getAll_request, index_used_default.
    cbv [place set_onsuccess set_onerror
         bind gets modify ret record fresh_id DOMException throw].
    js_run idtac. reflexivity. }
  subst p t k. js_simpl. rewrite ?alter_insert_eq, <- ?app_assoc. js_simpl.
  repeat split; reflexivity.
Qed.

(** A read through an index the store does not have: the lookup throws in
    the body of the [async] method, before any request is placed. *)
Lemma read_missing_index (w : World) (store : string) (i : string)
    (c : nat) (conn : IDBDatabase) (s : IDBObjectStore)
    (rest : nat → nat * string → option (nat * string * string) → Js nat) :
  db (this w) = Some c →
  connections w !! c = Some conn →
  closed conn = false →
  stores (database w) !! store = Some s →
  i ≠ "" →
  os_indexes s !! i = None →
  let p := S (next_promise w) in
  let t := next_id w in
  ∃ W, async_returning_promise (
         let! transaction := await_transaction (Single store) None in
         let! objectStore := IDBTransaction_objectStore transaction store in
         let! idx :=
           if truthy_string (Some i)
           then let! i := IDBObjectStore_index objectStore (default "" (Some i)) in
                ret (Some i)
           else ret None in
         rest transaction objectStore idx) w = (W, Normal p)
       ∧ promises W !! p = Some (Rejected (VDOMException "NotFoundError"))
       ∧ requests W = requests w
       ∧ log W = log w ++ [CallTransaction (Single store) readonly t]
       ∧ database W = database w ∧ this W = this w ∧ connections W = connections w.
Proof.
  intros Hdb Hconn Hclosed Hs Hi Hix p t.
  erewrite async_returning_promise_throw.
  2:{ eapply bind_run_eq.
      { apply (await_transaction_run _ _ _ c conn); try done.
        unfold stores_exist. cbn. rewrite Hs. reflexivity. }
      eapply bind_run_eq; [apply objectStore_acquired; cbn; left|].
      apply bind_throw.
      assert (Htr : truthy_string (Some i) = true).
      { cbn. apply negb_true_iff, String.eqb_neq, Hi. }
      rewrite Htr. apply bind_throw. apply (index_missing _ _ _ s); [exact Hs|exact Hix]. }
  eexists. split; [reflexivity|].
  subst p t. js_simpl. repeat split; reflexivity.
Qed.

(** *** Delivering one event *)

Lemma dispatch_success (w : World) (k : nat) (v : JsValue) (rq : IDBRequest) :
  requests w !! k = Some rq →
  dispatch (ev_success k v) w = run (rq_onsuccess rq) (set_result k v w).
Proof.
  intros Hk. cbn [dispatch]. f_equal. unfold set_result. cbn.
  rewrite lookup_alter_eq, Hk. reflexivity.
Qed.

Lemma dispatch_complete (w : World) (t : nat) (tx : IDBTransaction) :
  transactions w !! t = Some tx →
  dispatch (ev_complete t) w = run (tx_oncomplete tx) (finish t None w).
Proof.
  intros Ht. cbn [dispatch]. f_equal. unfold finish. cbn.
  rewrite lookup_alter_eq, Ht. reflexivity.
Qed.

Lemma dispatch_error (w : World) (k : nat) (e : string) (rq : IDBRequest)
    (tx : IDBTransaction) :
  requests w !! k = Some rq →
  transactions w !! rq_transaction rq = Some tx →
  dispatch (ev_error k e) w
  = run (tx_onerror tx) (run (rq_onerror rq) (set_error k e w)).
Proof.
  intros Hk Ht. cbn [dispatch].
  assert (Hk' : requests (set_error k e w) !! k ≫= rq_onerror = rq_onerror rq).
  { unfold set_error. cbn. rewrite lookup_alter_eq, Hk. reflexivity. }
  rewrite Hk'.
  destruct (run_heap (rq_onerror rq) (set_error k e w)) as [-> ->].
  f_equal. unfold set_error. cbn. rewrite lookup_alter_eq, Hk. cbn. rewrite Ht.
  reflexivity.
Qed.

Lemma run_resolve (w : World) (p : nat) (v : ValueSource) :
  promises w !! p = Some Pending →
  state p (run (Some (Resolve p v)) w) = Fulfilled (eval v w).
Proof.
  intros Hp. cbn. unfold settle, state. rewrite Hp. cbn.
  rewrite lookup_insert_eq. reflexivity.
Qed.

Lemma run_reject (w : World) (p : nat) (v : ValueSource) :
  promises w !! p = Some Pending →
  state p (run (Some (Reject p v)) w) = Rejected (eval v w).
Proof.
  intros Hp. cbn. unfold settle, state. rewrite Hp. cbn.
  rewrite lookup_insert_eq. reflexivity.
Qed.

(** In a world that arose from running the class, no handler mentions a
    promise that does not exist yet. *)
Lemma well_formed_fired (w w' : World) (ev : Event) (a : Action) :
  well_formed w →
  requests w' = requests w →
  transactions w' = transactions w →
  a ∈ fired ev w' →
  (action_promise a < next_promise w)%nat.
Proof.
  intros [Hrq Htx] Hr Ht Ha.
  apply fired_origin in Ha as [(r & v & rq & -> & Hk & Hs)
                              |[(r & e & rq & -> & Hk & [He|(tx & Hx & He)])
                               |(t & tx & -> & Hx & Hc)]];
    rewrite ?Hr, ?Ht in *.
  - destruct (Hrq _ _ Hk) as (H & _ & _). apply H, Hs.
  - destruct (Hrq _ _ Hk) as (_ & H & _). apply H, He.
  - destruct (Htx _ _ Hx) as (_ & H). apply H, He.
  - destruct (Htx _ _ Hx) as (H & _). apply H, Hc.
Qed.

(** A pending promise that no handler mentions stays pending. *)
Lemma unmentioned_stays_pending (p : nat) (w : World) :
  (∀ ev a, a ∈ fired ev w → action_promise a ≠ p) →
  state p w = Pending →
  ∀ evs, state p (deliver evs w) = Pending.
Proof.
  intros Hquiet Hp evs.
  destruct (state p (deliver evs w)) eqn:Hst; [reflexivity|exfalso..];
    (destruct (settled_by p evs w Hp) as (ev & a & _ & Ha & Hpa & _);
     [rewrite Hst; discriminate|exact (Hquiet ev a Ha Hpa)]).
Qed.

(** After a method that made one transaction [t] with one request [k], a
    handler that mentions a promise of the call sits on [k] or on [t]. *)
Lemma fired_fresh (w W : World) (t k p : nat) (tx : IDBTransaction) (rq : IDBRequest)
    (ev : Event) (a : Action) :
  well_formed w →
  requests W = <[k := rq]> (requests w) →
  transactions W = <[t := tx]> (transactions w) →
  rq_transaction rq = t →
  (next_id w ≤ t)%nat →
  (next_promise w ≤ p)%nat →
  a ∈ fired ev W →
  action_promise a = p →
  (∃ v, ev = ev_success k v ∧ rq_onsuccess rq = Some a)
  ∨ (∃ e, ev = ev_error k e ∧ (rq_onerror rq = Some a ∨ tx_onerror tx = Some a))
  ∨ (ev = ev_complete t ∧ tx_oncomplete tx = Some a).
Proof.
  intros [Hrq Htx] Hr Ht Hrt Hid Hp Ha Hpa.
  apply fired_origin in Ha as [(r & v & rq' & -> & Hk & Hs)
                              |[(r & e & rq' & -> & Hk & Herr)
                               |(t' & tx' & -> & Hx & Hc)]].
  - rewrite Hr, lookup_insert in Hk. case_decide as Hrk.
    + subst r. injection Hk as <-. left. eauto.
    + exfalso. destruct (Hrq _ _ Hk) as (H & _ & _). specialize (H _ Hs). lia.
  - rewrite Hr, lookup_insert in Hk. case_decide as Hrk.
    + subst r. injection Hk as <-. right. left. exists e. split; [reflexivity|].
      destruct Herr as [He|(tx' & Hx & He)]; [left; exact He|right].
      rewrite Hrt, Ht, lookup_insert_eq in Hx. injection Hx as <-. exact He.
    + exfalso. destruct (Hrq _ _ Hk) as (_ & H & Hlt).
      destruct Herr as [He|(tx' & Hx & He)]; [specialize (H _ He); lia|].
      rewrite Ht, lookup_insert_ne in Hx by lia.
      destruct (Htx _ _ Hx) as (_ & H'). specialize (H' _ He). lia.
  - rewrite Ht, lookup_insert in Hx. case_decide as Htt.
    + subst t'. injection Hx as <-. right. right. eauto.
    + exfalso. destruct (Htx _ _ Hx) as (H & _). specialize (H _ Hc). lia.
Qed.

(** *** Writes *)

Lemma run_database (a : option Action) (w : World) :
  database (run a w) = database w.
Proof.
  destruct a as [[p v|p v]|]; cbn; unfold settle;
    try destruct (promises w !! p) as [[]|]; reflexivity.
Qed.

Lemma run_promises_none (w : World) : run None w = w.
Proof. reflexivity. Qed.

(** The engine carrying out a transaction that holds one request. *)
Lemma engine_run_single (w : World) (t k : nat) (tx : IDBTransaction) (rq : IDBRequest) :
  transactions w !! t = Some tx →
  tx_finished tx = false →
  tx_queue tx = [k] →
  requests w !! k = Some rq →
  engine_run t w
  = match execute (rq_op rq) (stores (database w)) with
    | inl (ss, v) => dispatch (ev_complete t) (dispatch (ev_success k v) (with_stores ss w))
    | inr e => dispatch (ev_abort t (Some e))
                 (with_stores (stores (database w)) (dispatch (ev_error k e) w))
    end.
Proof.
  intros Ht Hfin Hq Hk. unfold engine_run. rewrite Ht, Hfin, Hq. cbn [process].
  rewrite Hk. destruct (execute (rq_op rq) (stores (database w))) as [[ss v]|e];
    reflexivity.
Qed.

Lemma execute_write (overwrite : bool) (store : string) (data : JsObject)
    (key : option IDBValidKey) (ss : gmap string IDBObjectStore) (s : IDBObjectStore) :
  ss !! store = Some s →
  execute (if overwrite then OpPut store data key else OpAdd store data key) ss
  = match store_record overwrite s data key with
    | inl (s', v) => inl (<[store := s']> ss, v)
    | inr e => inr e
    end.
Proof. intros Hs. destruct overwrite; cbn; rewrite Hs; reflexivity. Qed.




Lemma opened_well_formed : well_formed opened.
Proof. split; apply map_Forall_empty. Defined.


(** *** Deletes *)

(** C5.  [delete] returns a promise that is fulfilled with [true] as soon
    as the delete request fires [success], before and without any
    completion event of the transaction; it is rejected when the request
    fires [error], and only then.  Run against the engine, the request
    succeeds whatever the store holds, so the promise is fulfilled with
    [true] also when no record has the key, in which case the records are
    left as they were. *)
Theorem delete_settles_on_request (src : Source) (w : World) (store : string)
    (query : Query) (c : nat) (conn : IDBDatabase) (s : IDBObjectStore) :
  well_formed w →
  db (this w) = Some c →
  connections w !! c = Some conn →
  closed conn = false →
  stores (database w) !! store = Some s →
  ∃ p t k,
    returned (delete src store query) w = Normal p
    ∧ log (call (delete src store query) w)
      = log w ++ [CallTransaction (Single store) readwrite t;
                  CallRequest (OpDelete store query) t k]
    ∧ state p (call (delete src store query) w) = Pending
    ∧ (∀ v, state p (dispatch (ev_success k v) (call (delete src store query) w))
            = Fulfilled (VBool true))
    ∧ (∀ e, state p (dispatch (ev_error k e) (call (delete src store query) w))
            = Rejected (request_failure src (VBool false) e))
    ∧ (∀ evs v, state p (deliver evs (call (delete src store query) w)) = Fulfilled v →
                v = VBool true ∧ ∃ r, ev_success k r ∈ evs)
    ∧ (∀ evs v, state p (deliver evs (call (delete src store query) w)) = Rejected v →
                ∃ e, ev_error k e ∈ evs)
    ∧ state p (engine_run t (call (delete src store query) w)) = Fulfilled (VBool true)
    ∧ (∀ k0, query = QKey k0 → os_records s !! k0 = None →
             ∃ s', stores (database (engine_run t (call (delete src store query) w)))
                   !! store = Some s'
                   ∧ os_records s' = os_records s).
Proof.
  intros Hwf Hdb Hconn Hclosed Hs.
  destruct (delete_run src w store query c conn s Hdb Hconn Hclosed Hs)
    as (W & Hm & Hp & Ht & Hr & Hlog & Hd & _).
  set (p := next_promise w) in *. set (t := next_id w) in *. set (k := S (next_id w)) in *.
  set (tx := {| tx_scope := [store]; tx_mode := readwrite; tx_error := None;
                tx_queue := [k]; tx_finished := false;
                tx_oncomplete := None; tx_onerror := None |}) in *.
  set (rq := {| rq_transaction := t; rq_op := OpDelete store query;
                rq_result := VUndefined; rq_error := None;
                rq_onsuccess := Some (Resolve p (Const (VBool true)));
                rq_onerror := Some (Reject p match src with
                                             | db_ts => Const (VBool false)
                                             | part_000 => RequestError k
                                             end) |}) in *.
  assert (Htx : transactions W !! t = Some tx) by (rewrite Ht; apply lookup_insert_eq).
  assert (Hk : requests W !! k = Some rq) by (rewrite Hr; apply lookup_insert_eq).
  assert (Hstate : state p W = Pending) by (unfold state; rewrite Hp; reflexivity).
  assert (Hsucc : ∀ v W0, requests W0 !! k = Some rq → promises W0 !! p = Some Pending →
                          state p (dispatch (ev_success k v) W0) = Fulfilled (VBool true)).
  { intros v W0 Hk0 Hp0. rewrite (dispatch_success _ _ _ _ Hk0).
    change (rq_onsuccess rq) with (Some (Resolve p (Const (VBool true)))).
    rewrite run_resolve by exact Hp0. reflexivity. }
  assert (Hfired : ∀ ev a, a ∈ fired ev W → action_promise a = p →
                           (∃ v, ev = ev_success k v ∧ a = Resolve p (Const (VBool true)))
                           ∨ (∃ e x, ev = ev_error k e ∧ a = Reject p x)).
  { intros ev a Ha Hpa.
    destruct (fired_fresh w W t k p tx rq ev a Hwf Hr Ht)
      as [(v & -> & Hx)|[(e & -> & [Hx|Hx])|(-> & Hx)]]; try done; try (cbn; lia).
    - left. exists v. split; [reflexivity|]. injection Hx as <-. reflexivity.
    - right. exists e. injection Hx as <-. eauto. }
  exists p, t, k. unfold call, returned. rewrite Hm. cbn [fst snd].
  split; [reflexivity|]. split; [exact Hlog|]. split; [exact Hstate|].
  split; [intros v; apply Hsucc; assumption|].
  split.
  { intros e. rewrite (dispatch_error W k e rq tx Hk Htx).
    change (tx_onerror tx) with (@None Action). rewrite run_promises_none.
    change (rq_onerror rq)
      with (Some (Reject p match src with
                           | db_ts => Const (VBool false)
                           | part_000 => RequestError k
                           end)).
    rewrite run_reject by exact Hp.
    destruct src; cbn; [reflexivity|]. rewrite lookup_alter_eq, Hk. reflexivity. }
  split.
  { intros evs v Hful.
    destruct (settled_by p evs W Hstate) as (ev & a & Hev & Ha & Hpa & Hsa);
      [rewrite Hful; discriminate|].
    rewrite Hful in Hsa.
    destruct (Hfired ev a Ha Hpa) as [(r & -> & ->)|(e & x & -> & ->)].
    - destruct Hsa as [w' [= ->]]. eauto.
    - destruct Hsa as [? ?]. discriminate. }
  split.
  { intros evs v Hrej.
    destruct (settled_by p evs W Hstate) as (ev & a & Hev & Ha & Hpa & Hsa);
      [rewrite Hrej; discriminate|].
    rewrite Hrej in Hsa.
    destruct (Hfired ev a Ha Hpa) as [(r & -> & ->)|(e & x & -> & ->)]; [|eauto].
    destruct Hsa as [? ?]. discriminate. }
  rewrite (engine_run_single W t k tx rq Htx eq_refl eq_refl Hk).
  change (rq_op rq) with (OpDelete store query). rewrite Hd.
  cbn [execute]. rewrite Hs.
  assert (Hfinal : ∀ W0, requests W0 !! k = Some rq → promises W0 !! p = Some Pending →
                         transactions W0 !! t = Some tx →
                         ∀ v, state p (dispatch (ev_complete t) (dispatch (ev_success k v) W0))
                              = Fulfilled (VBool true)
                              ∧ database (dispatch (ev_complete t)
                                            (dispatch (ev_success k v) W0))
                                = database W0).
  { intros W0 Hk0 Hp0 Ht0 v.
    rewrite (dispatch_success _ _ _ _ Hk0).
    change (rq_onsuccess rq) with (Some (Resolve p (Const (VBool true)))).
    erewrite dispatch_complete.
    2:{ destruct (run_heap (Some (Resolve p (Const (VBool true)))) (set_result k v W0))
          as [_ ->]. exact Ht0. }
    change (tx_oncomplete tx) with (@None Action). rewrite run_promises_none.
    split.
    - pose proof (run_resolve (set_result k v W0) p (Const (VBool true)) Hp0) as Hres.
      unfold state in *. exact Hres.
    - unfold finish. cbn [database with_transactions]. rewrite run_database.
      reflexivity. }
  split.
  { apply Hfinal; assumption. }
  intros k0 -> Hnone.
  destruct (Hfinal (with_stores (<[store := with_records
                                    (filter (λ kv, matches (Some (QKey k0)) kv.1 = false)
                                       (os_records s)) (os_generator s) s]>
                                   (stores (database w))) W) Hk Hp Htx VUndefined)
    as [_ ->].
  eexists. split; [cbn; apply lookup_insert_eq|]. cbn.
  apply map_filter_id. intros i x Hi. cbn. unfold key_eqb.
  apply bool_decide_eq_false. intros ->. congruence.
Qed.


Lemma delete_settles_on_request_witness :
  ∃ p t k,
    returned (delete db_ts "items" (QKey (KNumber 7))) opened = Normal p
    ∧ state p (engine_run t (call (delete db_ts "items" (QKey (KNumber 7))) opened))
      = Fulfilled (VBool true)
    ∧ log (call (delete db_ts "items" (QKey (KNumber 7))) opened)
      = log opened ++ [CallTransaction (Single "items") readwrite t;
                       CallRequest (OpDelete "items" (QKey (KNumber 7))) t k].
Proof.
  destruct (delete_settles_on_request db_ts opened "items" (QKey (KNumber 7)) 0
              {| closed := false; onversionchange := false |} (declared_store items)
              opened_well_formed eq_refl eq_refl eq_refl eq_refl)
    as (p & t & k & Hret & Hlog & _ & _ & _ & _ & _ & Hrun & _).
  exists p, t, k. split; [exact Hret|]. split; [exact Hrun|exact Hlog].
Defined.

(** *** Before the connection is attached *)

(** What every operation method leaves behind when [this.db] is still
    undefined: no call to the engine, no request, no transaction, and a
    promise that is rejected with the "unresolved" error, except for the
    methods that await inside an [async] executor, whose promise is left
    pending: the rejection lands on the executor's own promise. *)
Lemma invoke_unattached (src : Source) (o : Operation) (w : World) :
  db (this w) = None →
  ∃ W p, invoke src o w = (W, Normal p)
         ∧ (next_promise w ≤ p)%nat
         ∧ promises W !! p
           = Some (if awaits_in_executor src o then Pending else Rejected unresolved)
         ∧ requests W = requests w ∧ transactions W = transactions w
         ∧ log W = log w.
Proof.
  intros Hdb.
  assert (Hexec : ∀ (rest : nat → nat → Js JsValue) names mode,
             ∃ W, async_returning_promise
                    (new_Promise (λ p,
                       let! _ := async (let! transaction := await_transaction names mode in
                                        rest p transaction) in
                       ret tt)) w = (W, Normal (next_promise w))
                  ∧ promises W !! next_promise w = Some Pending
                  ∧ requests W = requests w ∧ transactions W = transactions w
                  ∧ log W = log w).
  { intros rest names mode. eexists. split.
    { apply async_returning_promise_run, new_Promise_run.
      eapply bind_run_eq; [|reflexivity].
      apply async_throw, bind_throw, await_transaction_unattached. exact Hdb. }
    js_simpl. repeat split; reflexivity. }
  assert (Hread : ∀ (rest : nat → Js nat) names mode,
             ∃ W, async_returning_promise
                    (let! transaction := await_transaction names mode in rest transaction) w
                  = (W, Normal (S (next_promise w)))
                  ∧ promises W !! S (next_promise w) = Some (Rejected unresolved)
                  ∧ requests W = requests w ∧ transactions W = transactions w
                  ∧ log W = log w).
  { intros rest names mode. eexists. split.
    { erewrite async_returning_promise_throw
        by (apply bind_throw, await_transaction_unattached; exact Hdb).
      reflexivity. }
    js_simpl. repeat split; reflexivity. }
  destruct o as [names mode|store q i|store q i|store d k|store d k|store q|names].
  - eexists _, (next_promise w). split.
    { unfold invoke, transaction. apply new_Promise_run.
      cbv [bind gets ret reject modify]. cbn. rewrite Hdb. reflexivity. }
    js_simpl. repeat split; first [reflexivity|lia].
  - destruct (Hread (λ transaction,
                let! objectStore := IDBTransaction_objectStore transaction store in
                let! idx :=
                  if truthy_string i
                  then let! i := IDBObjectStore_index objectStore (default "" i) in
                       ret (Some i)
                  else ret None in
                new_Promise (λ p,
                  let! request :=
                    match idx with
                    | Some idx => IDBIndex_get idx q
                    | None => IDBObjectStore_get objectStore q
                    end in
                  set_onsuccess request (Resolve p (RequestResult request)) >>
                  set_onerror request
                    (Reject p match src with
                              | db_ts => Const VUndefined
                              | part_000 => RequestError request
                              end))) (Single store) None) as (W & HW & Hp & Hrest).
    exists W, (S (next_promise w)). split; [exact HW|]. split; [lia|]. split; [exact Hp|].
    exact Hrest.
  - destruct (Hread (λ transaction,
                let! objectStore := IDBTransaction_objectStore transaction store in
                let! idx :=
                  if truthy_string i
                  then let! i := IDBObjectStore_index objectStore (default "" i) in
                       ret (Some i)
                  else ret None in
                new_Promise (λ p,
                  let! request :=
                    match idx with
                    | Some idx => IDBIndex_getAll idx q
                    | None => IDBObjectStore_getAll objectStore q
                    end in
                  set_onsuccess request (Resolve p (RequestResult request)) >>
                  set_onerror request
                    (Reject p match src with
                              | db_ts => Const VUndefined
                              | part_000 => RequestError request
                              end))) (Single store) None) as (W & HW & Hp & Hrest).
    exists W, (S (next_promise w)). split; [exact HW|]. split; [lia|]. split; [exact Hp|].
    exact Hrest.
  - destruct (Hexec (λ p transaction,
                let! objectStore := IDBTransaction_objectStore transaction store in
                let! k := IDBObjectStore_add objectStore d k in
                set_oncomplete transaction (Resolve p (RequestResult k)) >>
                set_tx_onerror transaction
                  (Reject p match src with
                            | db_ts => Const (VBool false)
                            | part_000 => TransactionError transaction
                            end) >>
                ret VUndefined) (Single store) (Some readwrite)) as (W & HW & Hp & Hrest).
    exists W, (next_promise w). split; [exact HW|]. split; [lia|]. split; [exact Hp|].
    exact Hrest.
  - destruct (Hexec (λ p transaction,
                let! objectStore := IDBTransaction_objectStore transaction store in
                let! k := IDBObjectStore_put objectStore d k in
                set_oncomplete transaction (Resolve p (RequestResult k)) >>
                set_tx_onerror transaction
                  (Reject p match src with
                            | db_ts => Const (VBool false)
                            | part_000 => TransactionError transaction
                            end) >>
                ret VUndefined) (Single store) (Some readwrite)) as (W & HW & Hp & Hrest).
    exists W, (next_promise w). split; [exact HW|]. split; [lia|]. split; [exact Hp|].
    exact Hrest.
  - destruct (Hexec (λ p transaction,
                let! objectStore := IDBTransaction_objectStore transaction store in
                let! request := IDBObjectStore_delete objectStore q in
                set_onsuccess request (Resolve p (Const (VBool true))) >>
                set_onerror request
                  (Reject p match src with
                            | db_ts => Const (VBool false)
                            | part_000 => RequestError request
                            end) >>
                ret VUndefined) (Single store) (Some readwrite)) as (W & HW & Hp & Hrest).
    exists W, (next_promise w). split; [exact HW|]. split; [lia|]. split; [exact Hp|].
    exact Hrest.
  - destruct src.
    + eexists _, (next_promise w). split.
      { unfold invoke, clear.
        apply async_throw, bind_throw, await_transaction_unattached. exact Hdb. }
      js_simpl. repeat split; first [reflexivity|lia].
    + destruct (Hexec (λ p transaction,
                  clear_stores transaction names >>
                  set_oncomplete transaction (Resolve p (Const (VBool true))) >>
                  set_tx_onerror transaction (Reject p (TransactionError transaction)) >>
                  ret VUndefined) names (Some readwrite)) as (W & HW & Hp & Hrest).
      exists W, (next_promise w). split; [exact HW|]. split; [lia|]. split; [exact Hp|].
      exact Hrest.
Qed.

(** C1, as the code has it.  With [this.db] still undefined, [transaction],
    [get], [getAll] and the [clear] of [db.ts] return a promise rejected
    with [Error("Couldn't resolve the transaction")]; [add], [put],
    [delete] and the [clear] of [part_000] return a promise that no event
    will ever settle.  No method throws and none calls the engine. *)
Theorem operations_before_open (src : Source) (o : Operation) (w : World) :
  db (this w) = None →
  well_formed w →
  ∃ p, returned (invoke src o) w = Normal p
       ∧ log (call (invoke src o) w) = log w
       ∧ if awaits_in_executor src o
         then ∀ evs, state p (deliver evs (call (invoke src o) w)) = Pending
         else state p (call (invoke src o) w) = Rejected unresolved.
Proof.
  intros Hdb Hwf.
  destruct (invoke_unattached src o w Hdb) as (W & p & HW & Hle & Hp & Hr & Ht & Hlog).
  exists p. unfold returned, call. rewrite HW. cbn [fst snd].
  split; [reflexivity|]. split; [exact Hlog|].
  destruct (awaits_in_executor src o).
  - apply unmentioned_stays_pending.
    + intros ev a Ha Hpa.
      pose proof (well_formed_fired w W ev a Hwf Hr Ht Ha). lia.
    + unfold state. rewrite Hp. reflexivity.
  - unfold state. rewrite Hp. reflexivity.
Qed.

Lemma constructed_well_formed : well_formed constructed.
Proof. split; apply map_Forall_empty. Defined.

Lemma operations_before_open_witness :
  ∃ p, returned (add db_ts "items" [("color", KString "red")] None) constructed = Normal p
       ∧ ∀ evs, state p (deliver evs (call (add db_ts "items" [("color", KString "red")]
                                              None) constructed)) = Pending.
Proof.
  destruct (operations_before_open db_ts (Add "items" [("color", KString "red")] None)
              constructed eq_refl constructed_well_formed) as (p & Hret & _ & Hpend).
  exists p. split; [exact Hret|exact Hpend].
Defined.

(** *** Reads *)

(** C2, as the code has it.  When the read request of [get] or of [getAll]
    fires its error event, the returned promise is rejected: in [part_000]
    with the request's error object, in [db.ts] with [undefined] whatever
    the error is.  [get] and [getAll] behave alike in each copy. *)
Theorem read_error_rejects (src : Source) (w : World) (store : string) (query : Query)
    (range : option Query) (index : option string) (c : nat) (conn : IDBDatabase)
    (s : IDBObjectStore) :
  db (this w) = Some c →
  connections w !! c = Some conn →
  closed conn = false →
  stores (database w) !! store = Some s →
  (truthy_string index = true → is_Some (os_indexes s !! default "" index)) →
  (∃ p t k,
     returned (get src store query index) w = Normal p
     ∧ log (call (get src store query index) w)
       = log w ++ [CallTransaction (Single store) readonly t;
                   CallRequest (OpGet store (index_used index) query) t k]
     ∧ state p (call (get src store query index) w) = Pending
     ∧ ∀ e, state p (dispatch (ev_error k e) (call (get src store query index) w))
            = Rejected (request_failure src VUndefined e)
              ∧ eval (RequestError k)
                  (dispatch (ev_error k e) (call (get src store query index) w))
                = VDOMException e)
  ∧ (∃ p t k,
       returned (getAll src store range index) w = Normal p
       ∧ log (call (getAll src store range index) w)
         = log w ++ [CallTransaction (Single store) readonly t;
                     CallRequest (OpGetAll store (index_used index) range) t k]
       ∧ state p (call (getAll src store range index) w) = Pending
       ∧ ∀ e, state p (dispatch (ev_error k e) (call (getAll src store range index) w))
              = Rejected (request_failure src VUndefined e)
                ∧ eval (RequestError k)
                    (dispatch (ev_error k e) (call (getAll src store range index) w))
                  = VDOMException e).
Proof.
  intros Hdb Hconn Hclosed Hs Hix.
  assert (Hgen : ∀ (W : World) (p t k : nat) (op : RequestOp),
             promises W !! p = Some Pending →
             transactions W
             = <[t := {| tx_scope := [store]; tx_mode := readonly; tx_error := None;
                         tx_queue := [k]; tx_finished := false;
                         tx_oncomplete := None; tx_onerror := None |}]> (transactions w) →
             requests W
             = <[k := {| rq_transaction := t; rq_op := op;
                         rq_result := VUndefined; rq_error := None;
                         rq_onsuccess := Some (Resolve p (RequestResult k));
                         rq_onerror := Some (Reject p match src with
                                                      | db_ts => Const VUndefined
                                                      | part_000 => RequestError k
                                                      end) |}]> (requests w) →
             state p W = Pending
             ∧ ∀ e, state p (dispatch (ev_error k e) W)
                    = Rejected (request_failure src VUndefined e)
                      ∧ eval (RequestError k) (dispatch (ev_error k e) W)
                        = VDOMException e).
  { intros W p t k op Hp Ht Hr.
    split; [unfold state; rewrite Hp; reflexivity|]. intros e.
    erewrite dispatch_error
      by (first [rewrite Hr; apply lookup_insert_eq
                |cbn [rq_transaction]; rewrite Ht; apply lookup_insert_eq]).
    cbn [tx_onerror rq_onerror]. rewrite run_promises_none. split.
    - rewrite run_reject by exact Hp.
      destruct src; cbn; [reflexivity|]. rewrite lookup_alter_eq, Hr, lookup_insert_eq.
      reflexivity.
    - unfold eval.
      destruct (run_heap (Some (Reject p match src with
                                         | db_ts => Const VUndefined
                                         | part_000 => RequestError k
                                         end)) (set_error k e W)) as [-> _].
      cbn. rewrite lookup_alter_eq, Hr, lookup_insert_eq. reflexivity. }
  split.
  - destruct (get_run src w store query index c conn s Hdb Hconn Hclosed Hs Hix)
      as (W & Hm & Hp & Ht & Hr & Hlog & _).
    exists (S (next_promise w)), (next_id w), (S (next_id w)).
    unfold returned, call. rewrite Hm. cbn [fst snd].
    split; [reflexivity|]. split; [exact Hlog|]. apply (Hgen W _ _ _ _ Hp Ht Hr).
  - destruct (getAll_run src w store range index c conn s Hdb Hconn Hclosed Hs Hix)
      as (W & Hm & Hp & Ht & Hr & Hlog & _).
    exists (S (next_promise w)), (next_id w), (S (next_id w)).
    unfold returned, call. rewrite Hm. cbn [fst snd].
    split; [reflexivity|]. split; [exact Hlog|]. apply (Hgen W _ _ _ _ Hp Ht Hr).
Qed.

Lemma read_error_rejects_witness :
  ∃ p t k,
    returned (get part_000 "items" (QKey (KNumber 1)) (Some "byColor")) opened = Normal p
    ∧ log (call (get part_000 "items" (QKey (KNumber 1)) (Some "byColor")) opened)
      = log opened ++ [CallTransaction (Single "items") readonly t;
                       CallRequest (OpGet "items" (Some "byColor") (QKey (KNumber 1))) t k]
    ∧ state p (dispatch (ev_error k "UnknownError")
                 (call (get part_000 "items" (QKey (KNumber 1)) (Some "byColor")) opened))
      = Rejected (VDOMException "UnknownError").
Proof.
  destruct (read_error_rejects part_000 opened "items" (QKey (KNumber 1)) None
              (Some "byColor") 0 {| closed := false; onversionchange := false |}
              (declared_store items) eq_refl eq_refl eq_refl eq_refl)
    as [(p & t & k & Hret & Hlog & _ & Herr) _].
  { intros _. vm_compute. eauto. }
  exists p, t, k. split; [exact Hret|]. split; [exact Hlog|]. apply Herr.
Defined.

(** C2 as stated fails in [db.ts]: the read request of a [get] fires its
    error event with the error [UnknownError]; the promise is rejected with
    [undefined], not with the request's error object. *)
Lemma get_db_ts_rejects_with_undefined :
  returned (get db_ts "items" (QKey (KNumber 1)) None) opened = Normal 1%nat
  ∧ log (call (get db_ts "items" (QKey (KNumber 1)) None) opened)
    = log opened ++ [CallTransaction (Single "items") readonly 1;
                     CallRequest (OpGet "items" None (QKey (KNumber 1))) 1 2]
  ∧ state 1 (dispatch (ev_error 2 "UnknownError")
               (call (get db_ts "items" (QKey (KNumber 1)) None) opened))
    = Rejected VUndefined
  ∧ eval (RequestError 2)
      (dispatch (ev_error 2 "UnknownError")
         (call (get db_ts "items" (QKey (KNumber 1)) None) opened))
    = VDOMException "UnknownError"
  ∧ Rejected VUndefined ≠ Rejected (VDOMException "UnknownError").
Proof. repeat split; try (vm_compute; reflexivity). discriminate. Qed.

(** C10, as the code has it.  When [get] or [getAll] is called with a
    non-empty index name that the store does not have, the index lookup
    throws in the body of the [async] method: the returned promise is
    rejected with the engine's [NotFoundError], the only call made to the
    engine is the acquisition of the transaction, and no read request is
    placed. *)
Theorem read_missing_index_rejects (src : Source) (w : World) (store : string)
    (query : Query) (range : option Query) (i : string) (c : nat) (conn : IDBDatabase)
    (s : IDBObjectStore) :
  db (this w) = Some c →
  connections w !! c = Some conn →
  closed conn = false →
  stores (database w) !! store = Some s →
  i ≠ "" →
  os_indexes s !! i = None →
  (∃ p t,
     returned (get src store query (Some i)) w = Normal p
     ∧ state p (call (get src store query (Some i)) w)
       = Rejected (VDOMException "NotFoundError")
     ∧ log (call (get src store query (Some i)) w)
       = log w ++ [CallTransaction (Single store) readonly t]
     ∧ requests (call (get src store query (Some i)) w) = requests w)
  ∧ (∃ p t,
       returned (getAll src store range (Some i)) w = Normal p
       ∧ state p (call (getAll src store range (Some i)) w)
         = Rejected (VDOMException "NotFoundError")
       ∧ log (call (getAll src store range (Some i)) w)
         = log w ++ [CallTransaction (Single store) readonly t]
       ∧ requests (call (getAll src store range (Some i)) w) = requests w).
Proof.
  intros Hdb Hconn Hclosed Hs Hi Hix. split.
  - destruct (read_missing_index w store i c conn s
                (λ transaction objectStore idx, new_Promise (λ p,
                   let! request :=
                     match idx with
                     | Some idx => IDBIndex_get idx query
                     | None => IDBObjectStore_get objectStore query
                     end in
                   set_onsuccess request (Resolve p (RequestResult request)) >>
                   set_onerror request
                     (Reject p match src with
                               | db_ts => Const VUndefined
                               | part_000 => RequestError request
                               end)))
                Hdb Hconn Hclosed Hs Hi Hix) as (W & HW & Hp & Hr & Hlog & _).
    exists (S (next_promise w)), (next_id w).
    assert (Hget : get src store query (Some i) w = (W, Normal (S (next_promise w))))
      by exact HW.
    unfold returned, call. rewrite Hget. cbn [fst snd].
    split; [reflexivity|]. split; [unfold state; rewrite Hp; reflexivity|].
    split; [exact Hlog|exact Hr].
  - destruct (read_missing_index w store i c conn s
                (λ transaction objectStore idx, new_Promise (λ p,
                   let! request :=
                     match idx with
                     | Some idx => IDBIndex_getAll idx range
                     | None => IDBObjectStore_getAll objectStore range
                     end in
                   set_onsuccess request (Resolve p (RequestResult request)) >>
                   set_onerror request
                     (Reject p match src with
                               | db_ts => Const VUndefined
                               | part_000 => RequestError request
                               end)))
                Hdb Hconn Hclosed Hs Hi Hix) as (W & HW & Hp & Hr & Hlog & _).
    exists (S (next_promise w)), (next_id w).
    assert (Hget : getAll src store range (Some i) w = (W, Normal (S (next_promise w))))
      by exact HW.
    unfold returned, call. rewrite Hget. cbn [fst snd].
    split; [reflexivity|]. split; [unfold state; rewrite Hp; reflexivity|].
    split; [exact Hlog|exact Hr].
Qed.

Lemma read_missing_index_rejects_witness :
  ∃ p t,
    returned (get db_ts "items" (QKey (KNumber 1)) (Some "byShape")) opened = Normal p
    ∧ state p (call (get db_ts "items" (QKey (KNumber 1)) (Some "byShape")) opened)
      = Rejected (VDOMException "NotFoundError")
    ∧ log (call (get db_ts "items" (QKey (KNumber 1)) (Some "byShape")) opened)
      = log opened ++ [CallTransaction (Single "items") readonly t].
Proof.
  destruct (read_missing_index_rejects db_ts opened "items" (QKey (KNumber 1)) None
              "byShape" 0 {| closed := false; onversionchange := false |}
              (declared_store items) eq_refl eq_refl eq_refl eq_refl)
    as [(p & t & Hret & Hst & Hlog & _) _].
  { discriminate. }
  { vm_compute. reflexivity. }
  exists p, t. split; [exact Hret|]. split; [exact Hst|exact Hlog].
Defined.

(** C10 as stated fails for the empty index name: the store [items] has no
    index named [""], yet [get] with that name does no index lookup: it
    places a read request on the store itself, and the promise is not
    rejected but fulfilled (here with [undefined], the store being
    empty). *)
Lemma get_empty_index_name_reads_store :
  os_indexes (declared_store items) !! "" = None
  ∧ stores (database opened) !! "items" = Some (declared_store items)
  ∧ returned (get db_ts "items" (QKey (KNumber 1)) (Some "")) opened = Normal 1%nat
  ∧ log (call (get db_ts "items" (QKey (KNumber 1)) (Some "")) opened)
    = log opened ++ [CallTransaction (Single "items") readonly 1;
                     CallRequest (OpGet "items" None (QKey (KNumber 1))) 1 2]
  ∧ state 1 (call (get db_ts "items" (QKey (KNumber 1)) (Some "")) opened) = Pending
  ∧ state 1 (engine_run 1 (call (get db_ts "items" (QKey (KNumber 1)) (Some "")) opened))
    = Fulfilled VUndefined.
Proof. repeat split; vm_compute; reflexivity. Qed.

(** *** Clearing *)

(** [await this.transaction(...)] in every case. *)
Lemma await_transaction_spec (w : World) (names : StoreNames) (mode : option Mode) :
  await_transaction names mode w
  = match acquire_error names w with
    | None => (acquired names (default readonly mode) w, Normal (next_id w))
    | Some e => (refused e w, Throw e)
    end.
Proof.
  unfold acquire_error, stores_exist, refused.
  destruct (db (this w)) as [c|] eqn:Hdb.
  2:{ apply await_transaction_unattached, Hdb. }
  destruct (connections w !! c) as [conn|] eqn:Hconn.
  2:{ js_unfold. js_run ltac:(rewrite ?Hdb, ?Hconn). rewrite insert_insert_eq.
      reflexivity. }
  destruct (closed conn) eqn:Hclosed.
  { js_unfold. js_run ltac:(rewrite ?Hdb, ?Hconn, ?Hclosed). rewrite insert_insert_eq.
    reflexivity. }
  cbn [fmap option_fmap option_map default compose negb].
  rewrite Hclosed. cbn [negb].
  destruct (forallb _ (names_of names)) eqn:Hs; cbn [negb].
  2:{ js_unfold. js_run ltac:(rewrite ?Hdb, ?Hconn, ?Hclosed, ?Hs).
      rewrite insert_insert_eq. reflexivity. }
  destruct (bool_decide (names_of names = [])) eqn:Hne.
  { js_unfold. js_run ltac:(rewrite ?Hdb, ?Hconn, ?Hclosed, ?Hs, ?Hne).
    rewrite insert_insert_eq. reflexivity. }
  apply (await_transaction_run w names mode c conn Hdb Hconn Hclosed Hs).
  apply bool_decide_eq_false in Hne. exact Hne.
Qed.

Lemma place_run (w : World) (t : nat) (op : RequestOp) (tx : IDBTransaction) :
  transactions w !! t = Some tx →
  tx_finished tx = false →
  place t op w = (place_world t op w, Normal (next_id w)).
Proof.
  intros Ht Hfin. cbv [place bind gets modify ret record fresh_id DOMException throw].
  rewrite Ht. cbn. rewrite Hfin. reflexivity.
Qed.

(** One round of the loop of [clear]. *)
Lemma clear_store_run (w : World) (t : nat) (n : string) (tx : IDBTransaction) :
  transactions w !! t = Some tx →
  tx_finished tx = false →
  tx_mode tx = readwrite →
  n ∈ tx_scope tx →
  (let! objectStore := IDBTransaction_objectStore t n in
   let! _ := IDBObjectStore_clear objectStore in
   ret tt) w
  = (place_world t (OpClear n) w, Normal tt).
Proof.
  intros Ht Hfin Hmode Hn.
  eapply bind_run_eq.
  { cbv [IDBTransaction_objectStore bind gets]. rewrite Ht, Hfin.
    rewrite bool_decide_true by exact Hn. reflexivity. }
  eapply bind_run_eq; [|reflexivity].
  unfold IDBObjectStore_clear. eapply bind_run_eq.
  { cbv [writable bind gets]. cbn. rewrite Ht. cbn. rewrite Hmode. reflexivity. }
  apply (place_run w t _ tx Ht Hfin).
Qed.

Lemma place_world_transaction (w : World) (t : nat) (op : RequestOp) (tx : IDBTransaction) :
  transactions w !! t = Some tx →
  transactions (place_world t op w) !! t = Some (enqueue (next_id w) tx).
Proof. intros Ht. cbn. rewrite lookup_alter_eq, Ht. reflexivity. Qed.

Lemma clear_loop_run (t : nat) (l : list string) :
  ∀ (w : World) (tx : IDBTransaction),
    transactions w !! t = Some tx →
    tx_finished tx = false →
    tx_mode tx = readwrite →
    (∀ n, n ∈ l → n ∈ tx_scope tx) →
    for_of l (λ n, let! objectStore := IDBTransaction_objectStore t n in
                   let! _ := IDBObjectStore_clear objectStore in
                   ret tt) w
    = (placed t (OpClear <$> l) w, Normal tt).
Proof.
  induction l as [|n l IH]; intros w tx Ht Hfin Hmode Hscope; [reflexivity|].
  cbn [for_of].
  eapply bind_run_eq.
  { apply (clear_store_run w t n tx Ht Hfin Hmode). apply Hscope. left. }
  apply (IH _ (enqueue (next_id w) tx)).
  - apply place_world_transaction, Ht.
  - exact Hfin.
  - exact Hmode.
  - intros m Hm. apply Hscope. right. exact Hm.
Qed.

(** After the transaction has been acquired, the clears cannot fail. *)
Lemma clear_stores_run (names : StoreNames) (w : World) :
  clear_stores (next_id w) names (acquired names readwrite w)
  = (placed (next_id w) (OpClear <$> names_of names) (acquired names readwrite w),
     Normal tt).
Proof.
  assert (Ht : transactions (acquired names readwrite w) !! next_id w
               = Some (new_transaction names readwrite))
    by (cbn; apply lookup_insert_eq).
  destruct names as [n|l]; cbn [clear_stores names_of].
  - apply (clear_store_run _ _ _ _ Ht); [reflexivity..|]. cbn. left.
  - apply (clear_loop_run _ _ _ _ Ht); [reflexivity..|]. intros n Hn. exact Hn.
Qed.

(** What placing requests leaves alone, and what it adds. *)
Lemma placed_frame (t : nat) (ops : list RequestOp) :
  ∀ w, promises (placed t ops w) = promises w
       ∧ next_promise (placed t ops w) = next_promise w
       ∧ database (placed t ops w) = database w
       ∧ this (placed t ops w) = this w
       ∧ connections (placed t ops w) = connections w
       ∧ next_id (placed t ops w) = (next_id w + length ops)%nat
       ∧ log (placed t ops w)
         = log w ++ imap (λ i op, CallRequest op t (next_id w + i)) ops.
Proof.
  induction ops as [|op ops IH]; intros w.
  - cbn. rewrite app_nil_r, Nat.add_0_r. done.
  - change (placed t (op :: ops) w) with (placed t ops (place_world t op w)).
    destruct (IH (place_world t op w)) as (-> & -> & -> & -> & -> & -> & ->).
    cbn. rewrite <- app_assoc, Nat.add_0_r.
    repeat split; try reflexivity; try lia.
    f_equal. cbn. f_equal. apply imap_ext. intros i x _. cbn. f_equal. lia.
Qed.

Lemma placed_transaction (t : nat) (ops : list RequestOp) :
  ∀ (w : World) (tx : IDBTransaction),
    transactions w !! t = Some tx →
    ∃ q, transactions (placed t ops w)
         = <[t := {| tx_scope := tx_scope tx; tx_mode := tx_mode tx;
                     tx_error := tx_error tx; tx_queue := tx_queue tx ++ q;
                     tx_finished := tx_finished tx; tx_oncomplete := tx_oncomplete tx;
                     tx_onerror := tx_onerror tx |}]> (transactions w)
         ∧ q = seq (next_id w) (length ops).
Proof.
  induction ops as [|op ops IH]; intros w tx Ht.
  - exists []. split; [|reflexivity]. cbn. rewrite app_nil_r.
    symmetry. apply insert_id. rewrite Ht. destruct tx; reflexivity.
  - change (placed t (op :: ops) w) with (placed t ops (place_world t op w)).
    destruct (IH _ _ (place_world_transaction w t op tx Ht)) as (q & Hq & ->).
    eexists. split; [|reflexivity]. rewrite Hq. cbn.
    rewrite <- app_assoc. apply map_eq. intros i.
    destruct (decide (i = t)) as [->|Hne].
    + rewrite !lookup_insert_eq. reflexivity.
    + rewrite !lookup_insert_ne by congruence. apply lookup_alter_ne. congruence.
Qed.

Lemma placed_requests (t : nat) (ops : list RequestOp) :
  ∀ (w : World) (i : nat) (op : RequestOp),
    ops !! i = Some op →
    requests (placed t ops w) !! (next_id w + i)%nat = Some (new_IDBRequest t op).
Proof.
  induction ops as [|op0 ops IH]; intros w i op Hi; [inversion Hi|].
  change (placed t (op0 :: ops) w) with (placed t ops (place_world t op0 w)).
  destruct i as [|i]; cbn in Hi.
  - injection Hi as ->. rewrite Nat.add_0_r.
    assert (Hkeep : ∀ ops' w' r x, requests w' !! r = Some x → (r < next_id w')%nat →
                                   requests (placed t ops' w') !! r = Some x).
    { clear. induction ops' as [|o ops' IH']; intros w' r x Hr Hlt; [exact Hr|].
      change (placed t (o :: ops') w') with (placed t ops' (place_world t o w')).
      apply IH'; cbn; [|lia]. rewrite lookup_insert_ne by lia. exact Hr. }
    apply Hkeep; cbn; [apply lookup_insert_eq|lia].
  - replace (next_id w + S i)%nat with (next_id (place_world t op0 w) + i)%nat
      by (cbn; lia).
    apply IH, Hi.
Qed.

Lemma place_world_view (t : nat) (op : RequestOp) (w1 w2 : World) :
  engine_view w1 = engine_view w2 →
  engine_view (place_world t op w1) = engine_view (place_world t op w2).
Proof.
  unfold engine_view. intros [= Hl Hr Ht Hd Hh Hc Hn]. cbn.
  rewrite Hl, Hr, Ht, Hd, Hh, Hc, Hn. reflexivity.
Qed.

Lemma placed_view (t : nat) (ops : list RequestOp) :
  ∀ w1 w2, engine_view w1 = engine_view w2 →
           engine_view (placed t ops w1) = engine_view (placed t ops w2).
Proof.
  induction ops as [|op ops IH]; intros w1 w2 H; [exact H|].
  apply (IH (place_world t op w1) (place_world t op w2)), place_world_view, H.
Qed.

Lemma acquired_view (names : StoreNames) (mode : Mode) (w1 w2 : World) :
  engine_view w1 = engine_view w2 →
  engine_view (acquired names mode w1) = engine_view (acquired names mode w2).
Proof.
  unfold engine_view. intros [= Hl Hr Ht Hd Hh Hc Hn]. cbn.
  rewrite Hl, Hr, Ht, Hd, Hh, Hc, Hn. reflexivity.
Qed.

Lemma settle_view (p : nat) (s : PromiseState) (w : World) :
  engine_view (settle p s w) = engine_view w.
Proof. unfold settle. destruct (promises w !! p) as [[]|]; reflexivity. Qed.

(** The two copies of [clear], in every case. *)
Lemma clear_db_ts_run (names : StoreNames) (w : World) :
  clear db_ts names w
  = (match acquire_error names w with
     | None =>
         settle (next_promise w) (Fulfilled VUndefined)
           (placed (next_id w) (OpClear <$> names_of names)
              (acquired names readwrite (with_pending w)))
     | Some e => settle (next_promise w) (Rejected e) (refused e (with_pending w))
     end, Normal (next_promise w)).
Proof.
  unfold clear.
  pose proof (await_transaction_spec (with_pending w) names (Some readwrite)) as Haw.
  change (acquire_error names (with_pending w)) with (acquire_error names w) in Haw.
  destruct (acquire_error names w) as [e|].
  - apply async_throw, bind_throw, Haw.
  - apply async_run. eapply bind_run_eq; [exact Haw|].
    eapply bind_run_eq; [apply (clear_stores_run names (with_pending w))|reflexivity].
Qed.

Lemma clear_part_000_run (names : StoreNames) (w : World) :
  clear part_000 names w
  = (match acquire_error names w with
     | None =>
         settle (S (next_promise w)) (Fulfilled VUndefined)
           (clear_wired (next_promise w) (next_id w)
              (placed (next_id w) (OpClear <$> names_of names)
                 (acquired names readwrite (with_pending (with_pending w)))))
     | Some e =>
         settle (S (next_promise w)) (Rejected e)
           (refused e (with_pending (with_pending w)))
     end, Normal (next_promise w)).
Proof.
  unfold clear.
  pose proof (await_transaction_spec (with_pending (with_pending w)) names (Some readwrite))
    as Haw.
  change (acquire_error names (with_pending (with_pending w)))
    with (acquire_error names w) in Haw.
  apply async_returning_promise_run, new_Promise_run.
  eapply bind_run_eq; [|reflexivity].
  destruct (acquire_error names w) as [e|].
  - apply async_throw, bind_throw, Haw.
  - apply async_run. eapply bind_run_eq; [exact Haw|].
    eapply bind_run_eq;
      [apply (clear_stores_run names (with_pending (with_pending w)))|reflexivity].
Qed.

(** The events of requests and transactions touch neither the stored data
    nor the operation a request stands for. *)
Lemma request_event_database (ev : Event) (w : World) :
  request_event ev = true →
  database (dispatch ev w) = database w
  ∧ rq_op <$> requests (dispatch ev w) = rq_op <$> requests w.
Proof.
  destruct ev; try discriminate; intros _; cbn [dispatch].
  - rewrite run_database. destruct (run_heap (requests (set_result r v w) !! r
                                                ≫= rq_onsuccess) (set_result r v w))
      as [-> _].
    split; [reflexivity|]. unfold set_result. cbn. apply fmap_alter_same. done.
  - rewrite !run_database.
    match goal with |- context [run ?a (run ?b ?x)] =>
      destruct (run_heap a (run b x)) as [-> _];
      destruct (run_heap b x) as [-> _] end.
    split; [reflexivity|]. unfold set_error. cbn. apply fmap_alter_same. done.
  - rewrite run_database. destruct (run_heap (transactions (finish t None w) !! t
                                                ≫= tx_oncomplete) (finish t None w))
      as [-> _].
    done.
  - done.
Qed.

Lemma stores_after_ext (rs : list nat) (ops1 ops2 : nat → option RequestOp) :
  (∀ r, ops1 r = ops2 r) →
  ∀ before ss, stores_after rs ops1 before ss = stores_after rs ops2 before ss.
Proof.
  intros Hops. induction rs as [|r rs IH]; intros before ss; [reflexivity|].
  cbn. rewrite Hops. destruct (ops2 r) as [op|]; [|apply IH].
  destruct (execute op ss) as [[ss' v]|e]; [apply IH|reflexivity].
Qed.

(** The stores the engine leaves after carrying out a transaction depend
    on the requests in its queue and on the stores it starts from, not on
    any handler or promise. *)
Lemma process_stores (rs : list nat) (before : gmap string IDBObjectStore) (t : nat) :
  ∀ w, database (process rs before t w)
       = {| stored_version := stored_version (database w);
            stores := stores_after rs (λ r, rq_op <$> requests w !! r) before
                        (stores (database w)) |}.
Proof.
  induction rs as [|r rs IH]; intros w.
  - cbn [process stores_after].
    destruct (request_event_database (ev_complete t) w eq_refl) as [-> _].
    symmetry. apply database_eta.
  - cbn [process stores_after].
    destruct (requests w !! r) as [rq|] eqn:Hr; cbn [fmap option_fmap option_map];
      [|apply IH].
    destruct (execute (rq_op rq) (stores (database w))) as [[ss v]|e].
    + rewrite IH.
      destruct (request_event_database (ev_success r v) (with_stores ss w) eq_refl)
        as [-> Hops].
      cbn [database with_stores with_database stored_version stores]. f_equal.
      apply stores_after_ext. intros r'.
      rewrite <- !lookup_fmap, Hops. reflexivity.
    + destruct (request_event_database (ev_error r e) w eq_refl) as [Hd _].
      transitivity {| stored_version := stored_version (database (dispatch (ev_error r e) w));
                      stores := before |}; [reflexivity|].
      rewrite Hd. reflexivity.
Qed.

Lemma engine_run_database (t : nat) (w : World) :
  database (engine_run t w)
  = match (λ tx, (tx_scope tx, tx_mode tx, tx_queue tx, tx_finished tx))
            <$> transactions w !! t with
    | Some (_, _, queue, false) =>
        {| stored_version := stored_version (database w);
           stores := stores_after queue (λ r, rq_op <$> requests w !! r)
                       (stores (database w)) (stores (database w)) |}
    | _ => database w
    end.
Proof.
  unfold engine_run. destruct (transactions w !! t) as [tx|]; [|reflexivity].
  cbn. destruct (tx_finished tx); [reflexivity|]. apply process_stores.
Qed.

(** Worlds in which the engine was asked the same things end up with the
    same stored data. *)
Lemma same_clears_engine_run (t : nat) (w1 w2 : World) :
  same_clears w1 w2 → database (engine_run t w1) = database (engine_run t w2).
Proof.
  intros (_ & Hr & Ht & Hd & _). rewrite !engine_run_database.
  rewrite <- !lookup_fmap, Ht, Hr, Hd. reflexivity.
Qed.

Lemma view_same_clears (w1 w2 : World) :
  engine_view w1 = engine_view w2 → same_clears w1 w2.
Proof.
  unfold engine_view, same_clears. intros [= -> -> -> -> -> -> _]. done.
Qed.

Lemma same_clears_trans (w1 w2 w3 : World) :
  same_clears w1 w2 → same_clears w2 w3 → same_clears w1 w3.
Proof.
  intros (? & ? & ? & ? & ? & ?) (? & ? & ? & ? & ? & ?).
  repeat split; congruence.
Qed.

Lemma clear_wired_same_clears (p t : nat) (w : World) : same_clears w (clear_wired p t w).
Proof.
  unfold same_clears, clear_wired, set_tx_onerror, set_oncomplete, modify. cbn.
  repeat split; try reflexivity.
  rewrite !fmap_alter_same by done. reflexivity.
Qed.

Lemma clear_wired_transaction (p t : nat) (w : World) (tx : IDBTransaction) :
  transactions w !! t = Some tx →
  transactions (clear_wired p t w) !! t
  = Some {| tx_scope := tx_scope tx; tx_mode := tx_mode tx; tx_error := tx_error tx;
            tx_queue := tx_queue tx; tx_finished := tx_finished tx;
            tx_oncomplete := Some (Resolve p (Const (VBool true)));
            tx_onerror := Some (Reject p (TransactionError t)) |}.
Proof.
  intros Ht. unfold clear_wired, set_tx_onerror, set_oncomplete, modify. cbn.
  rewrite !lookup_alter_eq, Ht. reflexivity.
Qed.

(** C6.  The two copies of [clear] ask the engine the same things: the same
    calls in the same order, the same requests queued on the same
    transaction, and the engine leaves the same stored data after carrying
    them out.  When the transaction can be acquired the calls are one
    read-write transaction over all the names followed by one [clear] per
    name; otherwise no call is made.  The copies differ in how the promise
    settles.  In [db.ts] it is settled when the method returns (fulfilled
    with [undefined] once the clears are placed) and no event changes it,
    so it carries no outcome of the clears.  In [part_000] it is pending
    until the transaction fires [complete], which fulfils it with [true],
    or until the error event of one of the clear requests reaches the
    transaction, which rejects it. *)
Theorem clear_copies_equivalent (names : StoreNames) (w : World) :
  same_clears (call (clear db_ts names) w) (call (clear part_000 names) w)
  ∧ database (engine_run (next_id w) (call (clear db_ts names) w))
    = database (engine_run (next_id w) (call (clear part_000 names) w))
  ∧ log (call (clear db_ts names) w)
    = match acquire_error names w with
      | None =>
          log w ++ CallTransaction names readwrite (next_id w)
                   :: imap (λ i n, CallRequest (OpClear n) (next_id w) (S (next_id w) + i))
                        (names_of names)
      | Some _ => log w
      end
  ∧ ∃ p1 p2,
      returned (clear db_ts names) w = Normal p1
      ∧ returned (clear part_000 names) w = Normal p2
      ∧ state p1 (call (clear db_ts names) w)
        = match acquire_error names w with
          | None => Fulfilled VUndefined
          | Some e => Rejected e
          end
      ∧ (∀ evs, state p1 (deliver evs (call (clear db_ts names) w))
                = state p1 (call (clear db_ts names) w))
      ∧ match acquire_error names w with
        | None =>
            state p2 (call (clear part_000 names) w) = Pending
            ∧ state p2 (dispatch (ev_complete (next_id w)) (call (clear part_000 names) w))
              = Fulfilled (VBool true)
            ∧ ∀ i n e, names_of names !! i = Some n →
                state p2 (dispatch (ev_error (S (next_id w) + i) e)
                            (call (clear part_000 names) w))
                = Rejected (transaction_failure part_000)
        | Some _ => state p2 (call (clear part_000 names) w) = Pending
        end.
Proof.
  set (p := next_promise w). set (t := next_id w).
  set (ops := OpClear <$> names_of names).
  set (P1 := placed t ops (acquired names readwrite (with_pending w))).
  set (P2 := placed t ops (acquired names readwrite (with_pending (with_pending w)))).
  assert (Hview : engine_view P1 = engine_view P2).
  { apply placed_view, acquired_view. reflexivity. }
  destruct (placed_frame t ops (acquired names readwrite (with_pending w)))
    as (Hp1 & _ & _ & _ & _ & _ & Hlog1). fold P1 in Hp1, Hlog1.
  destruct (placed_frame t ops (acquired names readwrite (with_pending (with_pending w))))
    as (Hp2 & _). fold P2 in Hp2.
  assert (Hdone : ∀ W s, state p W = s → s ≠ Pending →
                         ∀ evs, state p (deliver evs W) = state p W).
  { intros W s <- Hs evs. apply deliver_settled, Hs. }
  unfold call, returned. rewrite clear_db_ts_run, clear_part_000_run. fold p t ops P1 P2.
  destruct (acquire_error names w) as [e|] eqn:Hacq; cbn [fst snd].
  - assert (Hs1 : state p (settle p (Rejected e) (refused e (with_pending w))) = Rejected e).
    { unfold state, settle, p. js_simpl. reflexivity. }
    split.
    { eapply same_clears_trans; apply view_same_clears;
        [rewrite settle_view|symmetry; rewrite settle_view]; reflexivity. }
    split.
    { apply same_clears_engine_run.
      eapply same_clears_trans; apply view_same_clears;
        [rewrite settle_view|symmetry; rewrite settle_view]; reflexivity. }
    split.
    { change (log (settle p (Rejected e) (refused e (with_pending w))))
        with (engine_view (settle p (Rejected e) (refused e (with_pending w)))).1.1.1.1.1.1.
      rewrite settle_view. reflexivity. }
    exists p, p. split; [reflexivity|]. split; [reflexivity|]. split; [exact Hs1|].
    split; [apply (Hdone _ _ Hs1); discriminate|].
    unfold state, settle, p. js_simpl. reflexivity.
  - assert (Hs1 : state p (settle p (Fulfilled VUndefined) P1) = Fulfilled VUndefined).
    { unfold state, settle. rewrite Hp1. unfold p. js_simpl. reflexivity. }
    assert (Hclears : same_clears (settle p (Fulfilled VUndefined) P1)
                        (settle (S p) (Fulfilled VUndefined) (clear_wired p t P2))).
    { eapply same_clears_trans; [apply view_same_clears; rewrite settle_view; exact Hview|].
      eapply same_clears_trans; [apply (clear_wired_same_clears p t)|].
      apply view_same_clears. symmetry. apply settle_view. }
    split; [exact Hclears|].
    split; [apply same_clears_engine_run, Hclears|].
    split.
    { change (log (settle p (Fulfilled VUndefined) P1))
        with (engine_view (settle p (Fulfilled VUndefined) P1)).1.1.1.1.1.1.
      rewrite settle_view. cbn [engine_view fst]. rewrite Hlog1. cbn.
      rewrite <- app_assoc. cbn. unfold ops. rewrite imap_fmap. reflexivity. }
    exists p, p. split; [reflexivity|]. split; [reflexivity|]. split; [exact Hs1|].
    split; [apply (Hdone _ _ Hs1); discriminate|].
    set (W2 := settle (S p) (Fulfilled VUndefined) (clear_wired p t P2)).
    assert (HpW2 : promises W2 !! p = Some Pending).
    { unfold W2, settle, clear_wired, set_tx_onerror, set_oncomplete, modify. cbn.
      rewrite Hp2. unfold p. js_simpl. reflexivity. }
    destruct (placed_transaction t ops (acquired names readwrite (with_pending (with_pending w)))
                (new_transaction names readwrite)) as (q & Hq & _).
    { cbn. apply lookup_insert_eq. }
    fold P2 in Hq.
    assert (HtW2 : ∃ tx, transactions W2 !! t = Some tx
                         ∧ tx_oncomplete tx = Some (Resolve p (Const (VBool true)))
                         ∧ tx_onerror tx = Some (Reject p (TransactionError t))
                         ∧ tx_error tx = None).
    { assert (Hsame : transactions W2 !! t = transactions (clear_wired p t P2) !! t).
      { unfold W2, settle. destruct (promises (clear_wired p t P2) !! S p) as [[]|];
          reflexivity. }
      eexists. split.
      - rewrite Hsame. apply clear_wired_transaction. rewrite Hq. apply lookup_insert_eq.
      - cbn. done. }
    destruct HtW2 as (tx & HtW2 & Hcomplete & Honerror & Hnoerr).
    split; [unfold state; rewrite HpW2; reflexivity|].
    split.
    { rewrite (dispatch_complete W2 t tx HtW2), Hcomplete.
      rewrite run_resolve by exact HpW2. reflexivity. }
    intros i n e Hi.
    assert (HrW2 : requests W2 !! (S t + i)%nat = Some (new_IDBRequest t (OpClear n))).
    { transitivity (requests P2 !! (S t + i)%nat).
      - unfold W2, settle. destruct (promises (clear_wired p t P2) !! S p) as [[]|];
          reflexivity.
      - apply (placed_requests t ops (acquired names readwrite
                                        (with_pending (with_pending w))) i).
        unfold ops. rewrite list_lookup_fmap, Hi. reflexivity. }
    rewrite (dispatch_error W2 _ e _ tx HrW2 HtW2).
    cbn [rq_onerror new_IDBRequest]. rewrite run_promises_none, Honerror.
    rewrite run_reject by exact HpW2.
    cbn. rewrite HtW2. cbn. rewrite Hnoerr. reflexivity.
Qed.

Lemma clear_copies_equivalent_witness :
  acquire_error (Single "items") opened = None
  ∧ database (engine_run 1 (call (clear db_ts (Single "items")) opened))
    = database (engine_run 1 (call (clear part_000 (Single "items")) opened))
  ∧ log (call (clear db_ts (Single "items")) opened)
    = log opened ++ [CallTransaction (Single "items") readwrite 1;
                     CallRequest (OpClear "items") 1 2].
Proof.
  destruct (clear_copies_equivalent (Single "items") opened) as (_ & Hdata & Hlog & _).
  split; [reflexivity|]. split; [exact Hdata|exact Hlog].
Defined.

(** ** Further properties of the class *)

(** *** Construction, when the engine is there *)

(** X1.  With [indexedDB] in the window, the constructor stores its four
    arguments in the handle and leaves [this.db] undefined.  For a version
    of at least 1 it returns after exactly one call to the engine,
    [open(name, version)], with the upgradeneeded and success continuations
    assigned and the blocked and error continuations assigned only when the
    corresponding hook was supplied.  For a version below 1 the engine's
    exception leaves the constructor: no request was handed out, the handle
    holds none. *)
Theorem constructor_opens_and_wires (w : World) (n : string) (v : Z)
    (s : option WebDBSetupOptions) (h : option Handlers) :
  window_indexedDB w = true →
  (1 ≤ v →
     returned (constructor n v s h) w = Normal tt
     ∧ log (call (constructor n v s h) w) = log w ++ [CallOpen n v]
     ∧ this (call (constructor n v s h) w)
       = {| name := n; version := v; setup := s; handlers := h;
            databaseRequest :=
              Some {| result := None; error := None;
                      onupgradeneeded := true; onsuccess := true;
                      onblocked := default false (onBlocked <$> h);
                      onerror := default false (onError <$> h) |};
            db := None |})
  ∧ (v < 1 →
       returned (constructor n v s h) w = Throw VTypeError
       ∧ log (call (constructor n v s h) w) = log w
       ∧ this (call (constructor n v s h) w)
         = {| name := n; version := v; setup := s; handlers := h;
              databaseRequest := None; db := None |}).
Proof.
  intros Hw. split; intros Hv.
  - js_unfold. cbn. rewrite Hw. cbn.
    destruct (Z.ltb_spec v 1) as [?|_]; [lia|]. cbn.
    destruct h as [[b ? e]|]; cbn; [destruct b, e|]; cbn; done.
  - js_unfold. cbn. rewrite Hw. cbn.
    destruct (Z.ltb_spec v 1) as [_|?]; [|lia]. cbn. done.
Qed.

Lemma constructor_opens_and_wires_witness :
  log constructed = [CallOpen "shop" 1]
  ∧ returned (constructor "shop" 0 (Some shop) None) (page true no_database)
    = Throw VTypeError.
Proof.
  destruct (constructor_opens_and_wires (page true no_database) "shop" 1 (Some shop) None
              eq_refl) as [Hok _].
  destruct (constructor_opens_and_wires (page true no_database) "shop" 0 (Some shop) None
              eq_refl) as [_ Hlow].
  split.
  - destruct Hok as (_ & Hlog & _); [lia|]. exact Hlog.
  - destruct Hlow as (Hret & _); [lia|]. exact Hret.
Defined.

(** *** [transaction] *)

Lemma transaction_spec (names : StoreNames) (mode : option Mode) (w : World) :
  transaction names mode w
  = (match acquire_error names w with
     | None => acquired names (default readonly mode) w
     | Some e => refused e w
     end, Normal (next_promise w)).
Proof.
  unfold acquire_error, stores_exist, refused, acquired.
  destruct (db (this w)) as [c|] eqn:Hdb.
  2:{ js_unfold. js_run ltac:(rewrite ?Hdb). rewrite insert_insert_eq. reflexivity. }
  destruct (connections w !! c) as [conn|] eqn:Hconn.
  2:{ js_unfold. js_run ltac:(rewrite ?Hdb, ?Hconn). rewrite insert_insert_eq.
      reflexivity. }
  destruct (closed conn) eqn:Hclosed.
  { js_unfold. js_run ltac:(rewrite ?Hdb, ?Hconn, ?Hclosed). rewrite insert_insert_eq.
    reflexivity. }
  cbn [fmap option_fmap option_map default compose negb].
  rewrite Hclosed. cbn [negb].
  destruct (forallb _ (names_of names)) eqn:Hs; cbn [negb].
  2:{ js_unfold. js_run ltac:(rewrite ?Hdb, ?Hconn, ?Hclosed, ?Hs).
      rewrite insert_insert_eq. reflexivity. }
  destruct (bool_decide (names_of names = [])) eqn:Hne.
  { js_unfold. js_run ltac:(rewrite ?Hdb, ?Hconn, ?Hclosed, ?Hs, ?Hne).
    rewrite insert_insert_eq. reflexivity. }
  js_unfold. js_run ltac:(rewrite ?Hdb, ?Hconn, ?Hclosed, ?Hs, ?Hne).
  rewrite insert_insert_eq. reflexivity.
Qed.

(** X2.  [transaction] never throws and never returns a pending promise.
    With an open connection attached, at least one store named and all the
    named stores present, the promise is fulfilled with a new transaction
    over exactly those stores, in the mode asked for and in [readonly] mode
    when none is given, and the engine was called once.  Otherwise the
    promise is rejected: with the engine's exception when the connection is
    closed ([InvalidStateError]), a store is missing ([NotFoundError]) or
    no store is named ([InvalidAccessError]), and no transaction exists.
    Once returned, the promise is not changed by any event. *)
Theorem transaction_settles_at_once (names : StoreNames) (mode : option Mode) (w : World) :
  ∃ p,
    returned (transaction names mode) w = Normal p
    ∧ (∀ evs, state p (deliver evs (call (transaction names mode) w))
              = state p (call (transaction names mode) w))
    ∧ match db (this w) ≫= (λ c, connections w !! c) with
      | Some conn =>
          if closed conn
          then state p (call (transaction names mode) w)
               = Rejected (VDOMException "InvalidStateError")
               ∧ log (call (transaction names mode) w) = log w
               ∧ transactions (call (transaction names mode) w) = transactions w
          else if negb (stores_exist (names_of names) w)
          then state p (call (transaction names mode) w)
               = Rejected (VDOMException "NotFoundError")
               ∧ log (call (transaction names mode) w) = log w
               ∧ transactions (call (transaction names mode) w) = transactions w
          else if bool_decide (names_of names = [])
          then state p (call (transaction names mode) w)
               = Rejected (VDOMException "InvalidAccessError")
               ∧ log (call (transaction names mode) w) = log w
               ∧ transactions (call (transaction names mode) w) = transactions w
          else state p (call (transaction names mode) w)
               = Fulfilled (VTransaction (next_id w))
               ∧ log (call (transaction names mode) w)
                 = log w ++ [CallTransaction names (default readonly mode) (next_id w)]
               ∧ transactions (call (transaction names mode) w)
                 = <[next_id w := {| tx_scope := names_of names;
                                     tx_mode := default readonly mode;
                                     tx_error := None; tx_queue := [];
                                     tx_finished := false; tx_oncomplete := None;
                                     tx_onerror := None |}]> (transactions w)
      | None => True
      end.
Proof.
  exists (next_promise w). unfold call, returned. rewrite transaction_spec. cbn [fst snd].
  split; [reflexivity|].
  split.
  { intros evs. apply deliver_settled.
    destruct (acquire_error names w); unfold state, refused, acquired; cbn;
      rewrite lookup_insert_eq; discriminate. }
  unfold acquire_error.
  destruct (db (this w)) as [c|]; cbn [mbind option_bind]; [|done].
  destruct (connections w !! c) as [conn|]; [|done].
  cbn [fmap option_fmap option_map default compose].
  destruct (closed conn); cbn [negb].
  { unfold state, refused. cbn. rewrite lookup_insert_eq. done. }
  destruct (stores_exist (names_of names) w); cbn [negb].
  2:{ unfold state, refused. cbn. rewrite lookup_insert_eq. done. }
  destruct (bool_decide (names_of names = [])).
  { unfold state, refused. cbn. rewrite lookup_insert_eq. done. }
  unfold state, acquired. cbn. rewrite lookup_insert_eq. done.
Qed.

(** *** Operations whose transaction is refused *)

(** A method that awaits the transaction in the body of an [async]
    executor, and one that awaits it in its own body. *)
Lemma refused_in_executor (rest : nat → nat → Js JsValue) (names : StoreNames)
    (mode : option Mode) (w : World) (e : JsValue) :
  acquire_error names w = Some e →
  async_returning_promise
    (new_Promise (λ p,
       let! _ := async (let! transaction := await_transaction names mode in
                        rest p transaction) in
       ret tt)) w
  = (settle (S (next_promise w)) (Rejected e) (refused e (with_pending (with_pending w))),
     Normal (next_promise w)).
Proof.
  intros He.
  pose proof (await_transaction_spec (with_pending (with_pending w)) names mode) as Haw.
  change (acquire_error names (with_pending (with_pending w)))
    with (acquire_error names w) in Haw.
  rewrite He in Haw.
  apply async_returning_promise_run, new_Promise_run.
  eapply bind_run_eq; [|reflexivity].
  apply async_throw, bind_throw, Haw.
Qed.

Lemma refused_in_body (rest : nat → Js nat) (names : StoreNames) (mode : option Mode)
    (w : World) (e : JsValue) :
  acquire_error names w = Some e →
  async_returning_promise (let! transaction := await_transaction names mode in
                           rest transaction) w
  = (settle (S (next_promise w)) (Rejected e) (with_pending (refused e w)),
     Normal (S (next_promise w))).
Proof.
  intros He.
  pose proof (await_transaction_spec w names mode) as Haw. rewrite He in Haw.
  erewrite async_returning_promise_throw by (apply bind_throw, Haw).
  reflexivity.
Qed.

Lemma invoke_refused (src : Source) (o : Operation) (w : World) (e : JsValue) :
  acquire_error (operation_stores o) w = Some e →
  ∃ W p, invoke src o w = (W, Normal p)
         ∧ (next_promise w ≤ p)%nat
         ∧ promises W !! p
           = Some (if awaits_in_executor src o then Pending else Rejected e)
         ∧ requests W = requests w ∧ transactions W = transactions w
         ∧ log W = log w.
Proof.
  intros He.
  destruct o as [names mode|store q i|store q i|store d k|store d k|store q|names];
    cbn [operation_stores] in He; cbn [invoke awaits_in_executor].
  - rewrite transaction_spec, He. eexists _, (next_promise w).
    split; [reflexivity|]. js_simpl. repeat split; first [reflexivity|lia].
  - unfold get. erewrite refused_in_body by exact He.
    eexists _, (S (next_promise w)). split; [reflexivity|].
    js_simpl. repeat split; first [reflexivity|lia].
  - unfold getAll. erewrite refused_in_body by exact He.
    eexists _, (S (next_promise w)). split; [reflexivity|].
    js_simpl. repeat split; first [reflexivity|lia].
  - unfold add. erewrite refused_in_executor by exact He.
    eexists _, (next_promise w). split; [reflexivity|].
    js_simpl. repeat split; first [reflexivity|lia].
  - unfold put. erewrite refused_in_executor by exact He.
    eexists _, (next_promise w). split; [reflexivity|].
    js_simpl. repeat split; first [reflexivity|lia].
  - unfold delete. erewrite refused_in_executor by exact He.
    eexists _, (next_promise w). split; [reflexivity|].
    js_simpl. repeat split; first [reflexivity|lia].
  - destruct src.
    + rewrite clear_db_ts_run, He. eexists _, (next_promise w). split; [reflexivity|].
      js_simpl. repeat split; first [reflexivity|lia].
    + rewrite clear_part_000_run, He. eexists _, (next_promise w). split; [reflexivity|].
      js_simpl. repeat split; first [reflexivity|lia].
Qed.

(** X3.  When the engine refuses the transaction an operation asks for
    (the connection is closed, a named store does not exist, no store is
    named, or no connection is attached), no request is placed and nothing
    is left on the engine's side.  [transaction], [get], [getAll] and the
    [clear] of [db.ts] return a promise rejected with the reason; [add],
    [put], [delete] and the [clear] of [part_000], which await the
    transaction inside the [async] executor they hand to [new Promise],
    return a promise that stays pending whatever events follow. *)
Theorem operations_on_refused_transaction (src : Source) (o : Operation) (w : World)
    (e : JsValue) :
  well_formed w →
  acquire_error (operation_stores o) w = Some e →
  ∃ p, returned (invoke src o) w = Normal p
       ∧ log (call (invoke src o) w) = log w
       ∧ requests (call (invoke src o) w) = requests w
       ∧ transactions (call (invoke src o) w) = transactions w
       ∧ if awaits_in_executor src o
         then ∀ evs, state p (deliver evs (call (invoke src o) w)) = Pending
         else state p (call (invoke src o) w) = Rejected e.
Proof.
  intros Hwf He.
  destruct (invoke_refused src o w e He) as (W & p & HW & Hle & Hp & Hr & Ht & Hlog).
  exists p. unfold returned, call. rewrite HW. cbn [fst snd].
  split; [reflexivity|]. split; [exact Hlog|]. split; [exact Hr|]. split; [exact Ht|].
  destruct (awaits_in_executor src o).
  - apply unmentioned_stays_pending.
    + intros ev a Ha Hpa.
      pose proof (well_formed_fired w W ev a Hwf Hr Ht Ha). lia.
    + unfold state. rewrite Hp. reflexivity.
  - unfold state. rewrite Hp. reflexivity.
Qed.

Lemma operations_on_refused_transaction_witness :
  acquire_error (Single "orders") opened = Some (VDOMException "NotFoundError")
  ∧ (∃ p, returned (put part_000 "orders" [("id", KNumber 1)] None) opened = Normal p
          ∧ ∀ evs, state p (deliver evs (call (put part_000 "orders" [("id", KNumber 1)]
                                                 None) opened)) = Pending)
  ∧ (∃ p, returned (getAll part_000 "orders" None None) opened = Normal p
          ∧ state p (call (getAll part_000 "orders" None None) opened)
            = Rejected (VDOMException "NotFoundError")).
Proof.
  split; [reflexivity|]. split.
  - destruct (operations_on_refused_transaction part_000
                (Put "orders" [("id", KNumber 1)] None) opened
                (VDOMException "NotFoundError") opened_well_formed eq_refl)
      as (p & Hret & _ & _ & _ & Hpend).
    exists p. split; [exact Hret|exact Hpend].
  - destruct (operations_on_refused_transaction part_000
                (GetAll "orders" None None) opened
                (VDOMException "NotFoundError") opened_well_formed eq_refl)
      as (p & Hret & _ & _ & _ & Hrej).
    exists p. split; [exact Hret|exact Hrej].
Defined.

(** *** Writes the store cannot key *)

(** Handlers after a call that placed no request and put no handler on a
    transaction are those that were there before. *)
Lemma fired_before (w W : World) (ev : Event) (a : Action) :
  well_formed w →
  requests W = requests w →
  (∀ t tx, transactions W !! t = Some tx →
           transactions w !! t = Some tx
           ∨ (tx_oncomplete tx = None ∧ tx_onerror tx = None)) →
  a ∈ fired ev W →
  (action_promise a < next_promise w)%nat.
Proof.
  intros [Hrq Htx] Hr Ht Ha.
  apply fired_origin in Ha as [(r & v & rq & -> & Hk & Hs)
                              |[(r & e & rq & -> & Hk & [He|(tx & Hx & He)])
                               |(t & tx & -> & Hx & Hc)]];
    rewrite ?Hr in *.
  - destruct (Hrq _ _ Hk) as (H & _ & _). apply H, Hs.
  - destruct (Hrq _ _ Hk) as (_ & H & _). apply H, He.
  - destruct (Ht _ _ Hx) as [Hx'|[_ Hnone]]; [|congruence].
    destruct (Htx _ _ Hx') as (_ & H). apply H, He.
  - destruct (Ht _ _ Hx) as [Hx'|[Hnone _]]; [|congruence].
    destruct (Htx _ _ Hx') as (H & _). apply H, Hc.
Qed.

Lemma write_unkeyed_run (overwrite : bool) (src : Source) (w : World) (store : string)
    (data : JsObject) (key : option IDBValidKey) (c : nat) (conn : IDBDatabase)
    (s : IDBObjectStore) :
  db (this w) = Some c →
  connections w !! c = Some conn →
  closed conn = false →
  stores (database w) !! store = Some s →
  key_available s data key = false →
  (if overwrite then put src store data key else add src store data key) w
  = (settle (S (next_promise w)) (Rejected (VDOMException "DataError"))
       (acquired (Single store) readwrite (with_pending (with_pending w))),
     Normal (next_promise w)).
Proof.
  intros Hdb Hconn Hclosed Hs Hkey.
  assert (Haw : await_transaction (Single store) (Some readwrite)
                  (with_pending (with_pending w))
                = (acquired (Single store) readwrite (with_pending (with_pending w)),
                   Normal (next_id w))).
  { apply (await_transaction_run (with_pending (with_pending w)) (Single store)
             (Some readwrite) c conn Hdb Hconn Hclosed); [|done].
    unfold stores_exist. cbn. rewrite Hs. reflexivity. }
  destruct overwrite; [unfold put|unfold add];
    apply async_returning_promise_run, new_Promise_run;
    (eapply bind_run_eq; [|reflexivity]);
    apply async_throw;
    (eapply bind_run_eq; [exact Haw|]);
    (eapply bind_run_eq;
       [apply (objectStore_acquired (Single store) readwrite
                 (with_pending (with_pending w)) store); cbn; left|]);
    cbv [IDBObjectStore_add IDBObjectStore_put writable check_key
         bind gets modify ret DOMException throw];
    js_run ltac:(rewrite ?Hs, ?Hkey); reflexivity.
Qed.

(** X4.  [add] and [put] of a record the store cannot key (the store has a
    key path and an explicit key is passed, or there is neither a usable
    key nor a key generator): the engine's [add]/[put] call throws
    [DataError] inside the [async] executor, after the read-write
    transaction was acquired.  The promise returned to the caller stays
    pending whatever events follow, no request was placed, and the stored
    data is as before. *)
Theorem unkeyed_write_never_settles (overwrite : bool) (src : Source) (w : World)
    (store : string) (data : JsObject) (key : option IDBValidKey) (c : nat)
    (conn : IDBDatabase) (s : IDBObjectStore) :
  well_formed w →
  db (this w) = Some c →
  connections w !! c = Some conn →
  closed conn = false →
  stores (database w) !! store = Some s →
  key_available s data key = false →
  let m := if overwrite then put src store data key else add src store data key in
  ∃ p, returned m w = Normal p
       ∧ (∀ evs, state p (deliver evs (call m w)) = Pending)
       ∧ log (call m w) = log w ++ [CallTransaction (Single store) readwrite (next_id w)]
       ∧ requests (call m w) = requests w
       ∧ database (call m w) = database w.
Proof.
  intros Hwf Hdb Hconn Hclosed Hs Hkey m.
  exists (next_promise w). unfold returned, call, m.
  rewrite (write_unkeyed_run overwrite src w store data key c conn s) by assumption.
  cbn [fst snd]. split; [reflexivity|].
  split.
  { apply unmentioned_stays_pending.
    - intros ev a Ha Hpa.
      assert (action_promise a < next_promise w)%nat; [|lia].
      eapply (fired_before w); [exact Hwf| | |exact Ha].
      + js_simpl. reflexivity.
      + intros t tx. js_simpl. rewrite lookup_insert. case_decide.
        * intros [= <-]. right. done.
        * intros Ht. left. exact Ht.
    - unfold state. js_simpl. reflexivity. }
  js_simpl. done.
Qed.

Lemma unkeyed_write_never_settles_witness :
  key_available (declared_store items) [("color", KString "red")] (Some (KNumber 7)) = false
  ∧ ∃ p, returned (add db_ts "items" [("color", KString "red")] (Some (KNumber 7))) opened
         = Normal p
         ∧ ∀ evs, state p (deliver evs (call (add db_ts "items" [("color", KString "red")]
                                                (Some (KNumber 7))) opened)) = Pending.
Proof.
  split; [reflexivity|].
  destruct (unkeyed_write_never_settles false db_ts opened "items"
              [("color", KString "red")] (Some (KNumber 7)) 0
              {| closed := false; onversionchange := false |} (declared_store items)
              opened_well_formed eq_refl eq_refl eq_refl eq_refl eq_refl)
    as (p & Hret & Hpend & _).
  exists p. split; [exact Hret|exact Hpend].
Defined.

(** *** Reads that succeed *)

Lemma process_same_handle (rs : list nat) (before : gmap string IDBObjectStore) (t : nat) :
  ∀ w, same_handle w (process rs before t w).
Proof.
  induction rs as [|r rs IH]; intros w; cbn [process].
  - apply (request_event_same_handle (ev_complete t) w eq_refl).
  - destruct (requests w !! r) as [rq|]; [|apply IH].
    destruct (execute (rq_op rq) (stores (database w))) as [[ss v]|e].
    + eapply same_handle_trans; [|apply IH].
      apply (request_event_same_handle (ev_success r v) (with_stores ss w) eq_refl).
    + apply (request_event_same_handle (ev_error r e) w eq_refl).
Qed.

Lemma engine_run_same_handle (t : nat) (w : World) : same_handle w (engine_run t w).
Proof.
  unfold engine_run. destruct (transactions w !! t) as [tx|]; [|done].
  destruct (tx_finished tx); [done|]. apply process_same_handle.
Qed.

(** The engine carrying out a transaction that holds one request whose
    success handler resolves [p] with the request's result, and that has no
    completion handler. *)
Lemma engine_run_resolves (W : World) (t k p : nat) (tx : IDBTransaction) (rq : IDBRequest)
    (ss : gmap string IDBObjectStore) (v : JsValue) :
  transactions W !! t = Some tx →
  tx_finished tx = false →
  tx_queue tx = [k] →
  tx_oncomplete tx = None →
  requests W !! k = Some rq →
  rq_onsuccess rq = Some (Resolve p (RequestResult k)) →
  promises W !! p = Some Pending →
  execute (rq_op rq) (stores (database W)) = inl (ss, v) →
  state p (engine_run t W) = Fulfilled v
  ∧ database (engine_run t W)
    = {| stored_version := stored_version (database W); stores := ss |}.
Proof.
  intros Ht Hfin Hq Hc Hk Hs Hp Hex.
  rewrite (engine_run_single W t k tx rq Ht Hfin Hq Hk), Hex.
  assert (Hk' : requests (with_stores ss W) !! k = Some rq) by exact Hk.
  rewrite (dispatch_success _ _ _ _ Hk'), Hs.
  assert (Hres : state p (run (Some (Resolve p (RequestResult k)))
                            (set_result k v (with_stores ss W))) = Fulfilled v).
  { rewrite run_resolve by exact Hp. cbn. rewrite lookup_alter_eq, Hk. reflexivity. }
  split.
  - rewrite <- Hres. apply (deliver_settled p [ev_complete t]). rewrite Hres. discriminate.
  - destruct (request_event_database (ev_complete t)
                (run (Some (Resolve p (RequestResult k)))
                   (set_result k v (with_stores ss W))) eq_refl) as [-> _].
    rewrite run_database. reflexivity.
Qed.

Lemma read_contract_intro (src : Source) (m : Js nat) (store : string) (op : RequestOp)
    (v : JsValue) (w W : World) :
  let p := S (next_promise w) in
  let t := next_id w in
  let k := S (next_id w) in
  well_formed w →
  m w = (W, Normal p) →
  promises W !! p = Some Pending →
  transactions W
  = <[t := {| tx_scope := [store]; tx_mode := readonly; tx_error := None;
              tx_queue := [k]; tx_finished := false;
              tx_oncomplete := None; tx_onerror := None |}]> (transactions w) →
  requests W
  = <[k := {| rq_transaction := t; rq_op := op;
              rq_result := VUndefined; rq_error := None;
              rq_onsuccess := Some (Resolve p (RequestResult k));
              rq_onerror := Some (Reject p match src with
                                           | db_ts => Const VUndefined
                                           | part_000 => RequestError k
                                           end) |}]> (requests w) →
  log W = log w ++ [CallTransaction (Single store) readonly t; CallRequest op t k] →
  database W = database w →
  execute op (stores (database w)) = inl (stores (database w), v) →
  read_contract m store op v w.
Proof.
  intros p t k Hwf Hm Hp Ht Hr Hlog Hd Hex.
  set (tx := {| tx_scope := [store]; tx_mode := readonly; tx_error := None;
                tx_queue := [k]; tx_finished := false;
                tx_oncomplete := None; tx_onerror := None |}) in *.
  set (rq := {| rq_transaction := t; rq_op := op;
                rq_result := VUndefined; rq_error := None;
                rq_onsuccess := Some (Resolve p (RequestResult k));
                rq_onerror := Some (Reject p match src with
                                             | db_ts => Const VUndefined
                                             | part_000 => RequestError k
                                             end) |}) in *.
  assert (Htx : transactions W !! t = Some tx) by (rewrite Ht; apply lookup_insert_eq).
  assert (Hk : requests W !! k = Some rq) by (rewrite Hr; apply lookup_insert_eq).
  assert (Hstate : state p W = Pending) by (unfold state; rewrite Hp; reflexivity).
  assert (Hfired : ∀ ev a, a ∈ fired ev W → action_promise a = p →
                           (∃ r, ev = ev_success k r ∧ ∃ x, a = Resolve p x)
                           ∨ (∃ e, ev = ev_error k e ∧ ∃ x, a = Reject p x)).
  { intros ev a Ha Hpa.
    destruct (fired_fresh w W t k p tx rq ev a Hwf Hr Ht)
      as [(r & -> & Hx)|[(e & -> & [Hx|Hx])|(-> & Hx)]]; try done; try (cbn; lia).
    - left. exists r. split; [reflexivity|]. injection Hx as <-. eauto.
    - right. exists e. split; [reflexivity|]. injection Hx as <-. eauto. }
  exists p, t, k. unfold call, returned. rewrite Hm. cbn [fst snd].
  split; [reflexivity|]. split; [exact Hlog|]. split; [exact Hstate|].
  split.
  { intros r. rewrite (dispatch_success _ _ _ _ Hk).
    change (rq_onsuccess rq) with (Some (Resolve p (RequestResult k))).
    rewrite run_resolve by exact Hp. cbn. rewrite lookup_alter_eq, Hk. reflexivity. }
  split.
  { intros evs r Hful.
    destruct (settled_by p evs W Hstate) as (ev & a & Hev & Ha & Hpa & Hsa);
      [rewrite Hful; discriminate|].
    rewrite Hful in Hsa.
    destruct (Hfired ev a Ha Hpa) as [(r' & -> & x & ->)|(e & -> & x & ->)]; [eauto|].
    destruct Hsa as [? ?]. discriminate. }
  split.
  { intros evs r Hrej.
    destruct (settled_by p evs W Hstate) as (ev & a & Hev & Ha & Hpa & Hsa);
      [rewrite Hrej; discriminate|].
    rewrite Hrej in Hsa.
    destruct (Hfired ev a Ha Hpa) as [(r' & -> & x & ->)|(e & -> & x & ->)]; [|eauto].
    destruct Hsa as [? ?]. discriminate. }
  destruct (engine_run_resolves W t k p tx rq (stores (database w)) v
              Htx eq_refl eq_refl eq_refl Hk eq_refl Hp) as [Hres Hdata].
  { rewrite Hd. exact Hex. }
  split; [exact Hres|]. rewrite Hdata, Hd. apply database_eta.
Qed.

Lemma execute_get (store : string) (i : option string) (q : Query)
    (ss : gmap string IDBObjectStore) (s : IDBObjectStore) :
  ss !! store = Some s →
  execute (OpGet store i q) ss = inl (ss, first_found (read s i (Some q))).
Proof. intros Hs. cbn. rewrite Hs, insert_id by exact Hs. reflexivity. Qed.

Lemma execute_getAll (store : string) (i : option string) (q : option Query)
    (ss : gmap string IDBObjectStore) (s : IDBObjectStore) :
  ss !! store = Some s →
  execute (OpGetAll store i q) ss = inl (ss, VArray (read s i q)).
Proof. intros Hs. cbn. rewrite Hs, insert_id by exact Hs. reflexivity. Qed.

(** X5.  With an open connection attached, the store in place and the
    index, if one is named, present on it, [get] and [getAll] return a
    promise that is pending until the read request fires [success] and is
    then fulfilled with [request.result]; nothing but a success event of
    that request fulfils it and nothing but an error event of it rejects
    it.  One read-only transaction over the store and one read request are
    made.  Run against the engine, the promise of [get] is fulfilled with
    the first record the query finds, with [undefined] when it finds none,
    that of [getAll] with the array of all records found, and the stored
    data is untouched. *)
Theorem reads_resolve_with_result (src : Source) (w : World) (store : string)
    (query : Query) (range : option Query) (index : option string) (c : nat)
    (conn : IDBDatabase) (s : IDBObjectStore) :
  well_formed w →
  db (this w) = Some c →
  connections w !! c = Some conn →
  closed conn = false →
  stores (database w) !! store = Some s →
  (truthy_string index = true → is_Some (os_indexes s !! default "" index)) →
  read_contract (get src store query index) store
    (OpGet store (index_used index) query)
    (first_found (read s (index_used index) (Some query))) w
  ∧ read_contract (getAll src store range index) store
      (OpGetAll store (index_used index) range)
      (VArray (read s (index_used index) range)) w.
Proof.
  intros Hwf Hdb Hconn Hclosed Hs Hix. split.
  - destruct (get_run src w store query index c conn s Hdb Hconn Hclosed Hs Hix)
      as (W & Hm & Hp & Ht & Hr & Hlog & Hd & _).
    exact (read_contract_intro src _ store _ _ w W Hwf Hm Hp Ht Hr Hlog Hd
             (execute_get store _ query _ s Hs)).
  - destruct (getAll_run src w store range index c conn s Hdb Hconn Hclosed Hs Hix)
      as (W & Hm & Hp & Ht & Hr & Hlog & Hd & _).
    exact (read_contract_intro src _ store _ _ w W Hwf Hm Hp Ht Hr Hlog Hd
             (execute_getAll store _ range _ s Hs)).
Qed.

Lemma reads_resolve_with_result_witness :
  read_contract (get db_ts "items" (QKey (KNumber 1)) (Some "byColor")) "items"
    (OpGet "items" (Some "byColor") (QKey (KNumber 1))) VUndefined opened.
Proof.
  refine (proj1 (reads_resolve_with_result db_ts opened "items" (QKey (KNumber 1)) None
                   (Some "byColor") 0 {| closed := false; onversionchange := false |}
                   (declared_store items) opened_well_formed eq_refl eq_refl eq_refl
                   eq_refl _)).
  intros _. vm_compute. eexists. reflexivity.
Defined.

(** *** What a read finds *)

Lemma insert_sorted_perm {A} (leb : A → A → bool) (x : A) (l : list A) :
  insert_sorted leb x l ≡ₚ x :: l.
Proof.
  induction l as [|y l IH]; cbn; [done|].
  destruct (leb x y); [done|]. rewrite IH. apply Permutation_swap.
Qed.

Lemma sorted_by_perm {A} (leb : A → A → bool) (l : list A) : sorted_by leb l ≡ₚ l.
Proof.
  induction l as [|x l IH]; cbn; [done|].
  rewrite insert_sorted_perm. fold (sorted_by leb l). rewrite IH. done.
Qed.

Lemma insert_sorted_sorted {A} (leb : A → A → bool) (x : A) (l : list A) :
  (∀ a b, leb a b = true ∨ leb b a = true) →
  Sorted (λ a b, leb a b = true) l →
  Sorted (λ a b, leb a b = true) (insert_sorted leb x l).
Proof.
  intros Htot. induction l as [|y l IH]; intros Hl; cbn.
  - repeat constructor.
  - destruct (leb x y) eqn:Hxy.
    + constructor; [exact Hl|]. constructor. exact Hxy.
    + inversion Hl as [|? ? Hl' Hhd]; subst.
      constructor; [apply IH, Hl'|].
      destruct l as [|z l]; cbn.
      * constructor. destruct (Htot x y); congruence.
      * destruct (leb x z).
        -- constructor. destruct (Htot x y); congruence.
        -- inversion Hhd; subst. constructor. assumption.
Qed.

Lemma sorted_by_sorted {A} (leb : A → A → bool) (l : list A) :
  (∀ a b, leb a b = true ∨ leb b a = true) →
  Sorted (λ a b, leb a b = true) (sorted_by leb l).
Proof.
  intros Htot. induction l as [|x l IH]; cbn; [constructor|].
  apply insert_sorted_sorted; assumption.
Qed.

Lemma key_leb_total (a b : IDBValidKey) : key_leb a b = true ∨ key_leb b a = true.
Proof.
  destruct a as [x|x], b as [y|y]; cbn; auto.
  - destruct (Z.leb_spec x y); [auto|right]. apply Z.leb_le. lia.
  - apply String.leb_total.
Qed.

Lemma filter_key_entries (l : list (IDBValidKey * JsObject)) (k : IDBValidKey) :
  NoDup l.*1 →
  filter (λ e : IDBValidKey * (IDBValidKey * JsObject), matches (Some (QKey k)) e.1 = true)
    (map (λ kv, (kv.1, kv)) l)
  = match (list_to_map l : gmap IDBValidKey JsObject) !! k with
    | Some o => [(k, (k, o))]
    | None => []
    end.
Proof.
  induction l as [|[k' o'] l IH]; intros Hnd; [reflexivity|].
  cbn in Hnd. apply NoDup_cons in Hnd as [Hk' Hnd]. specialize (IH Hnd).
  cbn [map list_to_map foldr fst snd]. rewrite filter_cons. cbn [fst matches].
  unfold key_eqb. destruct (decide (k = k')) as [<-|Hne].
  - rewrite bool_decide_true by done. rewrite decide_True by done.
    rewrite lookup_insert_eq.
    etransitivity; [apply f_equal, IH|].
    rewrite (not_elem_of_list_to_map_1 l k Hk'). reflexivity.
  - rewrite bool_decide_false by done. rewrite decide_False by done.
    rewrite lookup_insert_ne by done. exact IH.
Qed.

Lemma read_store_key (s : IDBObjectStore) (k : IDBValidKey) :
  read s None (Some (QKey k))
  = match os_records s !! k with Some o => [o] | None => [] end.
Proof.
  unfold read, entries.
  pose proof (filter_key_entries (map_to_list (os_records s)) k
                (NoDup_fst_map_to_list _)) as Hf.
  rewrite list_to_map_to_list in Hf.
  assert (Hp : map (λ e : IDBValidKey * (IDBValidKey * JsObject), e.2.2)
                 (filter (λ e, matches (Some (QKey k)) e.1 = true)
                    (sorted_by (λ a b, key_leb a.1 b.1)
                       (map (λ kv, (kv.1, kv)) (map_to_list (os_records s)))))
               ≡ₚ match os_records s !! k with Some o => [o] | None => [] end).
  { rewrite sorted_by_perm, Hf. destruct (os_records s !! k); reflexivity. }
  destruct (os_records s !! k).
  - apply Permutation_singleton_r, Hp.
  - apply Permutation_nil_r, Hp.
Qed.


Lemma filter_all {A} (P : A → Prop) `{∀ x, Decision (P x)} (l : list A) :
  (∀ x, P x) → filter P l = l.
Proof.
  intros HP. induction l as [|x l IH]; [reflexivity|].
  rewrite filter_cons_True by apply HP. rewrite IH. reflexivity.
Qed.

Lemma Sorted_snd {A B} (R : A → A → Prop) (l : list (A * (A * B))) :
  Forall (λ e, e.1 = e.2.1) l →
  Sorted (λ a b, R a.1 b.1) l →
  Sorted (λ a b, R a.1 b.1) l.*2.
Proof.
  induction l as [|e l IH]; intros Hall Hs; [constructor|].
  apply Forall_cons in Hall as [He Hall].
  inversion Hs as [|? ? Hs' Hhd]; subst.
  cbn. constructor; [apply IH; assumption|].
  destruct l as [|e' l]; cbn; constructor.
  apply Forall_cons in Hall as [He' _].
  inversion Hhd; subst. rewrite <- He, <- He'. assumption.
Qed.

Lemma read_store_all (s : IDBObjectStore) :
  ∃ rows, read s None None = rows.*2
          ∧ rows ≡ₚ map_to_list (os_records s)
          ∧ Sorted (λ a b, key_leb a.1 b.1 = true) rows.
Proof.
  unfold read, entries.
  set (L0 := map (λ kv : IDBValidKey * JsObject, (kv.1, kv)) (map_to_list (os_records s))).
  set (L := sorted_by (λ a b : IDBValidKey * (IDBValidKey * JsObject), key_leb a.1 b.1) L0).
  assert (HL : L ≡ₚ L0) by apply sorted_by_perm.
  exists (L.*2). split; [|split].
  - rewrite filter_all by done.
    change (map ?f ?l) with (f <$> l). rewrite <- list_fmap_compose. reflexivity.
  - rewrite HL. unfold L0. change (map ?f ?l) with (f <$> l).
    rewrite <- list_fmap_compose. cbn. rewrite list_fmap_id. reflexivity.
  - apply (Sorted_snd (λ a b, key_leb a b = true)).
    + rewrite HL. unfold L0. apply Forall_forall. intros e He.
      change (map ?f ?l) with (f <$> l) in He.
      apply list_elem_of_fmap in He as (kv & -> & _). reflexivity.
    + apply (sorted_by_sorted (λ a b : IDBValidKey * (IDBValidKey * JsObject),
                                 key_leb a.1 b.1)).
      intros a b. apply key_leb_total.
Qed.

Lemma elem_of_read_index (s : IDBObjectStore) (i : string) (ix : IDBIndex)
    (q : option Query) (o : JsObject) :
  os_indexes s !! i = Some ix →
  o ∈ read s (Some i) q
  ↔ ∃ pk key, os_records s !! pk = Some o
              ∧ field (ix_keyPath ix) o = Some key
              ∧ matches q key = true.
Proof.
  intros Hix. unfold read, entries. rewrite Hix.
  change (map ?f ?l) with (f <$> l).
  rewrite list_elem_of_fmap. split.
  - intros (e & -> & He). apply list_elem_of_filter in He as [Hm He].
    rewrite sorted_by_perm in He. apply list_elem_of_omap in He as (kv & Hkv & Hf).
    destruct (field (ix_keyPath ix) kv.2) as [key|] eqn:Hkey; [|discriminate].
    injection Hf as <-. destruct kv as [pk o]. cbn in *.
    apply elem_of_map_to_list in Hkv. eauto.
  - intros (pk & key & Ho & Hkey & Hm). exists (key, (pk, o)). split; [reflexivity|].
    apply list_elem_of_filter. split; [exact Hm|].
    rewrite sorted_by_perm. apply list_elem_of_omap. exists (pk, o).
    split; [apply elem_of_map_to_list, Ho|]. cbn. rewrite Hkey. reflexivity.
Qed.

(** *** Reads carried out by the engine *)

Lemma carried_out_same_handle (src : Source) (o : Operation) (w : World) :
  same_handle w (carried_out (invoke src o) w).
Proof.
  eapply same_handle_trans; [apply invoke_same_handle|apply engine_run_same_handle].
Qed.

Lemma read_outcome_intro (src : Source) (m : Js nat) (store : string) (op : RequestOp)
    (v : JsValue) (w W : World) :
  let p := S (next_promise w) in
  let t := next_id w in
  let k := S (next_id w) in
  m w = (W, Normal p) →
  promises W !! p = Some Pending →
  transactions W
  = <[t := {| tx_scope := [store]; tx_mode := readonly; tx_error := None;
              tx_queue := [k]; tx_finished := false;
              tx_oncomplete := None; tx_onerror := None |}]> (transactions w) →
  requests W
  = <[k := {| rq_transaction := t; rq_op := op;
              rq_result := VUndefined; rq_error := None;
              rq_onsuccess := Some (Resolve p (RequestResult k));
              rq_onerror := Some (Reject p match src with
                                           | db_ts => Const VUndefined
                                           | part_000 => RequestError k
                                           end) |}]> (requests w) →
  database W = database w →
  execute op (stores (database w)) = inl (stores (database w), v) →
  outcome m w = Some (Fulfilled v) ∧ database (carried_out m w) = database w.
Proof.
  intros p t k Hm Hp Ht Hr Hd Hex.
  unfold outcome, carried_out, returned, call. rewrite Hm. cbn [fst snd].
  edestruct (engine_run_resolves W t k p) as [Hres Hdata];
    [rewrite Ht; apply lookup_insert_eq|reflexivity|reflexivity|reflexivity
    |rewrite Hr; apply lookup_insert_eq|reflexivity|exact Hp
    |cbn [rq_op]; rewrite Hd; exact Hex|].
  fold t. rewrite Hres, Hdata, Hd. split; [reflexivity|apply database_eta].
Qed.

Lemma get_outcome (src : Source) (w : World) (store : string) (query : Query)
    (index : option string) (c : nat) (conn : IDBDatabase) (s : IDBObjectStore) :
  db (this w) = Some c →
  connections w !! c = Some conn →
  closed conn = false →
  stores (database w) !! store = Some s →
  (truthy_string index = true → is_Some (os_indexes s !! default "" index)) →
  outcome (get src store query index) w
  = Some (Fulfilled (first_found (read s (index_used index) (Some query))))
  ∧ database (carried_out (get src store query index) w) = database w.
Proof.
  intros Hdb Hconn Hclosed Hs Hix.
  destruct (get_run src w store query index c conn s Hdb Hconn Hclosed Hs Hix)
    as (W & Hm & Hp & Ht & Hr & Hlog & Hd & _).
  exact (read_outcome_intro src _ store _ _ w W Hm Hp Ht Hr Hd
           (execute_get store _ query _ s Hs)).
Qed.

Lemma getAll_outcome (src : Source) (w : World) (store : string) (range : option Query)
    (index : option string) (c : nat) (conn : IDBDatabase) (s : IDBObjectStore) :
  db (this w) = Some c →
  connections w !! c = Some conn →
  closed conn = false →
  stores (database w) !! store = Some s →
  (truthy_string index = true → is_Some (os_indexes s !! default "" index)) →
  outcome (getAll src store range index) w
  = Some (Fulfilled (VArray (read s (index_used index) range)))
  ∧ database (carried_out (getAll src store range index) w) = database w.
Proof.
  intros Hdb Hconn Hclosed Hs Hix.
  destruct (getAll_run src w store range index c conn s Hdb Hconn Hclosed Hs Hix)
    as (W & Hm & Hp & Ht & Hr & Hlog & Hd & _).
  exact (read_outcome_intro src _ store _ _ w W Hm Hp Ht Hr Hd
           (execute_getAll store _ range _ s Hs)).
Qed.

Lemma no_index_used (index : option string) :
  truthy_string index = false → index_used index = None.
Proof. unfold index_used. intros ->. reflexivity. Qed.

Lemma get_key_outcome (src : Source) (w : World) (store : string) (k0 : IDBValidKey)
    (index : option string) (c : nat) (conn : IDBDatabase) (s : IDBObjectStore) :
  db (this w) = Some c →
  connections w !! c = Some conn →
  closed conn = false →
  stores (database w) !! store = Some s →
  truthy_string index = false →
  outcome (get src store (QKey k0) index) w
  = Some (Fulfilled (from_option VObject VUndefined (os_records s !! k0))).
Proof.
  intros Hdb Hconn Hclosed Hs Hix.
  destruct (get_outcome src w store (QKey k0) index c conn s Hdb Hconn Hclosed Hs)
    as [-> _]; [rewrite Hix; discriminate|].
  rewrite (no_index_used index Hix), read_store_key.
  destruct (os_records s !! k0); reflexivity.
Qed.

(** X6.  [get] by key, with no index (none given, or the empty name): once
    the engine has carried the read out, the promise is fulfilled with the
    record stored under the key, and with [undefined], not rejected, when
    the store has no record under it.  The read changes nothing in the
    stored data, in the handle or in the connection. *)
Theorem get_by_key (src : Source) (w : World) (store : string) (k0 : IDBValidKey)
    (index : option string) (c : nat) (conn : IDBDatabase) (s : IDBObjectStore) :
  db (this w) = Some c →
  connections w !! c = Some conn →
  closed conn = false →
  stores (database w) !! store = Some s →
  truthy_string index = false →
  outcome (get src store (QKey k0) index) w
  = Some (match os_records s !! k0 with
          | Some o => Fulfilled (VObject o)
          | None => Fulfilled VUndefined
          end)
  ∧ database (carried_out (get src store (QKey k0) index) w) = database w
  ∧ same_handle w (carried_out (get src store (QKey k0) index) w).
Proof.
  intros Hdb Hconn Hclosed Hs Hix.
  rewrite (get_key_outcome src w store k0 index c conn s Hdb Hconn Hclosed Hs Hix).
  split; [destruct (os_records s !! k0); reflexivity|].
  split; [|apply (carried_out_same_handle src (Get store (QKey k0) index))].
  apply (get_outcome src w store (QKey k0) index c conn s Hdb Hconn Hclosed Hs).
  rewrite Hix. discriminate.
Qed.

Lemma get_by_key_witness :
  outcome (get db_ts "items" (QKey (KNumber 7)) None) opened = Some (Fulfilled VUndefined).
Proof.
  exact (proj1 (get_by_key db_ts opened "items" (KNumber 7) None 0
                  {| closed := false; onversionchange := false |} (declared_store items)
                  eq_refl eq_refl eq_refl eq_refl eq_refl)).
Defined.

(** X7.  [getAll] with neither a query nor an index: once the engine has
    carried the read out, the promise is fulfilled with an array that holds
    the value of every record of the store exactly once, in ascending order
    of the records' keys (numbers before strings); for a store without
    records it is the empty array. *)
Theorem getAll_returns_every_record (src : Source) (w : World) (store : string)
    (index : option string) (c : nat) (conn : IDBDatabase) (s : IDBObjectStore) :
  db (this w) = Some c →
  connections w !! c = Some conn →
  closed conn = false →
  stores (database w) !! store = Some s →
  truthy_string index = false →
  ∃ rows : list (IDBValidKey * JsObject),
    outcome (getAll src store None index) w = Some (Fulfilled (VArray rows.*2))
    ∧ rows ≡ₚ map_to_list (os_records s)
    ∧ Sorted (λ a b, key_leb a.1 b.1 = true) rows
    ∧ (os_records s = ∅ → rows = []).
Proof.
  intros Hdb Hconn Hclosed Hs Hix.
  destruct (getAll_outcome src w store None index c conn s Hdb Hconn Hclosed Hs)
    as [-> _]; [rewrite Hix; discriminate|].
  rewrite (no_index_used index Hix).
  destruct (read_store_all s) as (rows & -> & Hperm & Hsorted).
  exists rows. split; [reflexivity|]. split; [exact Hperm|]. split; [exact Hsorted|].
  intros Hempty. rewrite Hempty, map_to_list_empty in Hperm.
  apply Permutation_nil_r, Hperm.
Qed.

Lemma getAll_returns_every_record_witness :
  outcome (getAll part_000 "items" None None) opened = Some (Fulfilled (VArray [])).
Proof.
  destruct (getAll_returns_every_record part_000 opened "items" None 0
              {| closed := false; onversionchange := false |} (declared_store items)
              eq_refl eq_refl eq_refl eq_refl eq_refl) as (rows & Hout & _ & _ & Hempty).
  rewrite Hout, Hempty; reflexivity.
Defined.

(** X8.  Reads through an index that exists on the store.  [getAll]
    resolves with exactly the stored records whose indexed property has a
    key the query accepts: a record without that property is left out, even
    when no query is given.  [get] with a key resolves with a stored record
    whose indexed property equals the key, and with [undefined] exactly
    when there is none. *)
Theorem reads_through_index (src : Source) (w : World) (store : string) (i : string)
    (ix : IDBIndex) (c : nat) (conn : IDBDatabase) (s : IDBObjectStore) :
  db (this w) = Some c →
  connections w !! c = Some conn →
  closed conn = false →
  stores (database w) !! store = Some s →
  i ≠ "" →
  os_indexes s !! i = Some ix →
  (∀ range, ∃ found,
     outcome (getAll src store range (Some i)) w = Some (Fulfilled (VArray found))
     ∧ ∀ o, o ∈ found ↔ ∃ pk key, os_records s !! pk = Some o
                                   ∧ field (ix_keyPath ix) o = Some key
                                   ∧ matches range key = true)
  ∧ (∀ k0, ∃ v,
       outcome (get src store (QKey k0) (Some i)) w = Some (Fulfilled v)
       ∧ ((v = VUndefined
           ∧ ∀ pk o, os_records s !! pk = Some o → field (ix_keyPath ix) o ≠ Some k0)
          ∨ ∃ pk o, v = VObject o ∧ os_records s !! pk = Some o
                    ∧ field (ix_keyPath ix) o = Some k0)).
Proof.
  intros Hdb Hconn Hclosed Hs Hi Hix.
  assert (Htruthy : truthy_string (Some i) = true).
  { cbn. apply negb_true_iff, String.eqb_neq, Hi. }
  assert (Hused : index_used (Some i) = Some i).
  { unfold index_used. rewrite Htruthy. reflexivity. }
  assert (Hthere : truthy_string (Some i) = true
                   → is_Some (os_indexes s !! default "" (Some i))).
  { intros _. cbn. rewrite Hix. eauto. }
  split.
  - intros range.
    destruct (getAll_outcome src w store range (Some i) c conn s Hdb Hconn Hclosed Hs
                Hthere) as [-> _].
    rewrite Hused. eexists. split; [reflexivity|].
    intros o. apply elem_of_read_index, Hix.
  - intros k0.
    destruct (get_outcome src w store (QKey k0) (Some i) c conn s Hdb Hconn Hclosed Hs
                Hthere) as [-> _].
    rewrite Hused. eexists. split; [reflexivity|].
    pose proof (λ o, elem_of_read_index s i ix (Some (QKey k0)) o Hix) as Hmem.
    destruct (read s (Some i) (Some (QKey k0))) as [|o found]; cbn [first_found].
    + left. split; [reflexivity|]. intros pk o Ho Hf.
      assert (Hin : o ∈ @nil JsObject); [|inversion Hin].
      apply Hmem. exists pk, k0. split; [exact Ho|]. split; [exact Hf|].
      cbn. unfold key_eqb. apply bool_decide_eq_true. reflexivity.
    + right. destruct (proj1 (Hmem o)) as (pk & key & Ho & Hf & Hm); [left|].
      exists pk, o. split; [reflexivity|]. split; [exact Ho|].
      cbn in Hm. unfold key_eqb in Hm. apply bool_decide_eq_true in Hm as ->. exact Hf.
Qed.

Lemma stocked_store : stores (database stocked) !! "items" = Some stocked_items.
Proof. vm_compute. reflexivity. Defined.

Lemma reads_through_index_witness :
  ∃ v, outcome (get db_ts "items" (QKey (KString "red")) (Some "byColor")) stocked
       = Some (Fulfilled v)
       ∧ ((v = VUndefined
           ∧ ∀ pk o, os_records stocked_items !! pk = Some o → field "color" o ≠ Some (KString "red"))
          ∨ ∃ pk o, v = VObject o ∧ os_records stocked_items !! pk = Some o
                    ∧ field "color" o = Some (KString "red")).
Proof.
  destruct (reads_through_index db_ts stocked "items" "byColor" (new_index "color" None) 0
              {| closed := false; onversionchange := false |} stocked_items) as [_ Hget];
    [reflexivity|reflexivity|reflexivity|apply stocked_store|discriminate
    |vm_compute; reflexivity|].
  exact (Hget (KString "red")).
Defined.

(** *** Round trips *)

Lemma write_outcome_intro (src : Source) (overwrite : bool) (m : Js nat) (store : string)
    (s s' : IDBObjectStore) (data : JsObject) (key : option IDBValidKey) (v : JsValue)
    (w W : World) :
  let op := if overwrite then OpPut store data key else OpAdd store data key in
  let p := next_promise w in
  let t := next_id w in
  let k := S (next_id w) in
  stores (database w) !! store = Some s →
  m w = (W, Normal p) →
  promises W !! p = Some Pending →
  transactions W
  = <[t := {| tx_scope := [store]; tx_mode := readwrite; tx_error := None;
              tx_queue := [k]; tx_finished := false;
              tx_oncomplete := Some (Resolve p (RequestResult k));
              tx_onerror := Some (Reject p match src with
                                           | db_ts => Const (VBool false)
                                           | part_000 => TransactionError t
                                           end) |}]> (transactions w) →
  requests W = <[k := new_IDBRequest t op]> (requests w) →
  database W = database w →
  store_record overwrite s data key = inl (s', v) →
  outcome m w = Some (Fulfilled v)
  ∧ database (carried_out m w)
    = {| stored_version := stored_version (database w);
         stores := <[store := s']> (stores (database w)) |}.
Proof.
  intros op p t k Hs Hm Hp Ht Hr Hd Hrec.
  set (tx := {| tx_scope := [store]; tx_mode := readwrite; tx_error := None;
                tx_queue := [k]; tx_finished := false;
                tx_oncomplete := Some (Resolve p (RequestResult k));
                tx_onerror := Some (Reject p match src with
                                             | db_ts => Const (VBool false)
                                             | part_000 => TransactionError t
                                             end) |}) in *.
  assert (Htx : transactions W !! t = Some tx) by (rewrite Ht; apply lookup_insert_eq).
  assert (Hk : requests W !! k = Some (new_IDBRequest t op))
    by (rewrite Hr; apply lookup_insert_eq).
  unfold outcome, carried_out, returned, call. rewrite Hm. cbn [fst snd]. fold t.
  rewrite (engine_run_single W t k tx _ Htx eq_refl eq_refl Hk).
  cbn [rq_op new_IDBRequest]. rewrite Hd. unfold op.
  rewrite (execute_write overwrite store data key _ s Hs), Hrec.
  erewrite (dispatch_success _ k v) by exact Hk.
  cbn [rq_onsuccess new_IDBRequest]. rewrite run_promises_none.
  erewrite dispatch_complete by (unfold set_result; cbn; exact Htx).
  change (tx_oncomplete tx) with (Some (Resolve p (RequestResult k))). split.
  - rewrite run_resolve by exact Hp. cbn. rewrite lookup_alter_eq, Hk. reflexivity.
  - rewrite run_database. cbn. rewrite Hd. reflexivity.
Qed.

Lemma write_carried_out (overwrite : bool) (src : Source) (w : World) (store : string)
    (data : JsObject) (key : option IDBValidKey) (c : nat) (conn : IDBDatabase)
    (s s' : IDBObjectStore) (v : JsValue) :
  db (this w) = Some c →
  connections w !! c = Some conn →
  closed conn = false →
  stores (database w) !! store = Some s →
  key_available s data key = true →
  store_record overwrite s data key = inl (s', v) →
  let m := if overwrite then put src store data key else add src store data key in
  outcome m w = Some (Fulfilled v)
  ∧ database (carried_out m w)
    = {| stored_version := stored_version (database w);
         stores := <[store := s']> (stores (database w)) |}
  ∧ same_handle w (carried_out m w).
Proof.
  intros Hdb Hconn Hclosed Hs Hkey Hrec m.
  assert (Hsame : same_handle w (carried_out m w)).
  { destruct overwrite.
    - apply (carried_out_same_handle src (Put store data key)).
    - apply (carried_out_same_handle src (Add store data key)). }
  assert (Hout : outcome m w = Some (Fulfilled v)
                 ∧ database (carried_out m w)
                   = {| stored_version := stored_version (database w);
                        stores := <[store := s']> (stores (database w)) |});
    [|destruct Hout; done].
  subst m. destruct overwrite.
  - destruct (put_run src w store data key c conn s Hdb Hconn Hclosed Hs Hkey)
      as (W & Hm & Hp & Ht & Hr & Hlog & Hd & _).
    exact (write_outcome_intro src true _ store s s' data key v w W Hs Hm Hp Ht Hr Hd Hrec).
  - destruct (add_run src w store data key c conn s Hdb Hconn Hclosed Hs Hkey)
      as (W & Hm & Hp & Ht & Hr & Hlog & Hd & _).
    exact (write_outcome_intro src false _ store s s' data key v w W Hs Hm Hp Ht Hr Hd Hrec).
Qed.

(** Where a stored record ends up, and what it looks like: the record as
    given, or with the generated key put under the key path. *)
Lemma store_record_stored (overwrite : bool) (s s' : IDBObjectStore) (data : JsObject)
    (key : option IDBValidKey) (v : JsValue) :
  store_record overwrite s data key = inl (s', v) →
  ∃ k0 o, v = VKey k0
          ∧ os_records s' = <[k0 := o]> (os_records s)
          ∧ os_indexes s' = os_indexes s
          ∧ os_keyPath s' = os_keyPath s
          ∧ match os_keyPath s with
            | Some kp =>
                match field kp data with
                | Some k => k0 = k ∧ o = data
                | None => k0 = KNumber (os_generator s) ∧ o = set_field kp k0 data
                end
            | None => o = data ∧ k0 = default (KNumber (os_generator s)) key
            end.
Proof.
  unfold store_record.
  destruct (os_keyPath s) as [kp|] eqn:Hkp;
    [destruct (field kp data) as [k|] eqn:Hf|destruct key as [k|]];
    cbn; (case_match; [discriminate|]); intros [= <- <-]; eexists _, _; cbn;
    rewrite ?Hkp, ?Hf; repeat split; reflexivity.
Qed.

(** X9.  A record written by [add] or [put] can be read back: once the
    engine has carried out a write that succeeds with the key [k0], the
    promise of the write is fulfilled with [k0], and a [get] of [k0] on the
    same store resolves with the record as it was given, or, when the key
    came from the store's generator, with the record carrying that key
    under the store's key path.  A [get] of any other key of the store
    resolves as it would have before the write. *)
Theorem write_then_get (overwrite : bool) (src : Source) (w : World) (store : string)
    (data : JsObject) (key : option IDBValidKey) (c : nat) (conn : IDBDatabase)
    (s s' : IDBObjectStore) (k0 : IDBValidKey) :
  db (this w) = Some c →
  connections w !! c = Some conn →
  closed conn = false →
  stores (database w) !! store = Some s →
  key_available s data key = true →
  store_record overwrite s data key = inl (s', VKey k0) →
  let write := if overwrite then put src store data key else add src store data key in
  outcome write w = Some (Fulfilled (VKey k0))
  ∧ outcome (get src store (QKey k0) None) (carried_out write w)
    = Some (Fulfilled (VObject
              match os_keyPath s with
              | Some kp => match field kp data with
                           | Some _ => data
                           | None => set_field kp k0 data
                           end
              | None => data
              end))
  ∧ ∀ k, k ≠ k0 →
         outcome (get src store (QKey k) None) (carried_out write w)
         = outcome (get src store (QKey k) None) w.
Proof.
  intros Hdb Hconn Hclosed Hs Hkey Hrec write.
  destruct (write_carried_out overwrite src w store data key c conn s s' (VKey k0)
              Hdb Hconn Hclosed Hs Hkey Hrec) as (Hout & Hdata & Hthis & Hconns).
  fold write in Hout, Hdata, Hthis, Hconns.
  split; [exact Hout|].
  assert (Hdb' : db (this (carried_out write w)) = Some c) by (rewrite Hthis; exact Hdb).
  assert (Hconn' : connections (carried_out write w) !! c = Some conn)
    by (rewrite Hconns; exact Hconn).
  assert (Hs' : stores (database (carried_out write w)) !! store = Some s')
    by (rewrite Hdata; apply lookup_insert_eq).
  destruct (store_record_stored overwrite s s' data key (VKey k0) Hrec)
    as (k1 & o & [= <-] & Hrecs & _ & _ & Hshape).
  split.
  - rewrite (get_key_outcome src _ store k0 None c conn s' Hdb' Hconn' Hclosed Hs' eq_refl).
    rewrite Hrecs, lookup_insert_eq. cbn. do 3 f_equal.
    destruct (os_keyPath s) as [kp|]; [destruct (field kp data)|]; destruct Hshape; congruence.
  - intros k Hk.
    rewrite (get_key_outcome src _ store k None c conn s' Hdb' Hconn' Hclosed Hs' eq_refl).
    rewrite (get_key_outcome src w store k None c conn s Hdb Hconn Hclosed Hs eq_refl).
    rewrite Hrecs, lookup_insert_ne by congruence. reflexivity.
Qed.

Lemma write_then_get_witness :
  outcome (get db_ts "items" (QKey (KNumber 1)) None) stocked
  = Some (Fulfilled (VObject [("id", KNumber 1); ("color", KString "red")])).
Proof.
  destruct (write_then_get false db_ts opened "items" red_item None 0
              {| closed := false; onversionchange := false |} (declared_store items)
              stocked_items (KNumber 1))
    as (_ & Hget & _);
    [reflexivity|reflexivity|reflexivity|reflexivity|reflexivity|vm_compute; reflexivity|].
  exact Hget.
Defined.

Lemma engine_run_single_database (W : World) (t k : nat) (tx : IDBTransaction)
    (rq : IDBRequest) :
  transactions W !! t = Some tx →
  tx_finished tx = false →
  tx_queue tx = [k] →
  requests W !! k = Some rq →
  database (engine_run t W)
  = {| stored_version := stored_version (database W);
       stores := match execute (rq_op rq) (stores (database W)) with
                 | inl (ss, _) => ss
                 | inr _ => stores (database W)
                 end |}.
Proof.
  intros Ht Hfin Hq Hk. rewrite engine_run_database, Ht. cbn. rewrite Hfin, Hq.
  cbn [stores_after]. rewrite Hk. cbn.
  destruct (execute (rq_op rq) (stores (database W))) as [[ss v]|e]; reflexivity.
Qed.

Lemma delete_carried_out (src : Source) (w : World) (store : string) (q : Query)
    (c : nat) (conn : IDBDatabase) (s : IDBObjectStore) :
  db (this w) = Some c →
  connections w !! c = Some conn →
  closed conn = false →
  stores (database w) !! store = Some s →
  database (carried_out (delete src store q) w)
  = {| stored_version := stored_version (database w);
       stores := <[store := with_records
                              (filter (λ kv, matches (Some q) kv.1 = false) (os_records s))
                              (os_generator s) s]> (stores (database w)) |}
  ∧ same_handle w (carried_out (delete src store q) w).
Proof.
  intros Hdb Hconn Hclosed Hs.
  split; [|apply (carried_out_same_handle src (Delete store q))].
  destruct (delete_run src w store q c conn s Hdb Hconn Hclosed Hs)
    as (W & Hm & Hp & Ht & Hr & Hlog & Hd & _).
  unfold carried_out, call. rewrite Hm. cbn [fst].
  erewrite engine_run_single_database;
    [|rewrite Ht; apply lookup_insert_eq|reflexivity|reflexivity
     |rewrite Hr; apply lookup_insert_eq].
  cbn [rq_op execute]. rewrite Hd, Hs. reflexivity.
Qed.

(** X10.  What [delete] removes: once the engine has carried out a
    [delete] with the query [q], a [get] of a key the query accepts
    resolves with [undefined], and a [get] of any other key of the store
    resolves as it would have before.  In particular a deleted key reads
    back as absent. *)
Theorem delete_then_get (src : Source) (w : World) (store : string) (q : Query)
    (c : nat) (conn : IDBDatabase) (s : IDBObjectStore) :
  db (this w) = Some c →
  connections w !! c = Some conn →
  closed conn = false →
  stores (database w) !! store = Some s →
  ∀ k, outcome (get src store (QKey k) None) (carried_out (delete src store q) w)
       = if matches (Some q) k then Some (Fulfilled VUndefined)
         else outcome (get src store (QKey k) None) w.
Proof.
  intros Hdb Hconn Hclosed Hs k.
  destruct (delete_carried_out src w store q c conn s Hdb Hconn Hclosed Hs)
    as (Hdata & Hthis & Hconns).
  set (w1 := carried_out (delete src store q) w) in *.
  assert (Hdb' : db (this w1) = Some c) by (rewrite Hthis; exact Hdb).
  assert (Hconn' : connections w1 !! c = Some conn) by (rewrite Hconns; exact Hconn).
  rewrite (get_key_outcome src w1 store k None c conn _ Hdb' Hconn' Hclosed
             ltac:(rewrite Hdata; apply lookup_insert_eq) eq_refl).
  rewrite (get_key_outcome src w store k None c conn s Hdb Hconn Hclosed Hs eq_refl).
  cbn [os_records with_records]. rewrite map_lookup_filter.
  destruct (os_records s !! k) as [o|] eqn:Ho; cbn -[matches].
  - destruct (matches (Some q) k) eqn:Hm.
    + rewrite option_guard_False by discriminate.
      reflexivity.
    + rewrite option_guard_True by reflexivity. reflexivity.
  - destruct (matches (Some q) k); reflexivity.
Qed.

Lemma delete_then_get_witness :
  outcome (get db_ts "items" (QKey (KNumber 1)) None)
    (carried_out (delete db_ts "items" (QKey (KNumber 1))) stocked)
  = Some (Fulfilled VUndefined).
Proof.
  exact (delete_then_get db_ts stocked "items" (QKey (KNumber 1)) 0
           {| closed := false; onversionchange := false |} stocked_items
           eq_refl eq_refl eq_refl stocked_store (KNumber 1)).
Defined.

Lemma execute_clear (n : string) (ss : gmap string IDBObjectStore) :
  is_Some (ss !! n) →
  execute (OpClear n) ss = inl (alter emptied n ss, VUndefined).
Proof.
  intros [s Hs]. cbn. rewrite Hs. do 2 f_equal.
  apply map_eq. intros i. destruct (decide (i = n)) as [->|Hne].
  - rewrite lookup_insert_eq, lookup_alter_eq, Hs. reflexivity.
  - rewrite lookup_insert_ne, lookup_alter_ne by done. reflexivity.
Qed.

Lemma stores_after_clears (before : gmap string IDBObjectStore)
    (ops : nat → option RequestOp) (names : list string) :
  ∀ (a : nat) (ss : gmap string IDBObjectStore),
    (∀ i n, names !! i = Some n → ops (a + i)%nat = Some (OpClear n)) →
    (∀ n, n ∈ names → is_Some (ss !! n)) →
    stores_after (seq a (length names)) ops before ss = cleared names ss.
Proof.
  induction names as [|n names IH]; intros a ss Hops Hin; [reflexivity|].
  cbn [length seq stores_after cleared foldl].
  rewrite <- (Nat.add_0_r a) at 1. rewrite (Hops 0%nat n eq_refl).
  rewrite execute_clear by (apply Hin; left).
  apply IH.
  - intros i m Hi. replace (S a + i)%nat with (a + S i)%nat by lia.
    apply (Hops (S i)), Hi.
  - intros m Hm. apply lookup_alter_is_Some, Hin. right. exact Hm.
Qed.

Lemma emptied_idem (s : IDBObjectStore) : emptied (emptied s) = emptied s.
Proof. reflexivity. Qed.

Lemma lookup_cleared (names : list string) (n : string) :
  ∀ ss, cleared names ss !! n
        = if decide (n ∈ names) then emptied <$> ss !! n else ss !! n.
Proof.
  induction names as [|m names IH]; intros ss.
  - cbn. rewrite decide_False by apply not_elem_of_nil. reflexivity.
  - cbn [cleared foldl]. fold (cleared names (alter emptied m ss)). rewrite IH.
    destruct (decide (n = m)) as [->|Hne].
    + rewrite lookup_alter_eq. rewrite (decide_True (P := m ∈ m :: names)) by left.
      destruct (decide (m ∈ names)); [|reflexivity].
      destruct (ss !! m); reflexivity.
    + rewrite lookup_alter_ne by done.
      destruct (decide (n ∈ names)) as [Hin|Hin].
      * rewrite decide_True by (right; exact Hin). reflexivity.
      * rewrite decide_False; [reflexivity|].
        intros [?|?]%elem_of_cons; contradiction.
Qed.

Lemma clear_same_clears (src : Source) (names : StoreNames) (w : World) :
  acquire_error names w = None →
  same_clears (placed (next_id w) (OpClear <$> names_of names) (acquired names readwrite w))
    (call (clear src names) w).
Proof.
  intros Hacq. unfold call. destruct src.
  - rewrite clear_db_ts_run, Hacq. cbn [fst].
    apply view_same_clears. rewrite settle_view.
    apply placed_view, acquired_view. reflexivity.
  - rewrite clear_part_000_run, Hacq. cbn [fst].
    eapply same_clears_trans; [|apply view_same_clears; symmetry; apply settle_view].
    eapply same_clears_trans; [|apply clear_wired_same_clears].
    apply view_same_clears, placed_view, acquired_view. reflexivity.
Qed.

Lemma clear_carried_out (src : Source) (names : StoreNames) (w : World) (c : nat)
    (conn : IDBDatabase) :
  db (this w) = Some c →
  connections w !! c = Some conn →
  closed conn = false →
  stores_exist (names_of names) w = true →
  names_of names ≠ [] →
  database (carried_out (clear src names) w)
  = {| stored_version := stored_version (database w);
       stores := cleared (names_of names) (stores (database w)) |}
  ∧ same_handle w (carried_out (clear src names) w).
Proof.
  intros Hdb Hconn Hclosed Hex Hne.
  split; [|apply (carried_out_same_handle src (Clear names))].
  assert (Hacq : acquire_error names w = None).
  { unfold acquire_error. rewrite Hdb, Hconn. cbn. rewrite Hclosed, Hex. cbn.
    rewrite bool_decide_false by exact Hne. reflexivity. }
  unfold carried_out.
  rewrite <- (same_clears_engine_run _ _ _ (clear_same_clears src names w Hacq)).
  set (A := acquired names readwrite w).
  set (ops := OpClear <$> names_of names).
  destruct (placed_frame (next_id w) ops A) as (_ & _ & Hd & _).
  destruct (placed_transaction (next_id w) ops A (new_transaction names readwrite))
    as (q & Hq & ->); [apply lookup_insert_eq|].
  rewrite engine_run_database, Hq, lookup_insert_eq. cbn. rewrite Hd. cbn. f_equal.
  unfold ops. rewrite length_fmap.
  apply stores_after_clears.
  - intros i n Hi.
    rewrite (placed_requests (next_id w) (OpClear <$> names_of names) A i (OpClear n)).
    + reflexivity.
    + rewrite list_lookup_fmap, Hi. reflexivity.
  - intros n Hn. unfold stores_exist in Hex.
    rewrite forallb_forall in Hex.
    eapply bool_decide_eq_true_1, Hex, list_elem_of_In, Hn.
Qed.

Lemma read_emptied (s : IDBObjectStore) (q : option Query) : read (emptied s) None q = [].
Proof. unfold read, entries. cbn. rewrite map_to_list_empty. reflexivity. Qed.

(** X11.  What [clear] leaves, in either copy: once the engine has carried
    out the transaction, every named store is empty but otherwise as it was
    (key path, auto-increment flag, indexes, and the key generator, which is
    not reset), and every other store is untouched.  A [getAll] on a
    cleared store then resolves with the empty array and a [get] of any key
    with [undefined]. *)
Theorem clear_empties_named_stores (src : Source) (names : StoreNames) (w : World)
    (c : nat) (conn : IDBDatabase) :
  db (this w) = Some c →
  connections w !! c = Some conn →
  closed conn = false →
  stores_exist (names_of names) w = true →
  names_of names ≠ [] →
  (∀ n, n ∈ names_of names →
     ∃ s, stores (database w) !! n = Some s
          ∧ stores (database (carried_out (clear src names) w)) !! n = Some (emptied s)
          ∧ ∀ src' k,
              outcome (getAll src' n None None) (carried_out (clear src names) w)
              = Some (Fulfilled (VArray []))
              ∧ outcome (get src' n (QKey k) None) (carried_out (clear src names) w)
                = Some (Fulfilled VUndefined))
  ∧ (∀ n, n ∉ names_of names →
          stores (database (carried_out (clear src names) w)) !! n
          = stores (database w) !! n).
Proof.
  intros Hdb Hconn Hclosed Hex Hne.
  destruct (clear_carried_out src names w c conn Hdb Hconn Hclosed Hex Hne)
    as (Hdata & Hthis & Hconns).
  set (w1 := carried_out (clear src names) w) in *.
  assert (Hdb' : db (this w1) = Some c) by (rewrite Hthis; exact Hdb).
  assert (Hconn' : connections w1 !! c = Some conn) by (rewrite Hconns; exact Hconn).
  split.
  - intros n Hn.
    assert (Hthere : is_Some (stores (database w) !! n)).
    { unfold stores_exist in Hex. rewrite forallb_forall in Hex.
      eapply bool_decide_eq_true_1, Hex, list_elem_of_In, Hn. }
    destruct Hthere as [s Hs]. exists s. split; [exact Hs|].
    assert (Hs' : stores (database w1) !! n = Some (emptied s)).
    { rewrite Hdata. cbn. rewrite lookup_cleared, decide_True by exact Hn.
      rewrite Hs. reflexivity. }
    split; [exact Hs'|]. intros src' k. split.
    + destruct (getAll_outcome src' w1 n None None c conn _ Hdb' Hconn' Hclosed Hs')
        as [-> _]; [discriminate|].
      cbn [index_used truthy_string]. rewrite read_emptied. reflexivity.
    + rewrite (get_key_outcome src' w1 n k None c conn _ Hdb' Hconn' Hclosed Hs' eq_refl).
      cbn. rewrite lookup_empty. reflexivity.
  - intros n Hn. rewrite Hdata. cbn. rewrite lookup_cleared, decide_False by exact Hn.
    reflexivity.
Qed.

Lemma clear_empties_named_stores_witness :
  outcome (getAll db_ts "items" None None) (carried_out (clear part_000 (Single "items")) stocked)
  = Some (Fulfilled (VArray [])).
Proof.
  destruct (clear_empties_named_stores part_000 (Single "items") stocked 0
              {| closed := false; onversionchange := false |})
    as [Hnamed _]; [reflexivity|reflexivity|reflexivity|vm_compute; reflexivity|discriminate|].
  destruct (Hnamed "items") as (s & _ & _ & Hreads); [left|].
  exact (proj1 (Hreads db_ts (KNumber 1))).
Defined.
